(** * MoCo builder (src/moco/builder.py): a shallow embedding

    The file embeds [SplitBatchNorm] and [MoCo] of [moco/builder.py].

    - A torch tensor is a shape together with an index function
      ([Tensor]); the operations of torch the source calls on tensors
      ([.T], slice assignment, [einsum], [cat], advanced indexing, ...)
      are written out with their shape checks.
    - Tensor elements are taken from an arbitrary scalar type [F] with
      the arithmetic the source uses ([Scalar]); no law of arithmetic is
      assumed unless a statement says so.  IEEE rounding is not modelled.
    - A method of a Python object is a computation in the monad [M]:
      it takes the object, returns it together with a value or the
      exception raised.  The object survives an exception, with the
      writes made before it.
    - What the source receives from outside (the backbone encoder, the
      torch primitives [batch_norm] and [normalize], the random draws)
      is a variable of the section it is used in. *)

From Stdlib Require Import List Arith PeanoNat Lia Bool ZArith QArith.
From Stdlib Require Import Permutation Sorted.
From Stdlib Require Import Reals Lra.
From Stdlib Require String.
Import String.StringSyntax.
Delimit Scope string_scope with string.
Import ListNotations.
Local Open Scope nat_scope.

Set Implicit Arguments.

(** ** Exceptions and the object monad *)

Inductive exn : Type :=
| AssertionError
| ZeroDivisionError
| RuntimeError
| AttributeError
| IndexError
| ValueError
| TypeError.

Definition result (A : Type) : Type := (exn + A)%type.

Definition M (S A : Type) : Type := S -> result A * S.

Definition ret {S A : Type} (a : A) : M S A := fun s => (inr a, s).

Definition bind {S A B : Type} (c : M S A) (k : A -> M S B) : M S B :=
  fun s => match c s with
           | (inl e, s') => (inl e, s')
           | (inr a, s') => k a s'
           end.

Definition raise {S A : Type} (e : exn) : M S A := fun s => (inl e, s).

Definition gets {S A : Type} (f : S -> A) : M S A := fun s => (inr (f s), s).

Definition modify {S : Type} (f : S -> S) : M S unit := fun s => (inr tt, f s).

Definition lift {S A : Type} (r : result A) : M S A := fun s => (r, s).

Declare Scope obj_scope.
Delimit Scope obj_scope with obj.
Notation "x <- c ;; k" := (bind c (fun x => k))
  (at level 61, c at next level, right associativity) : obj_scope.
Notation "c ;;; k" := (bind c (fun _ => k))
  (at level 61, right associativity) : obj_scope.

(** [assert cond] *)
Definition py_assert {S : Type} (b : bool) : M S unit :=
  if b then ret tt else raise AssertionError.

(** [a % b] on non-negative Python ints. *)
Definition py_mod (a b : nat) : result nat :=
  if b =? 0 then inl ZeroDivisionError else inr (a mod b).

Definition is_ok {A : Type} (r : result A) : bool :=
  match r with inr _ => true | inl _ => false end.

(** ** Scalars *)

Class Scalar (F : Type) : Type := {
  zero : F;
  one : F;
  add : F -> F -> F;
  sub : F -> F -> F;
  mul : F -> F -> F;
  div : F -> F -> F;
  (** a decimal literal of the source, such as [0.07] *)
  lit : Q -> F
}.

(** The identities of exact arithmetic that [k * 0 + q * (1 - 0) = q]
    and [k * m = m * k] rest on. *)
Record ExactScalar (F : Type) (SF : Scalar F) : Prop := {
  mul_zero_r : forall x : F, mul x zero = zero;
  mul_one_r : forall x : F, mul x one = x;
  sub_zero_r : forall x : F, sub x zero = x;
  add_zero_l : forall x : F, add zero x = x;
  mul_comm : forall x y : F, mul x y = mul y x
}.

(** ** Lists of equal length, pointwise *)

Fixpoint map2 {A B C : Type} (f : A -> B -> C) (l : list A) (l' : list B) : list C :=
  match l, l' with
  | a :: t, b :: t' => f a b :: map2 f t t'
  | _, _ => []
  end.

Fixpoint forallb2 {A B : Type} (f : A -> B -> bool) (l : list A) (l' : list B) : bool :=
  match l, l' with
  | [], [] => true
  | a :: t, b :: t' => f a b && forallb2 f t t'
  | _, _ => false
  end.

(** [idx] is a valid index of a tensor of shape [s]. *)
Definition in_range (idx s : list nat) : Prop := Forall2 lt idx s.

(** ** Tensors *)

Section Tensors.
Context {F : Type} {SF : Scalar F}.

Record Tensor : Type := mkTensor {
  shape : list nat;
  data : list nat -> F
}.

Definition at1 (t : Tensor) (i : nat) : F := data t [i].
Definition at2 (t : Tensor) (i j : nat) : F := data t [i; j].

(** Two tensors with the same shape and the same elements. *)
Definition tensor_eq (a b : Tensor) : Prop :=
  shape a = shape b /\ forall idx, in_range idx (shape a) -> data a idx = data b idx.

(** [t.shape[0]] *)
Definition shape0 (t : Tensor) : result nat :=
  match shape t with
  | [] => inl IndexError
  | n :: _ => inr n
  end.

(** [t.T]: the dimensions reversed. *)
Definition transpose (t : Tensor) : Tensor :=
  {| shape := rev (shape t); data := fun idx => data t (rev idx) |}.

(** [t * c] and [t / c] for a Python float [c]. *)
Definition scale (t : Tensor) (c : F) : Tensor :=
  {| shape := shape t; data := fun idx => mul (data t idx) c |}.

Definition div_scalar (t : Tensor) (c : F) : Tensor :=
  {| shape := shape t; data := fun idx => div (data t idx) c |}.

(** *** Broadcasting *)

(** A source of shape [src] can be written into a destination of shape
    [dst] by a slice assignment: dimensions are aligned at the right; a
    source dimension is the destination's or 1; dimensions the source
    has in excess, at the left, are all 1 (torch drops them). *)
Definition expandable (src dst : list nat) : bool :=
  let extra := length src - length dst in
  forallb (Nat.eqb 1) (firstn extra src) &&
  forallb2 (fun a b => (a =? b) || (a =? 1))
           (skipn extra src) (skipn (length dst - length src) dst).

(** The index of the source element written at the destination index
    [idx]. *)
Definition expand_index (src idx : list nat) : list nat :=
  let extra := length src - length idx in
  repeat 0 extra ++
  map2 (fun size i => if size =? 1 then 0 else i)
       (skipn extra src) (skipn (length idx - length src) idx).

(** The shape two operands of an elementwise operation broadcast to. *)
Fixpoint broadcast_aligned (a b : list nat) : result (list nat) :=
  match a, b with
  | [], [] => inr []
  | x :: a', y :: b' =>
      match broadcast_aligned a' b' with
      | inl e => inl e
      | inr s =>
          if x =? y then inr (x :: s)
          else if x =? 1 then inr (y :: s)
          else if y =? 1 then inr (x :: s)
          else inl RuntimeError
      end
  | _, _ => inl RuntimeError
  end.

Definition broadcast_shapes (a b : list nat) : result (list nat) :=
  let n := Nat.max (length a) (length b) in
  broadcast_aligned (repeat 1 (n - length a) ++ a) (repeat 1 (n - length b) ++ b).

(** [a + b] *)
Definition tensor_add (a b : Tensor) : result Tensor :=
  match broadcast_shapes (shape a) (shape b) with
  | inl e => inl e
  | inr s => inr {| shape := s;
                    data := fun idx => add (data a (expand_index (shape a) idx))
                                           (data b (expand_index (shape b) idx)) |}
  end.

(** *** Slice assignment along the second axis *)

(** [dst[:, lo:hi] = src].  The slice bounds are clamped to the axis, as
    Python slices are; the source must expand to the sliced view. *)
Definition setitem_cols (dst : Tensor) (lo hi : nat) (src : Tensor) : result Tensor :=
  match shape dst with
  | d0 :: d1 :: rest =>
      let lo' := Nat.min lo d1 in
      let hi' := Nat.max lo' (Nat.min hi d1) in
      if expandable (shape src) (d0 :: (hi' - lo') :: rest) then
        inr {| shape := shape dst;
               data := fun idx =>
                 match idx with
                 | i0 :: i1 :: r =>
                     if (lo' <=? i1) && (i1 <? hi')
                     then data src (expand_index (shape src) (i0 :: (i1 - lo') :: r))
                     else data dst idx
                 | _ => data dst idx
                 end |}
      else inl RuntimeError
  | _ => inl IndexError
  end.

End Tensors.

Arguments Tensor F : clear implicits.

(** ** Index lists: [randperm], [argsort], [x[idx]] *)

(** Insertion of a (key, position) pair before the first pair with a key
    that is not smaller. *)
Fixpoint insert_by_key (p : nat * nat) (l : list (nat * nat)) : list (nat * nat) :=
  match l with
  | [] => [p]
  | h :: t => if fst p <=? fst h then p :: l else h :: insert_by_key p t
  end.

Definition sort_by_key (l : list (nat * nat)) : list (nat * nat) :=
  fold_right insert_by_key [] l.

(** [torch.argsort(v)] of a one-dimensional integer tensor: the
    positions of [v] in the order of their values. *)
Definition argsort (v : list nat) : list nat :=
  map snd (sort_by_key (combine v (seq 0 (length v)))).

(** ** The model *)

Section MoCoModel.
Context {F : Type} {SF : Scalar F}.

(** What an encoder holds besides its parameters (modules, buffers). *)
Variable Rest : Type.

Record Encoder : Type := mkEncoder {
  parameters : list (Tensor F);
  modules : Rest
}.

(** [encoder(x)]: the backbone's forward pass, which may write the
    encoder's buffers and may raise. *)
Variable encoder_call : Tensor F -> M Encoder (Tensor F).

(** [nn.functional.normalize(x, dim=d)] *)
Variable normalize : Tensor F -> nat -> result (Tensor F).

Record MoCo : Type := mkMoCo {
  K : nat;
  m : F;
  T : F;
  encoder_q : Encoder;
  encoder_k : Encoder;
  queue : Tensor F;
  (** the one element of the integer tensor [queue_ptr] *)
  queue_ptr : nat
}.

Definition set_encoder_q (e : Encoder) (st : MoCo) : MoCo :=
  mkMoCo (K st) (m st) (T st) e (encoder_k st) (queue st) (queue_ptr st).

Definition set_encoder_k (e : Encoder) (st : MoCo) : MoCo :=
  mkMoCo (K st) (m st) (T st) (encoder_q st) e (queue st) (queue_ptr st).

Definition set_queue (q : Tensor F) (st : MoCo) : MoCo :=
  mkMoCo (K st) (m st) (T st) (encoder_q st) (encoder_k st) q (queue_ptr st).

Definition set_queue_ptr (p : nat) (st : MoCo) : MoCo :=
  mkMoCo (K st) (m st) (T st) (encoder_q st) (encoder_k st) (queue st) p.

Definition set_T (t : F) (st : MoCo) : MoCo :=
  mkMoCo (K st) (m st) t (encoder_q st) (encoder_k st) (queue st) (queue_ptr st).

Definition set_parameters (ps : list (Tensor F)) (e : Encoder) : Encoder :=
  mkEncoder ps (modules e).

(** A method of an encoder, run on [self.encoder_q] or [self.encoder_k]. *)
Definition on_encoder_q {A : Type} (c : M Encoder A) : M MoCo A :=
  fun st => let (r, e) := c (encoder_q st) in (r, set_encoder_q e st).

Definition on_encoder_k {A : Type} (c : M Encoder A) : M MoCo A :=
  fun st => let (r, e) := c (encoder_k st) in (r, set_encoder_k e st).

(** *** [_momentum_update_key_encoder] (lines 92-98) *)

(** The loop over [zip(encoder_q.parameters(), encoder_k.parameters())]:
    the new key parameters, and the exception that stopped the loop if
    one did.  [zip] stops at the shorter list. *)
Fixpoint momentum_zip (c : F) (ps_q ps_k : list (Tensor F))
  : result unit * list (Tensor F) :=
  match ps_q, ps_k with
  | param_q :: qs, param_k :: ks =>
      match tensor_add (scale param_k c) (scale param_q (sub one c)) with
      | inl e => (inl e, ps_k)
      | inr new_k => let (r, ks') := momentum_zip c qs ks in (r, new_k :: ks')
      end
  | _, _ => (inr tt, ps_k)
  end.

Definition _momentum_update_key_encoder : M MoCo unit :=
  fun st =>
    let (r, ps) := momentum_zip (m st) (parameters (encoder_q st))
                                (parameters (encoder_k st)) in
    (r, set_encoder_k (set_parameters ps (encoder_k st)) st).

(** *** [_dequeue_and_enqueue_single_gpu] (lines 100-114) *)

Local Open Scope obj_scope.

Definition _dequeue_and_enqueue_single_gpu (keys : Tensor F) : M MoCo unit :=
  batch_size <- lift (shape0 keys) ;;
  ptr <- gets queue_ptr ;;
  capacity <- gets K ;;
  r <- lift (py_mod capacity batch_size) ;;
  py_assert (r =? 0) ;;;
  q <- gets queue ;;
  q' <- lift (setitem_cols q ptr (ptr + batch_size) (transpose keys)) ;;
  modify (set_queue q') ;;;
  ptr' <- lift (py_mod (ptr + batch_size) capacity) ;;
  modify (set_queue_ptr ptr').

(** *** [_batch_shuffle_single_gpu], [_batch_unshuffle_single_gpu]
    (lines 116-137) *)

(** [x[idx]] for an integer index tensor [idx], along the first axis. *)
Definition index_select0 (x : Tensor F) (idx : list nat) : result (Tensor F) :=
  match shape x with
  | [] => inl IndexError
  | n :: rest =>
      if forallb (fun i => i <? n) idx
      then inr {| shape := length idx :: rest;
                  data := fun ix => match ix with
                                    | i :: r => data x (nth i idx 0 :: r)
                                    | [] => data x []
                                    end |}
      else inl IndexError
  end.

(** [randperm n] stands for the draw [torch.randperm(n)] of the call. *)
Definition _batch_shuffle_single_gpu (randperm : nat -> list nat) (x : Tensor F)
  : result (Tensor F * list nat) :=
  match shape0 x with
  | inl e => inl e
  | inr n =>
      let idx_shuffle := randperm n in
      let idx_unshuffle := argsort idx_shuffle in
      match index_select0 x idx_shuffle with
      | inl e => inl e
      | inr x' => inr (x', idx_unshuffle)
      end
  end.

Definition _batch_unshuffle_single_gpu (x : Tensor F) (idx_unshuffle : list nat)
  : result (Tensor F) :=
  index_select0 x idx_unshuffle.

(** *** [forward] (lines 139-184) *)

(** Sum of [f 0 .. f (n-1)], from the left. *)
Definition sum_upto (n : nat) (f : nat -> F) : F :=
  fold_left (fun acc c => add acc (f c)) (seq 0 n) zero.

(** The size two dimensions with the same einsum letter stand for. *)
Definition einsum_dim (a b : nat) : result nat :=
  if a =? b then inr a
  else if a =? 1 then inr b
  else if b =? 1 then inr a
  else inl RuntimeError.

Definition bidx (size i : nat) : nat := if size =? 1 then 0 else i.

(** [torch.einsum('nc,nc->n', [a, b])] *)
Definition einsum_nc_nc_n (a b : Tensor F) : result (Tensor F) :=
  match shape a, shape b with
  | [na; ca], [nb; cb] =>
      match einsum_dim na nb, einsum_dim ca cb with
      | inr n, inr c =>
          inr {| shape := [n];
                 data := fun idx =>
                   let i := hd 0 idx in
                   sum_upto c (fun j => mul (at2 a (bidx na i) (bidx ca j))
                                            (at2 b (bidx nb i) (bidx cb j))) |}
      | _, _ => inl RuntimeError
      end
  | _, _ => inl RuntimeError
  end.

(** [torch.einsum('nc,ck->nk', [a, b])] *)
Definition einsum_nc_ck_nk (a b : Tensor F) : result (Tensor F) :=
  match shape a, shape b with
  | [n; ca], [cb; k] =>
      match einsum_dim ca cb with
      | inr c =>
          inr {| shape := [n; k];
                 data := fun idx =>
                   let i := hd 0 idx in
                   let l := hd 0 (tl idx) in
                   sum_upto c (fun j => mul (at2 a i (bidx ca j))
                                            (at2 b (bidx cb j) l)) |}
      | inl e => inl e
      end
  | _, _ => inl RuntimeError
  end.

(** [t.unsqueeze(-1)] *)
Definition unsqueeze_last (t : Tensor F) : Tensor F :=
  {| shape := shape t ++ [1]; data := fun idx => data t (removelast idx) |}.

(** [torch.cat([a, b], dim=1)] of two matrices. *)
Definition cat_dim1 (a b : Tensor F) : result (Tensor F) :=
  match shape a, shape b with
  | [na; ca], [nb; cb] =>
      if na =? nb
      then inr {| shape := [na; ca + cb];
                  data := fun idx =>
                    let i := hd 0 idx in
                    let j := hd 0 (tl idx) in
                    if j <? ca then at2 a i j else at2 b i (j - ca) |}
      else inl RuntimeError
  | _, _ => inl RuntimeError
  end.

(** Lines 148-150: the query features. *)
Definition query_features (im_q : Tensor F) : M MoCo (Tensor F) :=
  q <- on_encoder_q (encoder_call im_q) ;;
  lift (normalize q 1).

(** Lines 152-163: the key features, under [torch.no_grad()]. *)
Definition key_features (randperm : nat -> list nat) (im_k : Tensor F)
  : M MoCo (Tensor F) :=
  _momentum_update_key_encoder ;;;
  shuffled <- lift (_batch_shuffle_single_gpu randperm im_k) ;;
  k <- on_encoder_k (encoder_call (fst shuffled)) ;;
  k <- lift (normalize k 1) ;;
  lift (_batch_unshuffle_single_gpu k (snd shuffled)).

(** Lines 165-176: the logits, from the features and the object. *)
Definition contrast (q k : Tensor F) : M MoCo (Tensor F) :=
  l_pos <- lift (einsum_nc_nc_n q k) ;;
  snapshot <- gets queue ;;
  l_neg <- lift (einsum_nc_ck_nk q snapshot) ;;
  logits <- lift (cat_dim1 (unsqueeze_last l_pos) l_neg) ;;
  temperature <- gets T ;;
  ret (div_scalar logits temperature).

(** [forward(im_q, im_k)]: the logits and the labels (an integer
    tensor, one zero per row of the logits). *)
Definition forward (randperm : nat -> list nat) (im_q im_k : Tensor F)
  : M MoCo (Tensor F * list Z) :=
  q <- query_features im_q ;;
  k <- key_features randperm im_k ;;
  logits <- contrast q k ;;
  n <- lift (shape0 logits) ;;
  _dequeue_and_enqueue_single_gpu k ;;;
  ret (logits, repeat 0%Z n).

Local Close Scope obj_scope.

End MoCoModel.

Arguments Encoder F Rest : clear implicits.
Arguments MoCo F Rest : clear implicits.

(** ** [SplitBatchNorm] (lines 8-28) *)

Section SplitBatchNormModel.
Context {F : Type} {SF : Scalar F}.

(** The layer: [num_splits] and what [nn.BatchNorm2d] holds.  The
    buffers and the affine parameters are [None] when the layer was
    built with [track_running_stats=False], [affine=False]. *)
Record SplitBatchNorm : Type := mkSplitBatchNorm {
  num_features : nat;
  num_splits : nat;
  training : bool;
  track_running_stats : bool;
  running_mean : option (Tensor F);
  running_var : option (Tensor F);
  weight : option (Tensor F);
  bias : option (Tensor F);
  momentum : option F;
  eps : F
}.

Definition set_running_mean (t : option (Tensor F)) (l : SplitBatchNorm) : SplitBatchNorm :=
  mkSplitBatchNorm (num_features l) (num_splits l) (training l) (track_running_stats l)
    t (running_var l) (weight l) (bias l) (momentum l) (eps l).

Definition set_running_var (t : option (Tensor F)) (l : SplitBatchNorm) : SplitBatchNorm :=
  mkSplitBatchNorm (num_features l) (num_splits l) (training l) (track_running_stats l)
    (running_mean l) t (weight l) (bias l) (momentum l) (eps l).

Definition set_training (b : bool) (l : SplitBatchNorm) : SplitBatchNorm :=
  mkSplitBatchNorm (num_features l) (num_splits l) b (track_running_stats l)
    (running_mean l) (running_var l) (weight l) (bias l) (momentum l) (eps l).

Definition set_track_running_stats (b : bool) (l : SplitBatchNorm) : SplitBatchNorm :=
  mkSplitBatchNorm (num_features l) (num_splits l) (training l) b
    (running_mean l) (running_var l) (weight l) (bias l) (momentum l) (eps l).

(** The keyword arguments [**kw] that [nn.BatchNorm2d] knows. *)
Record BNKw : Type := mkBNKw {
  kw_eps : option F;
  kw_momentum : option (option F);
  kw_affine : option bool;
  kw_track_running_stats : option bool
}.

Definition no_kw : BNKw := mkBNKw None None None None.

Definition or_default {A : Type} (o : option A) (d : A) : A :=
  match o with Some a => a | None => d end.

Definition full (n : nat) (c : F) : Tensor F :=
  {| shape := [n]; data := fun _ => c |}.

(** [SplitBatchNorm(num_features, num_splits, **kw)]: the state
    [nn.BatchNorm2d.__init__] leaves (defaults [eps=1e-5],
    [momentum=0.1], [affine=True], [track_running_stats=True], a fresh
    module is in training mode), then [num_splits]. *)
Definition SplitBatchNorm_init (c s : nat) (kw : BNKw) : SplitBatchNorm :=
  let affine := or_default (kw_affine kw) true in
  let track := or_default (kw_track_running_stats kw) true in
  {| num_features := c;
     num_splits := s;
     training := true;
     track_running_stats := track;
     running_mean := if track then Some (full c zero) else None;
     running_var := if track then Some (full c one) else None;
     weight := if affine then Some (full c one) else None;
     bias := if affine then Some (full c zero) else None;
     momentum := or_default (kw_momentum kw) (Some (lit (1 # 10)));
     eps := or_default (kw_eps kw) (lit (1 # 100000)) |}.

(** [nn.functional.batch_norm(input, running_mean, running_var, weight,
    bias, training, momentum, eps)]: the output, and the two running
    statistics as the call leaves them (it updates them in place). *)
Variable batch_norm :
  Tensor F -> option (Tensor F) -> option (Tensor F) ->
  option (Tensor F) -> option (Tensor F) -> bool -> option F -> F ->
  result (Tensor F * option (Tensor F) * option (Tensor F)).

(** Attribute access on an attribute that may be [None]. *)
Definition attr {S A : Type} (o : option A) : M S A :=
  match o with Some a => ret a | None => raise AttributeError end.

(** [t.repeat(s)] with one repeat count. *)
Definition repeat1 (t : Tensor F) (s : nat) : result (Tensor F) :=
  match shape t with
  | [] => inr {| shape := [s]; data := fun _ => data t [] |}
  | [c] => inr {| shape := [c * s]; data := fun idx => data t [hd 0 idx mod c] |}
  | _ => inl RuntimeError
  end.

(** Row-major position of an index, and back. *)
Fixpoint ravel (s idx : list nat) : nat :=
  match s, idx with
  | d :: s', i :: idx' => i * fold_right Nat.mul 1 s' + ravel s' idx'
  | _, _ => 0
  end.

Fixpoint unravel (s : list nat) (pos : nat) : list nat :=
  match s with
  | [] => []
  | d :: s' => let stride := fold_right Nat.mul 1 s' in
               (pos / stride) :: unravel s' (pos mod stride)
  end.

Definition numel (s : list nat) : nat := fold_right Nat.mul 1 s.

(** [t.view] with an explicit shape [s]: the elements in row-major
    order, under the new shape.  The tensors of the model carry no
    strides: where torch refuses to view a tensor because of its
    memory layout (a [channels_last] batch) and raises [RuntimeError],
    the model returns.  What is stated of the split branch when it
    returns takes the return of [input.view] as a hypothesis. *)
Definition view (t : Tensor F) (s : list nat) : result (Tensor F) :=
  if numel s =? numel (shape t)
  then inr {| shape := s; data := fun idx => data t (unravel (shape t) (ravel s idx)) |}
  else inl RuntimeError.

(** [t.view] with [-1] for the first dimension and [s] for the rest. *)
Definition view_infer (t : Tensor F) (s : list nat) : result (Tensor F) :=
  if numel s =? 0 then inl RuntimeError
  else if numel (shape t) mod numel s =? 0
       then view t ((numel (shape t) / numel s) :: s)
       else inl RuntimeError.

Definition of_nat (n : nat) : F := lit (inject_Z (Z.of_nat n)).

(** [t.mean(dim=0)] of a matrix. *)
Definition mean_dim0 (t : Tensor F) : result (Tensor F) :=
  match shape t with
  | [s; c] =>
      inr {| shape := [c];
             data := fun idx =>
               div (fold_left (fun acc i => add acc (at2 t i (hd 0 idx))) (seq 0 s) zero)
                   (of_nat s) |}
  | _ => inl RuntimeError
  end.

(** [dst.copy_(src)]: the new contents of [dst].  The source expands
    to the destination, and has no dimension in excess. *)
Definition copy_ (dst src : Tensor F) : result (Tensor F) :=
  if (length (shape src) <=? length (shape dst)) && expandable (shape src) (shape dst)
  then inr {| shape := shape dst;
              data := fun idx => data src (expand_index (shape src) idx) |}
  else inl RuntimeError.

Local Open Scope obj_scope.

(** The branch taken when [self.training or not self.track_running_stats]. *)
Definition forward_split (input : Tensor F) (N C H W : nat)
  : M SplitBatchNorm (Tensor F) :=
  S_ <- gets num_splits ;;
  rm <- bind (gets running_mean) attr ;;
  running_mean_split <- lift (repeat1 rm S_) ;;
  rv <- bind (gets running_var) attr ;;
  running_var_split <- lift (repeat1 rv S_) ;;
  x <- lift (view_infer input [C * S_; H; W]) ;;
  w <- bind (gets weight) attr ;;
  w <- lift (repeat1 w S_) ;;
  b <- bind (gets bias) attr ;;
  b <- lift (repeat1 b S_) ;;
  mom <- gets momentum ;;
  e <- gets eps ;;
  r <- lift (batch_norm x (Some running_mean_split) (Some running_var_split)
                        (Some w) (Some b) true mom e) ;;
  outcome <- lift (view (fst (fst r)) [N; C; H; W]) ;;
  rms <- attr (snd (fst r)) ;;
  rms <- lift (view rms [S_; C]) ;;
  rms <- lift (mean_dim0 rms) ;;
  new_rm <- lift (copy_ rm rms) ;;
  modify (set_running_mean (Some new_rm)) ;;;
  rvs <- attr (snd r) ;;
  rvs <- lift (view rvs [S_; C]) ;;
  rvs <- lift (mean_dim0 rvs) ;;
  new_rv <- lift (copy_ rv rvs) ;;
  modify (set_running_var (Some new_rv)) ;;;
  ret outcome.

(** The other branch: the layer's own buffers are handed to
    [batch_norm], so what the call leaves in them is what the layer
    holds afterwards. *)
Definition forward_plain (input : Tensor F) : M SplitBatchNorm (Tensor F) :=
  rm <- gets running_mean ;;
  rv <- gets running_var ;;
  w <- gets weight ;;
  b <- gets bias ;;
  mom <- gets momentum ;;
  e <- gets eps ;;
  r <- lift (batch_norm input rm rv w b false mom e) ;;
  modify (set_running_mean (snd (fst r))) ;;;
  modify (set_running_var (snd r)) ;;;
  ret (fst (fst r)).

(** [SplitBatchNorm.forward(input)] *)
Definition SplitBatchNorm_forward (input : Tensor F) : M SplitBatchNorm (Tensor F) :=
  match shape input with
  | [N; C; H; W] =>
      tr <- gets training ;;
      track <- gets track_running_stats ;;
      if tr || negb track
      then forward_split input N C H W
      else forward_plain input
  | _ => raise ValueError
  end.

Local Close Scope obj_scope.

End SplitBatchNormModel.

Arguments SplitBatchNorm F : clear implicits.
Arguments BNKw F : clear implicits.

(** ** [MoCo.__init__] (lines 35-90) *)

Section Construction.
Context {F : Type} {SF : Scalar F}.
Variable Rest : Type.

(** The state of torch's random number generator: construction is a
    computation on it. *)
Variable Rng : Type.

(** [torch.randn] of a size. *)
Variable randn : list nat -> M Rng (Tensor F).

(** What a call [norm_layer(c, ...)] passes besides the number of
    channels [c]: further positional arguments (their number), a
    [num_splits] keyword if any, and keywords of [nn.BatchNorm2d]. *)
Record NormCall : Type := mkNormCall {
  call_positional : nat;
  call_num_splits : option nat;
  call_kw : BNKw F
}.

(** The type of [norm_layer], as the encoder factory calls it. *)
Definition NormLayer : Type := nat -> NormCall -> result (SplitBatchNorm F).

(** [base_encoder(num_classes=..., norm_layer=...)] *)
Variable base_encoder : nat -> NormLayer -> M Rng (Encoder F Rest).

(** [encoder.conv1 = torch.nn.Conv2d(c, 64, kernel_size=(7,7),
    stride=(2,2), padding=(3,3), bias=False)] *)
Variable replace_conv1 : nat -> Encoder F Rest -> M Rng (Encoder F Rest).

(** [dim_mlp = encoder.fc.weight.shape[1];
    encoder.fc = nn.Sequential(nn.Linear(dim_mlp, dim_mlp), nn.ReLU(), encoder.fc)] *)
Variable add_mlp : Encoder F Rest -> M Rng (Encoder F Rest).

(** [partial(SplitBatchNorm, num_splits=16)], called as an encoder
    calls a [norm_layer].  The keywords of the call are laid over those
    of the [partial], so a [num_splits] keyword of the call replaces
    16; a further positional argument lands on [num_splits] as well,
    and the call raises [TypeError] (multiple values for it). *)
Definition norm_layer : NormLayer := fun c call =>
  match call_positional call with
  | 0 => inr (SplitBatchNorm_init c (or_default (call_num_splits call) 16) (call_kw call))
  | S _ => inl TypeError
  end.

(** The channels of the first convolution that [bands] selects, if it
    selects any. *)
Definition band_channels (bands : String.string) : option nat :=
  if String.eqb bands "B12"%string then Some 12
  else if String.eqb bands "B13"%string then Some 13
  else if String.eqb bands "B15"%string then Some 15
  else if String.eqb bands "B2"%string then Some 2
  else None.

(** The loop of lines 82-84: [param_k.data.copy_(param_q.data)] over
    [zip] of the two parameter lists.  ([requires_grad] is not part of
    the model.) *)
Fixpoint copy_zip (ps_q ps_k : list (Tensor F)) : result (list (Tensor F)) :=
  match ps_q, ps_k with
  | param_q :: qs, param_k :: ks =>
      match copy_ param_k param_q with
      | inl e => inl e
      | inr new_k =>
          match copy_zip qs ks with
          | inl e => inl e
          | inr ks' => inr (new_k :: ks')
          end
      end
  | _, _ => inr ps_k
  end.

Local Open Scope obj_scope.

Definition MoCo_init (normalize : Tensor F -> nat -> result (Tensor F))
  (dim capacity : nat) (momentum_ temperature : F) (mlp : bool)
  (bands : String.string) : M Rng (MoCo F Rest) :=
  enc_q <- base_encoder dim norm_layer ;;
  enc_k <- base_encoder dim norm_layer ;;
  encs <- match band_channels bands with
          | Some c => q' <- replace_conv1 c enc_q ;;
                      k' <- replace_conv1 c enc_k ;;
                      ret (q', k')
          | None => ret (enc_q, enc_k)
          end ;;
  encs <- (if mlp
           then q' <- add_mlp (fst encs) ;;
                k' <- add_mlp (snd encs) ;;
                ret (q', k')
           else ret encs) ;;
  ps_k <- lift (copy_zip (parameters (fst encs)) (parameters (snd encs))) ;;
  raw <- randn [dim; capacity] ;;
  queue0 <- lift (normalize raw 0) ;;
  ret {| K := capacity; m := momentum_; T := temperature;
         encoder_q := fst encs;
         encoder_k := set_parameters ps_k (snd encs);
         queue := queue0;
         queue_ptr := 0 |}.

(** The defaults of the signature: [dim=128, K=65536, m=0.999, T=0.07,
    mlp=False, bands='all']. *)
Definition MoCo_default (normalize : Tensor F -> nat -> result (Tensor F))
  : M Rng (MoCo F Rest) :=
  MoCo_init normalize 128 (2 ^ 16) (lit (999 # 1000)) (lit (7 # 100)) false "all"%string.

Local Close Scope obj_scope.

End Construction.

Arguments NormCall F : clear implicits.

(** ** Reference models of the torch primitives

    [nn.functional.normalize] and [nn.functional.batch_norm] are
    torch's, not the repository's: the model takes them as variables.
    Where a statement needs them concrete, these definitions, written
    after the PyTorch documentation, stand for them. *)

Class Analytic (F : Type) : Type := {
  sqrt_ : F -> F;
  max_ : F -> F -> F
}.

Section ReferencePrimitives.
Context {F : Type} {SF : Scalar F} {AF : Analytic F}.

(** [idx] with its [d]-th component replaced by [j]. *)
Definition set_nth (d j : nat) (idx : list nat) : list nat :=
  firstn d idx ++ j :: skipn (S d) idx.

(** The L2 norm of the fibre of [x] along axis [d] through [idx]. *)
Definition norm_along (x : Tensor F) (d : nat) (idx : list nat) : F :=
  sqrt_ (sum_upto (nth d (shape x) 0)
                  (fun j => mul (data x (set_nth d j idx)) (data x (set_nth d j idx)))).

(** [normalize(x, p=2, dim=d, eps=1e-12)]: [x / max(norm, eps)]. *)
Definition normalize_ref (x : Tensor F) (d : nat) : result (Tensor F) :=
  if d <? length (shape x)
  then inr {| shape := shape x;
              data := fun idx =>
                div (data x idx) (max_ (norm_along x d idx) (lit (1 # 1000000000000))) |}
  else inl IndexError.

(** Sum of a function of [(n, h, w)] over a batch of [N] samples of
    [H x W] values. *)
Definition sum_nhw (N H W : nat) (f : nat -> nat -> nat -> F) : F :=
  sum_upto N (fun n => sum_upto H (fun h => sum_upto W (fun w => f n h w))).

Definition channel (o : option (Tensor F)) (d : F) (c : nat) : F :=
  match o with Some t => at1 t c | None => d end.

Definition has_shape (o : option (Tensor F)) (s : list nat) : bool :=
  match o with
  | Some t => if list_eq_dec Nat.eq_dec (shape t) s then true else false
  | None => true
  end.

(** [batch_norm(input, running_mean, running_var, weight, bias,
    training, momentum, eps)] on an [N x C x H x W] input.  In
    training mode the batch statistics normalize the input and the
    running statistics move towards them by [momentum] (the variance
    unbiased); otherwise the running statistics normalize the input
    and are left alone.  It stands for torch's on batches that are not
    empty and with [eps > 0], where the runs below use it. *)
Definition batch_norm_ref (input : Tensor F) (rm rv w b : option (Tensor F))
  (train : bool) (mom : option F) (e : F)
  : result (Tensor F * option (Tensor F) * option (Tensor F)) :=
  match shape input, mom with
  | [N; C; H; W], Some mo =>
      if negb (has_shape rm [C] && has_shape rv [C] && has_shape w [C] && has_shape b [C])
      then inl RuntimeError
      else if train then
        let count := N * H * W in
        if count <=? 1 then inl ValueError
        else
          let mean := fun c =>
            div (sum_nhw N H W (fun n h w => data input [n; c; h; w])) (of_nat count) in
          let sq_dev := fun c =>
            sum_nhw N H W (fun n h w =>
              mul (sub (data input [n; c; h; w]) (mean c))
                  (sub (data input [n; c; h; w]) (mean c))) in
          let out :=
            {| shape := shape input;
               data := fun idx =>
                 let c := nth 1 idx 0 in
                 add (mul (div (sub (data input idx) (mean c))
                               (sqrt_ (add (div (sq_dev c) (of_nat count)) e)))
                          (channel w one c))
                     (channel b zero c) |} in
          let moved := fun (old : Tensor F) (stat : nat -> F) =>
            {| shape := shape old;
               data := fun idx =>
                 add (mul (sub one mo) (data old idx)) (mul mo (stat (hd 0 idx))) |} in
          inr (out,
               option_map (fun t => moved t mean) rm,
               option_map (fun t => moved t (fun c => div (sq_dev c) (of_nat (count - 1)))) rv)
      else
        match rm, rv with
        | Some m_, Some v_ =>
            inr ({| shape := shape input;
                    data := fun idx =>
                      let c := nth 1 idx 0 in
                      add (mul (div (sub (data input idx) (at1 m_ c))
                                    (sqrt_ (add (at1 v_ c) e)))
                               (channel w one c))
                          (channel b zero c) |},
                 rm, rv)
        | _, _ => inl RuntimeError
        end
  | [_; _; _; _], None => inl TypeError
  | _, _ => inl RuntimeError
  end.

End ReferencePrimitives.

(** The rational numbers as scalars: exact, and they compute. *)
#[export] Instance Q_Scalar : Scalar Q := {|
  zero := 0%Q;
  one := 1%Q;
  add := Qplus;
  sub := Qminus;
  mul := Qmult;
  div := Qdiv;
  lit := fun q => q
|}.

(** The real numbers as scalars. *)
#[export] Instance R_Scalar : Scalar R := {|
  zero := 0%R;
  one := 1%R;
  add := Rplus;
  sub := Rminus;
  mul := Rmult;
  div := Rdiv;
  lit := Q2R
|}.

#[export] Instance R_Analytic : Analytic R := {|
  sqrt_ := sqrt;
  max_ := Rmax
|}.

(** ** Successive enqueues, and [concat_all_gather] (lines 188-199) *)

Section FurtherModel.
Context {F : Type} {SF : Scalar F}.
Variable Rest : Type.

(** One [_dequeue_and_enqueue_single_gpu] per batch, in order, as
    successive forward calls make them; the first exception stops the
    run. *)
Fixpoint enqueue_all (batches : list (Tensor F)) : M (MoCo F Rest) unit :=
  match batches with
  | [] => ret tt
  | keys :: rest =>
      bind (_dequeue_and_enqueue_single_gpu keys) (fun _ => enqueue_all rest)
  end.

(** [torch.ones_like(t)] *)
Definition ones_like (t : Tensor F) : Tensor F :=
  {| shape := shape t; data := fun _ => one |}.

Definition is_empty_vector (t : Tensor F) : bool :=
  match shape t with
  | [0] => true
  | _ => false
  end.

(** The element at row [i] of the tensors of [ts] laid end to end. *)
Fixpoint cat_data (ts : list (Tensor F)) (i : nat) (r : list nat) : F :=
  match ts with
  | [] => zero
  | t :: rest =>
      let n := hd 0 (shape t) in
      if i <? n then data t (i :: r) else cat_data rest (i - n) r
  end.

(** [torch.cat(ts, dim=0)]: the list is not empty; one-dimensional
    empty tensors are skipped; the others have at least one dimension
    and agree on all but the first. *)
Definition cat_dim0 (ts : list (Tensor F)) : result (Tensor F) :=
  match ts with
  | [] => inl RuntimeError
  | first :: _ =>
      match filter (fun t => negb (is_empty_vector t)) ts with
      | [] => inr first
      | t0 :: rest =>
          match shape t0 with
          | [] => inl RuntimeError
          | _ :: s0 =>
              if forallb (fun t => match shape t with
                                   | [] => false
                                   | _ :: s => if list_eq_dec Nat.eq_dec s s0
                                               then true else false
                                   end) rest
              then inr {| shape := fold_right (fun t acc => hd 0 (shape t) + acc) 0
                                              (t0 :: rest) :: s0;
                          data := fun idx => cat_data (t0 :: rest) (hd 0 idx) (tl idx) |}
              else inl RuntimeError
          end
      end
  end.

(** [torch.distributed.get_world_size()]: it raises when no process
    group was set up. *)
Variable get_world_size : result nat.

(** [torch.distributed.all_gather(tensors_gather, tensor)]: the list
    [tensors_gather] as the call leaves it. *)
Variable all_gather : list (Tensor F) -> Tensor F -> result (list (Tensor F)).

(** [concat_all_gather(tensor)] *)
Definition concat_all_gather (tensor : Tensor F) : result (Tensor F) :=
  match get_world_size with
  | inl e => inl e
  | inr world =>
      let tensors_gather := repeat (ones_like tensor) world in
      match all_gather tensors_gather tensor with
      | inl e => inl e
      | inr gathered => cat_dim0 gathered
      end
  end.

End FurtherModel.

(** ** Notions of the statements *)

(** The exception a call raised, if it raised one. *)
Definition raised {A : Type} (r : result A) : option exn :=
  match r with inl e => Some e | inr _ => None end.

(** The order [argsort] sorts by. *)
Definition key_le (a b : nat * nat) : Prop := fst a <= fst b.

Section Notions.
Context {F : Type} {SF : Scalar F} {AF : Analytic F}.
Variable Rest : Type.

(** [k'] is [k * c + q * (1 - c)], element by element, as line 98
    computes it. *)
Definition momentum_rule (c : F) (q k k' : Tensor F) : Prop :=
  shape k' = shape k /\
  forall idx, in_range idx (shape k) ->
    data k' idx = add (mul (data k idx) c) (mul (data q idx) (sub one c)).

(** [dot(a_i, b_i)] over [c] components, and [dot(a_i, b[:, l])]. *)
Definition dot_rows (a b : Tensor F) (c i : nat) : F :=
  sum_upto c (fun j => mul (at2 a i j) (at2 b i j)).

Definition dot_row_col (a b : Tensor F) (c i l : nat) : F :=
  sum_upto c (fun j => mul (at2 a i j) (at2 b j l)).

(** The queue of an object fed batches of [B] keys of [D] components:
    [D] rows of [K] columns, [K] and [ptr] multiples of [B], [ptr]
    below [K]. *)
Definition aligned (B D : nat) (st : MoCo F Rest) : Prop :=
  shape (queue st) = [D; K st] /\
  Nat.divide B (K st) /\ Nat.divide B (queue_ptr st) /\ queue_ptr st < K st.

(** A computation that neither reads nor writes [T]. *)
Definition T_blind {A : Type} (c : M (MoCo F Rest) A) : Prop :=
  forall st t, c (set_T t st) = (fst (c st), set_T t (snd (c st))).

(** Two outcomes that differ in the temperature of the object only
    (and in the value returned, if one is). *)
Definition same_but_T {A : Type} (t : F) (x y : result A * MoCo F Rest) : Prop :=
  raised (fst x) = raised (fst y) /\ snd x = set_T t (snd y).

(** What torch documents of [batch_norm] outside training mode: the
    running statistics are read, not written. *)
Definition eval_reads_only
  (batch_norm : Tensor F -> option (Tensor F) -> option (Tensor F) ->
                option (Tensor F) -> option (Tensor F) -> bool -> option F -> F ->
                result (Tensor F * option (Tensor F) * option (Tensor F))) : Prop :=
  forall input rm rv w b mom e r,
    batch_norm input rm rv w b false mom e = inr r ->
    snd (fst r) = rm /\ snd r = rv.

(** The L2 norm of column [j] of a matrix of [D] rows, and of row [i]
    of a matrix of [D] columns. *)
Definition col_norm (t : Tensor F) (D j : nat) : F :=
  sqrt_ (sum_upto D (fun d => mul (at2 t d j) (at2 t d j))).

Definition row_norm (t : Tensor F) (D i : nat) : F :=
  sqrt_ (sum_upto D (fun d => mul (at2 t i d) (at2 t i d))).

End Notions.

(** The [eps] of [normalize]. *)
Definition normalize_eps : R := lit (1 # 1000000000000).

(** ** Concrete objects, for the runs at the end *)

(** A tensor of ones, and one given by its rows. *)
Definition ones (s : list nat) : Tensor R := {| shape := s; data := fun _ => 1%R |}.

Definition of_rows {F : Type} {SF : Scalar F} (rows : list (list F)) : Tensor F :=
  {| shape := [length rows; length (hd [] rows)];
     data := fun idx => nth (hd 0 (tl idx)) (nth (hd 0 idx) rows []) zero |}.

(** An object over the rationals: a queue of two columns of two
    components, temperature 1/2, momentum 1/2, one parameter in each
    encoder. *)
Definition rational_moco : MoCo Q unit :=
  {| K := 2; m := (1 # 2)%Q; T := (1 # 2)%Q;
     encoder_q := mkEncoder [of_rows [[3; 5]%Q]] tt;
     encoder_k := mkEncoder [of_rows [[7; 9]%Q]] tt;
     queue := of_rows [[1; 0]; [0; 1]]%Q; queue_ptr := 0 |}.

(** The rows of a matrix, each element in lowest terms. *)
Definition rows_of (t : Tensor Q) : list (list Q) :=
  map (fun i => map (fun j => Qred (at2 t i j)) (seq 0 (nth 1 (shape t) 0)))
      (seq 0 (nth 0 (shape t) 0)).

(** An encoder with no parameters, whose forward pass returns its
    input. *)
Definition bare_encoder : Encoder R unit := mkEncoder [] tt.

Definition identity_call (x : Tensor R) : M (Encoder R unit) (Tensor R) :=
  fun e => (inr x, e).

(** A queue of [capacity] columns of one component, all ones. *)
Definition small_moco (capacity ptr : nat) (t : R) : MoCo R unit :=
  {| K := capacity; m := lit (999 # 1000); T := t;
     encoder_q := bare_encoder; encoder_k := bare_encoder;
     queue := ones [1; capacity]; queue_ptr := ptr |}.

(** An object whose encoders hold one parameter of two elements. *)
Definition one_param_moco (c : R) : MoCo R unit :=
  {| K := 1; m := c; T := 1%R;
     encoder_q := mkEncoder [of_rows [[3; 5]%R]] tt;
     encoder_k := mkEncoder [of_rows [[7; 9]%R]] tt;
     queue := ones [1; 1]; queue_ptr := 0 |}.

(** The draw that reverses the batch. *)
Definition reversing (n : nat) : list nat := rev (seq 0 n).

(** Encoder factories without parameters.  The first builds one layer
    with [norm_layer(1)] and records its split factor; the second
    builds its layer with [norm_layer(1, num_splits=4)]; the third
    builds none and records 16. *)
Definition probing_factory (d : nat) (nl : NormLayer (F := R)) : M unit (Encoder R nat) :=
  match nl 1 (mkNormCall 0 None no_kw) with
  | inr l => ret (mkEncoder [] (num_splits l))
  | inl e => raise e
  end.

Definition overriding_factory (d : nat) (nl : NormLayer (F := R)) : M unit (Encoder R nat) :=
  match nl 1 (mkNormCall 0 (Some 4) no_kw) with
  | inr l => ret (mkEncoder [] (num_splits l))
  | inl e => raise e
  end.

Definition constant_factory (d : nat) (nl : NormLayer (F := R)) : M unit (Encoder R nat) :=
  ret (mkEncoder [] 16).

(** A generator whose draws are all ones, and constructor hooks that
    leave the encoder as it is. *)
Definition randn_ones (s : list nat) : M unit (Tensor R) := ret (ones s).

Definition keep_conv1 {Rest : Type} (c : nat) (e : Encoder R Rest) : M unit (Encoder R Rest) :=
  ret e.

Definition keep_fc {Rest : Type} (e : Encoder R Rest) : M unit (Encoder R Rest) := ret e.

(** A generator whose draws have ones in column 0 and zeros in the
    other columns. *)
Definition first_column (s : list nat) : Tensor R :=
  {| shape := s; data := fun idx => if hd 0 (tl idx) =? 0 then 1%R else 0%R |}.

Definition randn_first_column (s : list nat) : M unit (Tensor R) :=
  ret (first_column s).

(** A generator whose draws are all zeros. *)
Definition randn_zeros (s : list nat) : M unit (Tensor R) :=
  ret {| shape := s; data := fun _ => 0%R |}.

(** A batch of two samples of one channel and one pixel: 1 and 3. *)
Definition two_samples : Tensor R :=
  {| shape := [2; 1; 1; 1];
     data := fun idx => if hd 0 idx =? 0 then 1%R else 3%R |}.

(** A fresh layer of one channel put in inference mode, and the same
    with [track_running_stats] then set to [False]. *)
Definition eval_layer (splits : nat) : SplitBatchNorm R :=
  set_training false (SplitBatchNorm_init 1 splits no_kw).

Definition untracked_eval_layer (splits : nat) : SplitBatchNorm R :=
  set_track_running_stats false (eval_layer splits).

(** An encoder factory whose encoders hold one parameter of [d]
    elements. *)
Definition one_param_factory (d : nat) (nl : NormLayer (F := R)) : M unit (Encoder R nat) :=
  ret (mkEncoder [ones [d]] 16).

(** A batch of [n] samples of one channel and one pixel: 0, 1, ... *)
Definition samples (n : nat) : Tensor R :=
  {| shape := [n; 1; 1; 1]; data := fun idx => INR (hd 0 idx) |}.

(** A process group of two processes that hold the same tensor. *)
Definition two_processes : result nat := inr 2.

Definition same_on_all_ranks (slots : list (Tensor R)) (t : Tensor R)
  : result (list (Tensor R)) :=
  inr (map (fun _ => t) slots).

(** * Properties *)

(** ** The monad, indices and broadcasting *)

Lemma bind_congr {S A B : Type} (c c' : M S A) (f f' : A -> M S B) (s : S) :
  c s = c' s -> (forall a s', f a s' = f' a s') -> bind c f s = bind c' f' s.
Proof.
  intros Hc Hf. unfold bind. rewrite Hc.
  destruct (c' s) as [[e|a] s']; [reflexivity|apply Hf].
Qed.

Lemma in_range_length (idx s : list nat) : in_range idx s -> length idx = length s.
Proof. intros H; induction H; simpl; congruence. Qed.

Lemma in_range_2 (i j n c : nat) : i < n -> j < c -> in_range [i; j] [n; c].
Proof. intros; repeat constructor; assumption. Qed.

Lemma forallb2_refl_eqb (s : list nat) :
  forallb2 (fun a b => (a =? b) || (a =? 1)) s s = true.
Proof.
  induction s as [|a s IH]; simpl; [reflexivity|].
  now rewrite Nat.eqb_refl, IH.
Qed.

Lemma expandable_refl (s : list nat) : expandable s s = true.
Proof.
  unfold expandable. rewrite Nat.sub_diag. simpl.
  apply forallb2_refl_eqb.
Qed.

Lemma map2_in_range (s idx : list nat) :
  in_range idx s -> map2 (fun size i => if size =? 1 then 0 else i) s idx = idx.
Proof.
  intros H; induction H as [|i n idx s Hi _ IH]; simpl; [reflexivity|].
  rewrite IH. destruct (Nat.eqb_spec n 1); [f_equal; lia|reflexivity].
Qed.

Lemma expand_index_in_range (s idx : list nat) :
  in_range idx s -> expand_index s idx = idx.
Proof.
  intros H. unfold expand_index.
  rewrite (in_range_length H), Nat.sub_diag. simpl.
  now apply map2_in_range.
Qed.

(** ** The queue *)

Section QueueProperties.
Context {F : Type} {SF : Scalar F}.
Variable Rest : Type.
Implicit Types (st : MoCo F Rest) (keys : Tensor F).

Lemma py_mod_pos (a b : nat) : 0 < b -> py_mod a b = inr (a mod b).
Proof.
  intros Hb. unfold py_mod.
  destruct (Nat.eqb_spec b 0); [lia|reflexivity].
Qed.

(** The assignment [queue[:, ptr:ptr+B] = keys.T] when the slice lies
    within the queue. *)
Lemma setitem_cols_fits (q keys : Tensor F) (D Kq B ptr : nat) :
  shape q = [D; Kq] -> shape keys = [B; D] -> ptr + B <= Kq ->
  exists q',
    setitem_cols q ptr (ptr + B) (transpose keys) = inr q' /\
    shape q' = [D; Kq] /\
    (forall d j, d < D -> j < B -> at2 q' d (ptr + j) = at2 keys j d) /\
    (forall d c, c < ptr \/ ptr + B <= c -> at2 q' d c = at2 q d c).
Proof.
  intros Hq Hk Hfit. unfold setitem_cols. rewrite Hq.
  replace (Nat.min ptr Kq) with ptr by lia.
  replace (Nat.max ptr (Nat.min (ptr + B) Kq)) with (ptr + B) by lia.
  replace (ptr + B - ptr) with B by lia.
  assert (Hs : shape (transpose keys) = [D; B]) by (simpl; now rewrite Hk).
  rewrite Hs, expandable_refl.
  eexists; split; [reflexivity|]. split; [reflexivity|]. split.
  - intros d j Hd Hj. unfold at2; cbn [data].
    assert (E1 : (ptr <=? ptr + j) = true) by (apply Nat.leb_le; lia).
    assert (E2 : (ptr + j <? ptr + B) = true) by (apply Nat.ltb_lt; lia).
    rewrite E1, E2; cbn [andb].
    rewrite expand_index_in_range by (apply in_range_2; lia).
    unfold transpose; cbn [data rev app].
    now replace (ptr + j - ptr) with j by lia.
  - intros d c Hc. unfold at2; cbn [data].
    destruct Hc as [Hc|Hc].
    + assert (E : (ptr <=? c) = false) by (apply Nat.leb_gt; lia).
      now rewrite E.
    + assert (E : (c <? ptr + B) = false) by (apply Nat.ltb_ge; lia).
      now rewrite E, andb_false_r.
Qed.

(** The assignment when the slice runs past the end of the queue: the
    clamped view is narrower than the batch, and the keys do not expand
    to it. *)
Lemma setitem_cols_overrun (q keys : Tensor F) (D Kq B ptr : nat) :
  shape q = [D; Kq] -> shape keys = [B; D] -> ptr < Kq -> Kq < ptr + B ->
  setitem_cols q ptr (ptr + B) (transpose keys) = inl RuntimeError.
Proof.
  intros Hq Hk Hp Hover. unfold setitem_cols. rewrite Hq.
  replace (Nat.min ptr Kq) with ptr by lia.
  replace (Nat.max ptr (Nat.min (ptr + B) Kq)) with Kq by lia.
  assert (Hs : shape (transpose keys) = [D; B]) by (simpl; now rewrite Hk).
  rewrite Hs. unfold expandable; simpl.
  destruct (Nat.eqb_spec B (Kq - ptr)); [lia|].
  destruct (Nat.eqb_spec B 1); [lia|].
  now rewrite andb_false_r.
Qed.

(** The enqueue when the columns to write lie within the queue. *)
Lemma enqueue_fits st keys (B D : nat) :
  shape keys = [B; D] ->
  shape (queue st) = [D; K st] ->
  Nat.divide B (K st) ->
  queue_ptr st < K st ->
  queue_ptr st + B <= K st ->
  exists st',
    _dequeue_and_enqueue_single_gpu keys st = (inr tt, st') /\
    shape (queue st') = [D; K st] /\
    (forall d j, d < D -> j < B ->
       at2 (queue st') d (queue_ptr st + j) = at2 keys j d) /\
    (forall d c, c < queue_ptr st \/ queue_ptr st + B <= c ->
       at2 (queue st') d c = at2 (queue st) d c) /\
    queue_ptr st' = (queue_ptr st + B) mod K st /\
    queue_ptr st' < K st /\
    K st' = K st /\ m st' = m st /\ T st' = T st /\
    encoder_q st' = encoder_q st /\ encoder_k st' = encoder_k st.
Proof.
  intros Hk Hq [c Hdiv] Hptr Hfit.
  assert (HB : 0 < B) by (destruct B; [lia|lia]).
  destruct (setitem_cols_fits (queue st) keys (queue_ptr st) Hq Hk Hfit)
    as (q' & Hset & Hshape & Hnew & Hold).
  unfold _dequeue_and_enqueue_single_gpu, bind, lift, gets, modify, shape0.
  rewrite Hk, (py_mod_pos _ HB).
  assert (E : (K st mod B =? 0) = true).
  { apply Nat.eqb_eq. rewrite Hdiv. apply Nat.Div0.mod_mul. }
  rewrite E; simpl. rewrite Hset, py_mod_pos by lia.
  eexists; split; [reflexivity|]. simpl.
  repeat split; try assumption.
  apply Nat.mod_upper_bound; lia.
Qed.

(** C3, as amended: when [B] divides [K], [0 <= ptr < K] and the [B]
    columns from [ptr] lie within the queue ([ptr + B <= K]), the
    enqueue returns; afterwards the [B] columns from the prior [ptr] are
    the keys transposed, every other column is unchanged, the new [ptr]
    is [(ptr + B) mod K], again below [K], and nothing else of the
    object is written. *)
Theorem enqueue_writes_columns st keys (B D : nat) :
  shape keys = [B; D] ->
  shape (queue st) = [D; K st] ->
  Nat.divide B (K st) ->
  queue_ptr st < K st ->
  queue_ptr st + B <= K st ->
  exists st',
    _dequeue_and_enqueue_single_gpu keys st = (inr tt, st') /\
    shape (queue st') = [D; K st] /\
    (forall d j, d < D -> j < B ->
       at2 (queue st') d (queue_ptr st + j) = at2 keys j d) /\
    (forall d c, c < queue_ptr st \/ queue_ptr st + B <= c ->
       at2 (queue st') d c = at2 (queue st) d c) /\
    queue_ptr st' = (queue_ptr st + B) mod K st /\
    queue_ptr st' < K st /\
    K st' = K st /\ m st' = m st /\ T st' = T st /\
    encoder_q st' = encoder_q st /\ encoder_k st' = encoder_k st.
Proof. apply enqueue_fits. Qed.

(** The enqueue of a batch whose size does not divide [K]. *)
Lemma enqueue_indivisible st keys (B : nat) (s : list nat) :
  shape keys = B :: s ->
  ~ Nat.divide B (K st) ->
  _dequeue_and_enqueue_single_gpu keys st =
    (inl (if B =? 0 then ZeroDivisionError else AssertionError), st).
Proof.
  intros Hk Hndiv.
  unfold _dequeue_and_enqueue_single_gpu, bind, lift, gets, shape0, py_mod.
  rewrite Hk. destruct (Nat.eqb_spec B 0) as [HB|HB]; [reflexivity|].
  destruct (Nat.eqb_spec (K st mod B) 0) as [E|E]; [|reflexivity].
  exfalso. apply Hndiv. apply Nat.Lcm0.mod_divide. exact E.
Qed.

(** C7: a batch size that does not divide [K] makes the enqueue raise,
    before anything is written: [AssertionError] from the [assert], or
    [ZeroDivisionError] from [K % 0] for an empty batch. *)
Theorem enqueue_rejects_indivisible st keys (B : nat) (s : list nat) :
  shape keys = B :: s ->
  ~ Nat.divide B (K st) ->
  _dequeue_and_enqueue_single_gpu keys st =
    (inl (if B =? 0 then ZeroDivisionError else AssertionError), st).
Proof. apply enqueue_indivisible. Qed.

(** With one batch size throughout, [ptr] stays a multiple of it, and
    the columns written always lie within the queue. *)
Lemma aligned_ptr_fits (B Kq ptr : nat) :
  Nat.divide B Kq -> Nat.divide B ptr -> ptr < Kq ->
  ptr + B <= Kq /\ Nat.divide B ((ptr + B) mod Kq).
Proof.
  intros [a Ha] [b Hb] Hlt. subst.
  assert (b < a) by nia.
  split; [nia|].
  destruct (Nat.eq_dec (b + 1) a) as [E|E].
  - replace (b * B + B) with (a * B) by nia.
    rewrite Nat.Div0.mod_same. apply Nat.divide_0_r.
  - rewrite Nat.mod_small by nia. exists (b + 1). nia.
Qed.

End QueueProperties.

(** ** The momentum update *)

Section MomentumProperties.
Context {F : Type} {SF : Scalar F}.
Variable Rest : Type.
Implicit Types (st : MoCo F Rest) (q k : Tensor F).

Lemma broadcast_aligned_same (s : list nat) : broadcast_aligned s s = inr s.
Proof.
  induction s as [|x s IH]; simpl; [reflexivity|].
  now rewrite IH, Nat.eqb_refl.
Qed.

Lemma broadcast_shapes_same (s : list nat) : broadcast_shapes s s = inr s.
Proof.
  unfold broadcast_shapes. rewrite Nat.max_id, Nat.sub_diag. simpl.
  apply broadcast_aligned_same.
Qed.

Lemma momentum_step (c : F) q k :
  shape q = shape k ->
  exists k', tensor_add (scale k c) (scale q (sub one c)) = inr k' /\
             momentum_rule c q k k'.
Proof.
  intros Hs. unfold tensor_add. cbn [shape scale]. rewrite Hs, broadcast_shapes_same.
  eexists; split; [reflexivity|]. split; [reflexivity|].
  intros idx Hidx. cbn [data scale shape].
  now rewrite expand_index_in_range.
Qed.

Lemma momentum_zip_same_shapes (c : F) (ps_q ps_k : list (Tensor F)) :
  Forall2 (fun q k => shape q = shape k) ps_q ps_k ->
  exists ps_k',
    momentum_zip c ps_q ps_k = (inr tt, ps_k') /\
    Forall2 (fun qk k' => momentum_rule c (fst qk) (snd qk) k')
            (combine ps_q ps_k) ps_k'.
Proof.
  intros H; induction H as [|q k qs ks Hqk _ (ks' & Hz & IH)]; simpl.
  - exists []; split; [reflexivity|constructor].
  - destruct (@momentum_step c q k Hqk) as (k' & Hadd & Hrule).
    rewrite Hadd, Hz. exists (k' :: ks'); split; [reflexivity|].
    constructor; assumption.
Qed.

(** C4: with the two parameter lists alike in number and shapes, one
    momentum update returns; every new key parameter is
    [m * k_old + (1 - m) * q], element by element; with [m = 0] it is
    [q]; the query encoder, and everything else but the key
    parameters, is as before.  Arithmetic is exact ([ExactScalar]). *)
Theorem momentum_update_rule st :
  ExactScalar SF ->
  Forall2 (fun q k => shape q = shape k)
          (parameters (encoder_q st)) (parameters (encoder_k st)) ->
  exists ps_k',
    _momentum_update_key_encoder st =
      (inr tt, set_encoder_k (set_parameters ps_k' (encoder_k st)) st) /\
    encoder_q (set_encoder_k (set_parameters ps_k' (encoder_k st)) st) = encoder_q st /\
    Forall2 (fun qk k' =>
               shape k' = shape (snd qk) /\
               forall idx, in_range idx (shape (snd qk)) ->
                 data k' idx = add (mul (m st) (data (snd qk) idx))
                                   (mul (sub one (m st)) (data (fst qk) idx)) /\
                 (m st = zero -> data k' idx = data (fst qk) idx))
            (combine (parameters (encoder_q st)) (parameters (encoder_k st))) ps_k'.
Proof.
  intros HE Hshapes.
  destruct (@momentum_zip_same_shapes (m st) _ _ Hshapes) as (ps_k' & Hz & Hall).
  exists ps_k'. unfold _momentum_update_key_encoder. rewrite Hz.
  split; [reflexivity|]. split; [reflexivity|].
  eapply Forall2_impl; [|exact Hall].
  intros [q k] k' [Hs Hd]; simpl in *. split; [exact Hs|].
  intros idx Hidx. rewrite (Hd idx Hidx). split.
  - now rewrite (mul_comm HE (data k idx)), (mul_comm HE (data q idx)).
  - intros Hm. rewrite Hm.
    now rewrite (mul_zero_r HE), (sub_zero_r HE), (mul_one_r HE), (add_zero_l HE).
Qed.

End MomentumProperties.

(** ** Shuffle and unshuffle *)

Section ArgsortProperties.

Lemma insert_by_key_perm (p : nat * nat) (l : list (nat * nat)) :
  Permutation (insert_by_key p l) (p :: l).
Proof.
  induction l as [|h t IH]; simpl; [reflexivity|].
  destruct (fst p <=? fst h); [reflexivity|].
  rewrite IH. apply perm_swap.
Qed.

Lemma sort_by_key_perm (l : list (nat * nat)) : Permutation (sort_by_key l) l.
Proof.
  induction l as [|p l IH]; simpl; [reflexivity|].
  rewrite insert_by_key_perm. now constructor.
Qed.

Lemma insert_by_key_sorted (p : nat * nat) (l : list (nat * nat)) :
  StronglySorted key_le l -> StronglySorted key_le (insert_by_key p l).
Proof.
  induction 1 as [|h t Ht IH Hh]; simpl.
  - repeat constructor.
  - destruct (Nat.leb_spec (fst p) (fst h)) as [Hle|Hgt].
    + constructor; [constructor; assumption|].
      constructor; [exact Hle|].
      eapply Forall_impl; [|exact Hh]. unfold key_le; intros; lia.
    + constructor; [exact IH|].
      eapply Permutation_Forall; [symmetry; apply insert_by_key_perm|].
      constructor; [unfold key_le; lia|exact Hh].
Qed.

Lemma sort_by_key_sorted (l : list (nat * nat)) : StronglySorted key_le (sort_by_key l).
Proof.
  induction l as [|p l IH]; simpl; [constructor|].
  now apply insert_by_key_sorted.
Qed.

Lemma sorted_map_fst (l : list (nat * nat)) :
  StronglySorted key_le l -> StronglySorted le (map fst l).
Proof.
  induction 1 as [|h t _ IH Hh]; simpl; constructor; [exact IH|].
  apply Forall_map. exact Hh.
Qed.

(** A sorted arrangement of [a, a+1, ..., a+n-1] is that list. *)
Lemma sorted_perm_seq (n a : nat) (l : list nat) :
  StronglySorted le l -> Permutation l (seq a n) -> l = seq a n.
Proof.
  revert a l; induction n as [|n IH]; intros a l Hs Hp; simpl in *.
  - apply Permutation_sym in Hp. now apply Permutation_nil in Hp.
  - destruct l as [|x l].
    { apply Permutation_nil in Hp. discriminate. }
    inversion Hs as [|? ? Hs' Hall]; subst.
    assert (Hx : x = a).
    { assert (Ha : In a (x :: l)).
      { eapply Permutation_in; [symmetry; exact Hp|now left]. }
      assert (Hx : In x (a :: seq (S a) n)).
      { eapply Permutation_in; [exact Hp|now left]. }
      destruct Ha as [Ha|Ha]; [now symmetry|].
      rewrite Forall_forall in Hall. specialize (Hall a Ha).
      destruct Hx as [Hx|Hx]; [now symmetry|].
      apply in_seq in Hx. lia. }
    subst x. f_equal. apply IH; [exact Hs'|].
    eapply Permutation_cons_inv; exact Hp.
Qed.

Lemma map_fst_combine_seq (p : list nat) :
  map fst (combine p (seq 0 (length p))) = p.
Proof.
  generalize 0. induction p as [|x p IH]; intros a; simpl; [reflexivity|].
  now rewrite IH.
Qed.

Lemma in_combine_seq (p : list nat) (v i : nat) :
  In (v, i) (combine p (seq 0 (length p))) -> i < length p /\ nth i p 0 = v.
Proof.
  intros H. apply In_nth with (d := (0, 0)) in H.
  destruct H as (j & Hj & Hn).
  rewrite length_combine, length_seq, Nat.min_id in Hj.
  rewrite combine_nth in Hn by now rewrite length_seq.
  rewrite seq_nth in Hn by exact Hj. simpl in Hn.
  inversion Hn; subst. split; [exact Hj|apply nth_indep; exact Hj].
Qed.

Lemma argsort_length (p : list nat) : length (argsort p) = length p.
Proof.
  unfold argsort. rewrite length_map.
  rewrite (Permutation_length (sort_by_key_perm _)).
  now rewrite length_combine, length_seq, Nat.min_id.
Qed.

Lemma argsort_in_bounds (p : list nat) (i : nat) :
  In i (argsort p) -> i < length p.
Proof.
  unfold argsort. intros H. apply in_map_iff in H.
  destruct H as ([v j] & Hj & Hin). simpl in Hj; subst j.
  apply (Permutation_in _ (sort_by_key_perm _)) in Hin.
  now apply in_combine_seq in Hin.
Qed.

Example argsort_of_a_rotation : argsort [2; 0; 1] = [1; 2; 0].
Proof. reflexivity. Qed.

(** [argsort] of a permutation is its inverse. *)
Lemma argsort_inverse (p : list nat) (n j : nat) :
  Permutation p (seq 0 n) -> j < n -> nth (nth j (argsort p) 0) p 0 = j.
Proof.
  intros Hp Hj.
  assert (Hlen : length p = n).
  { rewrite (Permutation_length Hp). apply length_seq. }
  set (L := sort_by_key (combine p (seq 0 (length p)))).
  assert (Hfst : map fst L = seq 0 n).
  { apply sorted_perm_seq.
    - apply sorted_map_fst, sort_by_key_sorted.
    - apply Permutation_trans with (map fst (combine p (seq 0 (length p)))).
      + apply Permutation_map, sort_by_key_perm.
      + rewrite map_fst_combine_seq. exact Hp. }
  assert (HL : length L = n).
  { rewrite <- (length_map fst L), Hfst. apply length_seq. }
  assert (Hin : In (nth j L (0, 0)) (combine p (seq 0 (length p)))).
  { apply (Permutation_in _ (sort_by_key_perm _)). apply nth_In.
    change (j < length L). rewrite HL. exact Hj. }
  assert (Hvj : fst (nth j L (0, 0)) = j).
  { rewrite <- (map_nth fst L (0, 0) j), Hfst. simpl. now rewrite seq_nth. }
  assert (Hsnd : nth j (argsort p) 0 = snd (nth j L (0, 0))).
  { unfold argsort. fold L. now rewrite <- (map_nth snd L (0, 0) j). }
  rewrite Hsnd.
  destruct (nth j L (0, 0)) as [v i]. simpl in *.
  apply in_combine_seq in Hin. destruct Hin as [_ Hv]. congruence.
Qed.

End ArgsortProperties.

Section ShuffleProperties.
Context {F : Type}.
Implicit Types (x : Tensor F).

Lemma index_select0_ok x (n : nat) (rest idx : list nat) :
  shape x = n :: rest ->
  (forall i, In i idx -> i < n) ->
  index_select0 x idx =
    inr {| shape := length idx :: rest;
           data := fun ix => match ix with
                             | i :: r => data x (nth i idx 0 :: r)
                             | [] => data x []
                             end |}.
Proof.
  intros Hs Hb. unfold index_select0. rewrite Hs.
  assert (E : forallb (fun i => i <? n) idx = true).
  { apply forallb_forall. intros i Hi. apply Nat.ltb_lt. now apply Hb. }
  now rewrite E.
Qed.

(** C5: whatever permutation [randperm] draws, shuffling a batch and
    unshuffling the result with the index that the shuffle returned
    both return, and give back the batch: same shape, same elements. *)
Theorem unshuffle_shuffle (randperm : nat -> list nat) x (n : nat) (rest : list nat) :
  shape x = n :: rest ->
  Permutation (randperm n) (seq 0 n) ->
  exists x' idx_unshuffle x'',
    _batch_shuffle_single_gpu randperm x = inr (x', idx_unshuffle) /\
    _batch_unshuffle_single_gpu x' idx_unshuffle = inr x'' /\
    tensor_eq x'' x.
Proof.
  intros Hs Hp.
  assert (Hlen : length (randperm n) = n).
  { rewrite (Permutation_length Hp). apply length_seq. }
  assert (Hb : forall i, In i (randperm n) -> i < n).
  { intros i Hi. apply (Permutation_in _ Hp) in Hi. apply in_seq in Hi. lia. }
  unfold _batch_shuffle_single_gpu, _batch_unshuffle_single_gpu, shape0.
  rewrite Hs. rewrite (index_select0_ok x (randperm n) Hs Hb).
  eexists _, _, _. split; [reflexivity|].
  erewrite index_select0_ok.
  - split; [reflexivity|]. split.
    + simpl. now rewrite argsort_length, Hlen, Hs.
    + simpl. rewrite argsort_length, Hlen.
      intros idx Hidx. inversion Hidx as [|i k r s Hi Hr]; subst.
      now rewrite (argsort_inverse Hp Hi).
  - simpl. reflexivity.
  - intros i Hi. now apply argsort_in_bounds.
Qed.

End ShuffleProperties.

(** ** The forward pass *)

Section ForwardProperties.
Context {F : Type} {SF : Scalar F}.
Variable Rest : Type.
Variable encoder_call : Tensor F -> M (Encoder F Rest) (Tensor F).
Variable normalize : Tensor F -> nat -> result (Tensor F).
Implicit Types (st : MoCo F Rest) (q k : Tensor F).

Lemma fold_left_add_ext (f g : nat -> F) (l : list nat) (acc : F) :
  (forall j, In j l -> f j = g j) ->
  fold_left (fun a j => add a (f j)) l acc = fold_left (fun a j => add a (g j)) l acc.
Proof.
  revert acc; induction l as [|x l IH]; intros acc H; simpl; [reflexivity|].
  rewrite (H x) by now left. apply IH. intros j Hj. apply H. now right.
Qed.

Lemma sum_upto_ext (n : nat) (f g : nat -> F) :
  (forall j, j < n -> f j = g j) -> sum_upto n f = sum_upto n g.
Proof.
  intros H. unfold sum_upto. apply fold_left_add_ext.
  intros j Hj. apply in_seq in Hj. apply H. lia.
Qed.

Lemma bidx_in_range (size i : nat) : i < size -> bidx size i = i.
Proof.
  intros H. unfold bidx. destruct (Nat.eqb_spec size 1); [lia|reflexivity].
Qed.

Lemma einsum_dim_same (n : nat) : einsum_dim n n = inr n.
Proof. unfold einsum_dim. now rewrite Nat.eqb_refl. Qed.

(** Lines 165-176 on features and a queue of matching shapes. *)
Lemma contrast_run st q k (N C : nat) :
  shape q = [N; C] -> shape k = [N; C] -> shape (queue st) = [C; K st] ->
  exists logits,
    contrast q k st = (inr logits, st) /\
    shape logits = [N; 1 + K st] /\
    (forall i, i < N -> at2 logits i 0 = div (dot_rows q k C i) (T st)) /\
    (forall i l, i < N -> l < K st ->
       at2 logits i (1 + l) = div (dot_row_col q (queue st) C i l) (T st)).
Proof.
  intros Hq Hk HQ.
  unfold contrast, bind, lift, gets, ret, einsum_nc_nc_n, einsum_nc_ck_nk, cat_dim1.
  rewrite Hq, Hk, HQ, !einsum_dim_same. cbn [shape unsqueeze_last app].
  rewrite Nat.eqb_refl.
  eexists; split; [reflexivity|]. split; [reflexivity|]. split.
  - intros i Hi. unfold at2 at 1. cbn [data div_scalar hd tl removelast].
    cbn [Nat.ltb Nat.leb]. unfold at2 at 1. cbn [data unsqueeze_last removelast hd].
    f_equal. apply sum_upto_ext. intros j Hj.
    now rewrite !(bidx_in_range Hi), !(bidx_in_range Hj).
  - intros i l Hi Hl. unfold at2 at 1. cbn [data div_scalar hd tl].
    replace (1 + l <? 1) with false by (symmetry; apply Nat.ltb_ge; lia).
    unfold at2 at 1. cbn [data hd tl]. replace (1 + l - 1) with l by lia.
    f_equal. apply sum_upto_ext. intros j Hj.
    now rewrite !(bidx_in_range Hj).
Qed.

(** The feature computations write the two encoders and nothing else. *)
Lemma query_features_frame (im_q : Tensor F) st (r : result (Tensor F)) st1 :
  query_features encoder_call normalize im_q st = (r, st1) ->
  exists e, st1 = set_encoder_q e st.
Proof.
  unfold query_features, bind, on_encoder_q, lift.
  destruct (encoder_call im_q (encoder_q st)) as [[e|q] enc]; intros H;
    inversion H; subst; now eexists.
Qed.

Lemma key_features_frame (rng : nat -> list nat) (im_k : Tensor F) st
  (r : result (Tensor F)) st2 :
  key_features encoder_call normalize rng im_k st = (r, st2) ->
  exists e, st2 = set_encoder_k e st.
Proof.
  unfold key_features, bind, _momentum_update_key_encoder, on_encoder_k, lift.
  destruct (momentum_zip _ _ _) as [[e|[]] ps]; intros H.
  - inversion H; subst; now eexists.
  - destruct (_batch_shuffle_single_gpu rng im_k) as [e|sh].
    + inversion H; subst; now eexists.
    + cbn [encoder_k set_encoder_k] in H.
      destruct (encoder_call (fst sh) _) as [[e|k0] enc].
      * inversion H; subst. now exists enc.
      * destruct (normalize k0 1); inversion H; subst; now exists enc.
Qed.

(** One forward call whose features come out as [N] rows of [C]
    components, on a queue of [K] columns of [C] components into which
    the [N] columns from [ptr] fit. *)
Lemma forward_run (rng : nat -> list nat) (im_q im_k : Tensor F) st q st1 k st2 (N C : nat) :
  query_features encoder_call normalize im_q st = (inr q, st1) ->
  key_features encoder_call normalize rng im_k st1 = (inr k, st2) ->
  shape q = [N; C] -> shape k = [N; C] ->
  shape (queue st) = [C; K st] ->
  Nat.divide N (K st) -> queue_ptr st < K st -> queue_ptr st + N <= K st ->
  exists logits st',
    forward encoder_call normalize rng im_q im_k st = (inr (logits, repeat 0%Z N), st') /\
    shape logits = [N; 1 + K st] /\
    (forall i, i < N -> at2 logits i 0 = div (dot_rows q k C i) (T st)) /\
    (forall i l, i < N -> l < K st ->
       at2 logits i (1 + l) = div (dot_row_col q (queue st) C i l) (T st)) /\
    (forall d j, d < C -> j < N -> at2 (queue st') d (queue_ptr st + j) = at2 k j d) /\
    (forall d c, c < queue_ptr st \/ queue_ptr st + N <= c ->
       at2 (queue st') d c = at2 (queue st) d c) /\
    queue_ptr st' = (queue_ptr st + N) mod K st.
Proof.
  intros HQF HKF Hq Hk HQ Hdiv Hptr Hfit.
  destruct (query_features_frame _ _ HQF) as [e1 E1].
  destruct (key_features_frame _ _ _ HKF) as [e2 E2].
  assert (Hframe : queue st2 = queue st /\ K st2 = K st /\ T st2 = T st /\
                   queue_ptr st2 = queue_ptr st) by (subst; repeat split).
  destruct Hframe as (EQ & EK & ET & EP).
  destruct (@contrast_run st2 q k N C Hq Hk) as (logits & Hc & Hshape & Hpos & Hneg).
  { now rewrite EQ, EK. }
  destruct (@enqueue_fits F Rest st2 k N C Hk) as (st' & He & _ & Hnew & Hold & Hp' & _);
    try (rewrite ?EQ, ?EK, ?EP; assumption).
  exists logits, st'.
  unfold forward, bind. rewrite HQF, HKF, Hc. unfold lift, shape0.
  rewrite Hshape, He. unfold ret.
  rewrite EK, ET, EQ in *. rewrite EP in *.
  repeat split; assumption.
Qed.

(** C1, as amended: a forward call on [N] pairs returns labels that
    are [N] zeros and logits of shape [N x (1 + K)]; every entry is a
    similarity divided by [T]: column 0 of row [i] is
    [dot(q_i, k_i) / T], column [1 + l] is [dot(q_i, queue[:, l]) / T]. *)
Theorem forward_logits_and_labels (rng : nat -> list nat) (im_q im_k : Tensor F)
  st q st1 k st2 (N C : nat) :
  query_features encoder_call normalize im_q st = (inr q, st1) ->
  key_features encoder_call normalize rng im_k st1 = (inr k, st2) ->
  shape q = [N; C] -> shape k = [N; C] ->
  shape (queue st) = [C; K st] ->
  Nat.divide N (K st) -> queue_ptr st < K st -> queue_ptr st + N <= K st ->
  exists logits labels st',
    forward encoder_call normalize rng im_q im_k st = (inr (logits, labels), st') /\
    labels = repeat 0%Z N /\
    shape logits = [N; 1 + K st] /\
    (forall i, i < N -> at2 logits i 0 = div (dot_rows q k C i) (T st)) /\
    (forall i l, i < N -> l < K st ->
       at2 logits i (1 + l) = div (dot_row_col q (queue st) C i l) (T st)).
Proof.
  intros HQF HKF Hq Hk HQ Hdiv Hptr Hfit.
  edestruct forward_run as (logits & st' & Hf & Hs & Hpos & Hneg & _);
    [exact HQF|exact HKF|exact Hq|exact Hk|exact HQ|exact Hdiv|exact Hptr|exact Hfit|].
  exists logits, (repeat 0%Z N), st'. repeat split; assumption.
Qed.

(** C2: the negative block of the logits is computed from the queue
    of the object as the call found it; the keys of the batch are in
    the queue only afterwards, in the [N] columns from the prior
    [ptr]. *)
Theorem forward_scores_before_enqueue (rng : nat -> list nat) (im_q im_k : Tensor F)
  st q st1 k st2 (N C : nat) :
  query_features encoder_call normalize im_q st = (inr q, st1) ->
  key_features encoder_call normalize rng im_k st1 = (inr k, st2) ->
  shape q = [N; C] -> shape k = [N; C] ->
  shape (queue st) = [C; K st] ->
  Nat.divide N (K st) -> queue_ptr st < K st -> queue_ptr st + N <= K st ->
  exists logits labels st',
    forward encoder_call normalize rng im_q im_k st = (inr (logits, labels), st') /\
    (forall i l, i < N -> l < K st ->
       at2 logits i (1 + l) = div (dot_row_col q (queue st) C i l) (T st)) /\
    (forall d j, d < C -> j < N ->
       at2 (queue st') d (queue_ptr st + j) = at2 k j d) /\
    (forall d c, c < queue_ptr st \/ queue_ptr st + N <= c ->
       at2 (queue st') d c = at2 (queue st) d c).
Proof.
  intros HQF HKF Hq Hk HQ Hdiv Hptr Hfit.
  edestruct forward_run as (logits & st' & Hf & _ & _ & Hneg & Hnew & Hold & _);
    [exact HQF|exact HKF|exact Hq|exact Hk|exact HQ|exact Hdiv|exact Hptr|exact Hfit|].
  exists logits, (repeat 0%Z N), st'. repeat split; assumption.
Qed.

(** The scenario of the specification: [D = 128], [K = 256], a batch
    of 32, [ptr = 0].  The logits are 32 x 257, the labels 32 zeros,
    and [ptr] advances to 32. *)
Corollary end_to_end_scenario (rng : nat -> list nat) (im_q im_k : Tensor F)
  st q st1 k st2 :
  query_features encoder_call normalize im_q st = (inr q, st1) ->
  key_features encoder_call normalize rng im_k st1 = (inr k, st2) ->
  shape q = [32; 128] -> shape k = [32; 128] ->
  shape (queue st) = [128; 256] -> K st = 256 -> queue_ptr st = 0 ->
  exists logits st',
    forward encoder_call normalize rng im_q im_k st = (inr (logits, repeat 0%Z 32), st') /\
    shape logits = [32; 257] /\ queue_ptr st' = 32.
Proof.
  intros HQF HKF Hq Hk HQ HK Hptr.
  edestruct forward_run as (logits & st' & Hf & Hs & _ & _ & _ & _ & Hp);
    [exact HQF|exact HKF|exact Hq|exact Hk|rewrite HK; exact HQ| | | |].
  - rewrite HK. exists 8. reflexivity.
  - rewrite HK, Hptr. apply Nat.lt_0_succ.
  - rewrite HK, Hptr. apply Nat.leb_le. reflexivity.
  - exists logits, st'. rewrite HK in Hs. rewrite HK, Hptr in Hp.
    repeat split; assumption.
Qed.

(** Scoring does not write the object. *)
Lemma contrast_state q k st : snd (contrast q k st) = st.
Proof.
  unfold contrast, bind, lift, gets, ret.
  destruct (einsum_nc_nc_n q k) as [e|l_pos]; [reflexivity|].
  destruct (einsum_nc_ck_nk q (queue st)) as [e|l_neg]; [reflexivity|].
  now destruct (cat_dim1 _ _).
Qed.

(** The steps behind a forward call that returns, in their order: the
    features; the logits, from the queue the call found; the enqueue. *)
Lemma forward_returns (rng : nat -> list nat) (im_q im_k : Tensor F) st
  (logits : Tensor F) (labels : list Z) st' :
  forward encoder_call normalize rng im_q im_k st = (inr (logits, labels), st') ->
  exists q st1 k st2 n,
    query_features encoder_call normalize im_q st = (inr q, st1) /\
    key_features encoder_call normalize rng im_k st1 = (inr k, st2) /\
    queue st2 = queue st /\ queue_ptr st2 = queue_ptr st /\
    contrast q k st2 = (inr logits, st2) /\
    shape0 logits = inr n /\ labels = repeat 0%Z n /\
    _dequeue_and_enqueue_single_gpu k st2 = (inr tt, st').
Proof.
  unfold forward, bind at 1. intros H.
  destruct (query_features _ _ _ st) as [[e|q] st1] eqn:HQF; [discriminate|].
  unfold bind at 1 in H.
  destruct (key_features _ _ _ _ st1) as [[e|k] st2] eqn:HKF; [discriminate|].
  destruct (query_features_frame _ _ HQF) as [e1 E1].
  destruct (key_features_frame _ _ _ HKF) as [e2 E2].
  unfold bind at 1 in H. pose proof (contrast_state q k st2) as Hst.
  destruct (contrast q k st2) as [[e|lg] s3] eqn:Hc; [discriminate|].
  simpl in Hst; subst s3.
  unfold bind at 1, lift in H.
  destruct (shape0 lg) as [e|n] eqn:Hn; [discriminate|].
  unfold bind, ret in H.
  destruct (_dequeue_and_enqueue_single_gpu k st2) as [[e|[]] s4] eqn:He; [discriminate|].
  inversion H; subst.
  exists q, (set_encoder_q e1 st), k, (set_encoder_k e2 (set_encoder_q e1 st)), n.
  repeat split; assumption.
Qed.

(** A forward call whose batch size does not divide [K] raises, and
    leaves the queue and [ptr] as they were. *)
Lemma forward_indivisible (rng : nat -> list nat) (im_q im_k : Tensor F)
  st q st1 k st2 (B : nat) (s : list nat) :
  query_features encoder_call normalize im_q st = (inr q, st1) ->
  key_features encoder_call normalize rng im_k st1 = (inr k, st2) ->
  shape k = B :: s ->
  ~ Nat.divide B (K st) ->
  exists e,
    forward encoder_call normalize rng im_q im_k st = (inl e, st2) /\
    queue st2 = queue st /\ queue_ptr st2 = queue_ptr st.
Proof.
  intros HQF HKF Hk Hndiv.
  destruct (query_features_frame _ _ HQF) as [e1 E1].
  destruct (key_features_frame _ _ _ HKF) as [e2 E2].
  assert (EK : K st2 = K st) by (subst; reflexivity).
  unfold forward, bind at 1. rewrite HQF. unfold bind at 1. rewrite HKF.
  unfold bind at 1. pose proof (contrast_state q k st2) as Hst.
  destruct (contrast q k st2) as [[e|lg] s3]; simpl in Hst; subst s3.
  { exists e. subst; repeat split. }
  unfold bind at 1, lift.
  destruct (shape0 lg) as [e|n].
  { exists e. subst; repeat split. }
  unfold bind. rewrite (@enqueue_indivisible F Rest st2 k B s Hk) by now rewrite EK.
  eexists. subst; repeat split.
Qed.

End ForwardProperties.

(** ** The temperature *)

Section TemperatureProperties.
Context {F : Type} {SF : Scalar F}.
Variable Rest : Type.
Variable encoder_call : Tensor F -> M (Encoder F Rest) (Tensor F).
Variable normalize : Tensor F -> nat -> result (Tensor F).
Variable Rng : Type.
Variable randn : list nat -> M Rng (Tensor F).
Variable base_encoder : nat -> NormLayer (F := F) -> M Rng (Encoder F Rest).
Variable replace_conv1 : nat -> Encoder F Rest -> M Rng (Encoder F Rest).
Variable add_mlp : Encoder F Rest -> M Rng (Encoder F Rest).
Implicit Types (st : MoCo F Rest) (q k : Tensor F).

Lemma T_blind_bind {A B : Type} (c : M (MoCo F Rest) A) (f : A -> M (MoCo F Rest) B) :
  T_blind c -> (forall a, T_blind (f a)) -> T_blind (bind c f).
Proof.
  intros Hc Hf st t. unfold bind. rewrite Hc.
  destruct (c st) as [[e|a] s']; simpl; [reflexivity|]. apply Hf.
Qed.

Lemma T_blind_lift {A : Type} (r : result A) :
  T_blind (F := F) (Rest := Rest) (lift r).
Proof. intros st t; reflexivity. Qed.

Lemma T_blind_on_encoder_q {A : Type} (c : M (Encoder F Rest) A) :
  T_blind (on_encoder_q c).
Proof.
  intros st t. unfold on_encoder_q. simpl.
  now destruct (c (encoder_q st)).
Qed.

Lemma T_blind_on_encoder_k {A : Type} (c : M (Encoder F Rest) A) :
  T_blind (on_encoder_k c).
Proof.
  intros st t. unfold on_encoder_k. simpl.
  now destruct (c (encoder_k st)).
Qed.

Lemma T_blind_momentum : T_blind (@_momentum_update_key_encoder F SF Rest).
Proof.
  intros st t. unfold _momentum_update_key_encoder. simpl.
  now destruct (momentum_zip _ _ _).
Qed.

Lemma T_blind_query_features (im_q : Tensor F) :
  T_blind (query_features encoder_call normalize im_q).
Proof.
  apply T_blind_bind; [apply T_blind_on_encoder_q|intros; apply T_blind_lift].
Qed.

Lemma T_blind_key_features (rng : nat -> list nat) (im_k : Tensor F) :
  T_blind (key_features encoder_call normalize rng im_k).
Proof.
  apply T_blind_bind; [apply T_blind_momentum|intros _].
  apply T_blind_bind; [apply T_blind_lift|intros sh].
  apply T_blind_bind; [apply T_blind_on_encoder_k|intros k0].
  apply T_blind_bind; intros; apply T_blind_lift.
Qed.

Lemma T_blind_enqueue (keys : Tensor F) :
  T_blind (@_dequeue_and_enqueue_single_gpu F Rest keys).
Proof.
  intros st t. unfold _dequeue_and_enqueue_single_gpu, bind, lift, gets, modify.
  destruct (shape0 keys) as [e|b]; [reflexivity|]. simpl.
  destruct (py_mod (K st) b) as [e|r]; [reflexivity|].
  unfold py_assert. destruct (r =? 0); [|reflexivity]. simpl.
  destruct (setitem_cols _ _ _ _) as [e|q']; [reflexivity|].
  destruct (py_mod _ _) as [e|p]; reflexivity.
Qed.

(** The logits with another temperature: the same exception or the
    same shape, and the object is not written. *)
Lemma contrast_any_T q k st (t : F) :
  snd (contrast q k (set_T t st)) = set_T t st /\
  snd (contrast q k st) = st /\
  match fst (contrast q k (set_T t st)), fst (contrast q k st) with
  | inr a, inr b => shape a = shape b
  | inl e, inl e' => e = e'
  | _, _ => False
  end.
Proof.
  unfold contrast, bind, lift, gets, ret. simpl.
  destruct (einsum_nc_nc_n q k) as [e|l_pos]; [now repeat split|].
  destruct (einsum_nc_ck_nk q (queue st)) as [e|l_neg]; [now repeat split|].
  destruct (cat_dim1 _ _) as [e|logits]; now repeat split.
Qed.

Lemma same_but_T_bind {A B : Type} (t : F) (c : M (MoCo F Rest) A)
  (f : A -> M (MoCo F Rest) B) st :
  T_blind c ->
  (forall a s, same_but_T t (f a (set_T t s)) (f a s)) ->
  same_but_T t (bind c f (set_T t st)) (bind c f st).
Proof.
  intros Hc Hf. unfold bind. rewrite Hc.
  destruct (c st) as [[e|a] s']; simpl; [now split|apply Hf].
Qed.

Lemma score_and_enqueue_any_T q k st (t : F) :
  same_but_T t
    (bind (contrast q k)
          (fun logits => bind (lift (shape0 logits))
             (fun n => bind (_dequeue_and_enqueue_single_gpu k)
                (fun _ => ret (logits, repeat 0%Z n)))) (set_T t st))
    (bind (contrast q k)
          (fun logits => bind (lift (shape0 logits))
             (fun n => bind (_dequeue_and_enqueue_single_gpu k)
                (fun _ => ret (logits, repeat 0%Z n)))) st).
Proof.
  unfold bind at 1 4.
  destruct (contrast_any_T q k st t) as (E1 & E2 & E3).
  destruct (contrast q k (set_T t st)) as [r1 s1].
  destruct (contrast q k st) as [r2 s2]. simpl in E1, E2, E3. subst s1 s2.
  destruct r1 as [e1|l1], r2 as [e2|l2]; try contradiction.
  { subst; now split. }
  unfold bind, lift, shape0. rewrite E3.
  destruct (shape l2) as [|n s]; [now split|].
  rewrite T_blind_enqueue.
  destruct (_dequeue_and_enqueue_single_gpu k st) as [[e|[]] st3]; now split.
Qed.

(** [forward] does not check [T]: with any other temperature the call
    raises the same exception or returns as well, and leaves the same
    object. *)
Lemma forward_any_T (rng : nat -> list nat) (im_q im_k : Tensor F) st (t : F) :
  raised (fst (forward encoder_call normalize rng im_q im_k (set_T t st))) =
    raised (fst (forward encoder_call normalize rng im_q im_k st)) /\
  snd (forward encoder_call normalize rng im_q im_k (set_T t st)) =
    set_T t (snd (forward encoder_call normalize rng im_q im_k st)).
Proof.
  change (same_but_T t (forward encoder_call normalize rng im_q im_k (set_T t st))
                       (forward encoder_call normalize rng im_q im_k st)).
  unfold forward.
  apply same_but_T_bind; [apply T_blind_query_features|intros q s1].
  apply same_but_T_bind; [apply T_blind_key_features|intros k s2].
  apply score_and_enqueue_any_T.
Qed.

(** [__init__] does not check [T] either: it stores it. *)
Lemma init_any_T (dim capacity : nat) (c t t' : F) (mlp : bool)
  (bands : String.string) (g : Rng) :
  MoCo_init randn base_encoder replace_conv1 add_mlp normalize
            dim capacity c t mlp bands g =
  (match fst (MoCo_init randn base_encoder replace_conv1 add_mlp normalize
                        dim capacity c t' mlp bands g) with
   | inl e => inl e
   | inr st => inr (set_T t st)
   end,
   snd (MoCo_init randn base_encoder replace_conv1 add_mlp normalize
                  dim capacity c t' mlp bands g)).
Proof.
  unfold MoCo_init, bind, lift, ret.
  repeat match goal with
         | |- context [match ?x with _ => _ end] =>
             destruct x; simpl; try reflexivity
         end.
Qed.

(** C8, as amended: a temperature [T <= 0] is not rejected; no value
    of [T] is.  Construction stores the [T] it is given, and a forward
    call raises or returns just as it does with any other [T]. *)
Theorem temperature_not_validated (rng : nat -> list nat) (im_q im_k : Tensor F)
  (dim capacity : nat) (c t t' : F) (mlp : bool) (bands : String.string) (g : Rng) st :
  MoCo_init randn base_encoder replace_conv1 add_mlp normalize
            dim capacity c t mlp bands g =
  (match fst (MoCo_init randn base_encoder replace_conv1 add_mlp normalize
                        dim capacity c t' mlp bands g) with
   | inl e => inl e
   | inr s => inr (set_T t s)
   end,
   snd (MoCo_init randn base_encoder replace_conv1 add_mlp normalize
                  dim capacity c t' mlp bands g)) /\
  raised (fst (forward encoder_call normalize rng im_q im_k (set_T t st))) =
    raised (fst (forward encoder_call normalize rng im_q im_k st)) /\
  snd (forward encoder_call normalize rng im_q im_k (set_T t st)) =
    set_T t (snd (forward encoder_call normalize rng im_q im_k st)).
Proof.
  split; [apply init_any_T|apply forward_any_T].
Qed.

End TemperatureProperties.

(** ** [SplitBatchNorm.forward] *)

Section BatchNormProperties.
Context {F : Type} {SF : Scalar F}.
Variable batch_norm :
  Tensor F -> option (Tensor F) -> option (Tensor F) ->
  option (Tensor F) -> option (Tensor F) -> bool -> option F -> F ->
  result (Tensor F * option (Tensor F) * option (Tensor F)).
Implicit Types (l : SplitBatchNorm F) (input : Tensor F).

Lemma set_running_same l :
  set_running_var (running_var l) (set_running_mean (running_mean l) l) = l.
Proof. now destruct l. Qed.

(** Which branch [forward] takes. *)
Lemma forward_branch input l (N C H W : nat) :
  shape input = [N; C; H; W] ->
  SplitBatchNorm_forward batch_norm input l =
    if training l || negb (track_running_stats l)
    then forward_split batch_norm input N C H W l
    else forward_plain batch_norm input l.
Proof.
  intros Hs. unfold SplitBatchNorm_forward. rewrite Hs.
  unfold bind, gets. now destruct (training l || negb (track_running_stats l)).
Qed.

(** C6, as amended: in inference mode with the tracking of running
    statistics enabled, the layer returns what [batch_norm] returns on
    the input as it is, with the layer's own running statistics and
    [training=False], and the layer is left as it was. *)
Theorem eval_is_plain_batch_norm input l (N C H W : nat) :
  eval_reads_only batch_norm ->
  shape input = [N; C; H; W] ->
  training l = false ->
  track_running_stats l = true ->
  SplitBatchNorm_forward batch_norm input l =
    (match batch_norm input (running_mean l) (running_var l) (weight l) (bias l)
                      false (momentum l) (eps l) with
     | inl e => inl e
     | inr r => inr (fst (fst r))
     end, l).
Proof.
  intros Hpure Hs Htr Htrack.
  rewrite (forward_branch input l Hs), Htr, Htrack. simpl.
  unfold forward_plain, bind, gets, lift, modify, ret.
  destruct (batch_norm _ _ _ _ _ _ _ _) as [e|r] eqn:E; [reflexivity|].
  destruct (Hpure _ _ _ _ _ _ _ _ E) as [E1 E2].
  rewrite E1, E2. now rewrite set_running_same.
Qed.

(** With the tracking disabled the layer takes the split branch, in
    inference mode too. *)
Lemma untracked_is_split input l (N C H W : nat) :
  shape input = [N; C; H; W] ->
  track_running_stats l = false ->
  SplitBatchNorm_forward batch_norm input l = forward_split batch_norm input N C H W l.
Proof.
  intros Hs Htrack. rewrite (forward_branch input l Hs), Htrack.
  now rewrite orb_true_r.
Qed.

End BatchNormProperties.

(** ** Construction *)

Section ConstructionProperties.
Context {F : Type} {SF : Scalar F}.
Variable Rest : Type.
Variable Rng : Type.
Variable randn : list nat -> M Rng (Tensor F).
Variable replace_conv1 : nat -> Encoder F Rest -> M Rng (Encoder F Rest).
Variable add_mlp : Encoder F Rest -> M Rng (Encoder F Rest).
Variable normalize : Tensor F -> nat -> result (Tensor F).

(** Called with the number of channels and [nn.BatchNorm2d] keywords
    only, [norm_layer] builds a layer of 16 splits. *)
Lemma norm_layer_splits (c : nat) (kw : BNKw F) :
  exists l, norm_layer c (mkNormCall 0 None kw) = inr l /\ num_splits l = 16.
Proof. eexists; split; reflexivity. Qed.

(** A [num_splits] keyword of the call wins over the 16 of the
    [partial]. *)
Lemma norm_layer_override (c s : nat) (kw : BNKw F) :
  exists l, norm_layer c (mkNormCall 0 (Some s) kw) = inr l /\ num_splits l = s.
Proof. eexists; split; reflexivity. Qed.

(** How construction gets its two encoders: two calls of the factory,
    each with [dim] and [norm_layer], then the replacement of [conv1]
    if [bands] selects one, then the MLP head if [mlp]. *)
Lemma init_encoders
  (factory : nat -> NormLayer (F := F) -> M Rng (Encoder F Rest))
  (dim capacity : nat) (c t : F) (mlp : bool) (bands : String.string)
  (g g' : Rng) (st : MoCo F Rest) :
  MoCo_init randn factory replace_conv1 add_mlp normalize dim capacity c t mlp bands g
    = (inr st, g') ->
  exists enc_q0 enc_k0 q1 k1 q2 k2 g1 g2 g3 g4,
    factory dim norm_layer g = (inr enc_q0, g1) /\
    factory dim norm_layer g1 = (inr enc_k0, g2) /\
    match band_channels bands with
    | Some ch => exists g0, replace_conv1 ch enc_q0 g2 = (inr q1, g0) /\
                            replace_conv1 ch enc_k0 g0 = (inr k1, g3)
    | None => q1 = enc_q0 /\ k1 = enc_k0 /\ g3 = g2
    end /\
    (if mlp
     then exists g0, add_mlp q1 g3 = (inr q2, g0) /\ add_mlp k1 g0 = (inr k2, g4)
     else q2 = q1 /\ k2 = k1 /\ g4 = g3) /\
    encoder_q st = q2 /\ modules (encoder_k st) = modules k2.
Proof.
  unfold MoCo_init, bind, lift, ret. intros H.
  repeat match type of H with
         | context [match ?x with _ => _ end] => destruct x eqn:?; try discriminate
         end.
  inversion H; subst; clear H.
  destruct p as [q1 k1], p0 as [q2 k2]. cbn [fst snd] in *.
  exists e, e0, q1, k1, q2, k2, r0, r2, r4, r6.
  split; [reflexivity|]. split; [assumption|]. split; [|split; [|split; reflexivity]].
  - destruct (band_channels bands) as [ch|].
    + destruct (replace_conv1 ch e r2) as [[x|a] s1] eqn:E1; [discriminate|].
      destruct (replace_conv1 ch e0 s1) as [[x|a0] s2] eqn:E2; [discriminate|].
      inversion Heqp1; subst. exists s1. split; [reflexivity|assumption].
    + inversion Heqp1; subst. repeat split.
  - destruct mlp.
    + destruct (add_mlp q1 r4) as [[x|a] s1] eqn:E1; [discriminate|].
      destruct (add_mlp k1 s1) as [[x|a0] s2] eqn:E2; [discriminate|].
      inversion Heqp2; subst. exists s1. split; [reflexivity|assumption].
    + inversion Heqp2; subst. repeat split.
Qed.

(** C9, as amended: whatever the configuration, construction gets
    both encoders from the factory called with [dim] and with
    [norm_layer], the [partial] whose layers have 16 splits by default,
    and it reads [norm_layer] nowhere else; 16 is no parameter of the
    constructor.  It is a default only: a factory that passes a
    [num_splits] keyword to [norm_layer] gets a layer of that many
    splits. *)
Theorem init_split_factor_is_16
  (factory : nat -> NormLayer (F := F) -> M Rng (Encoder F Rest))
  (dim capacity : nat) (c t : F) (mlp : bool) (bands : String.string)
  (g g' : Rng) (st : MoCo F Rest) :
  MoCo_init randn factory replace_conv1 add_mlp normalize dim capacity c t mlp bands g
    = (inr st, g') ->
  (forall ch kw, exists l,
     norm_layer (F := F) ch (mkNormCall 0 None kw) = inr l /\ num_splits l = 16) /\
  (forall ch s kw, exists l,
     norm_layer (F := F) ch (mkNormCall 0 (Some s) kw) = inr l /\ num_splits l = s) /\
  (exists enc_q0 enc_k0 q1 k1 q2 k2 g1 g2 g3 g4,
     factory dim norm_layer g = (inr enc_q0, g1) /\
     factory dim norm_layer g1 = (inr enc_k0, g2) /\
     match band_channels bands with
     | Some ch => exists g0, replace_conv1 ch enc_q0 g2 = (inr q1, g0) /\
                             replace_conv1 ch enc_k0 g0 = (inr k1, g3)
     | None => q1 = enc_q0 /\ k1 = enc_k0 /\ g3 = g2
     end /\
     (if mlp
      then exists g0, add_mlp q1 g3 = (inr q2, g0) /\ add_mlp k1 g0 = (inr k2, g4)
      else q2 = q1 /\ k2 = k1 /\ g4 = g3) /\
     encoder_q st = q2 /\ modules (encoder_k st) = modules k2) /\
  (forall factory' : nat -> NormLayer (F := F) -> M Rng (Encoder F Rest),
     (forall d g0, factory' d norm_layer g0 = factory d norm_layer g0) ->
     MoCo_init randn factory' replace_conv1 add_mlp normalize dim capacity c t mlp bands g
       = (inr st, g')).
Proof.
  intros Hinit.
  split; [intros ch kw; apply norm_layer_splits|].
  split; [intros ch s kw; apply norm_layer_override|].
  split; [eapply init_encoders; exact Hinit|].
  intros factory' Hagree. rewrite <- Hinit. unfold MoCo_init.
  apply bind_congr; [apply Hagree|intros enc_q g1].
  apply bind_congr; [apply Hagree|reflexivity].
Qed.

(** What construction leaves in the object, when it returns. *)
Lemma init_fields
  (factory : nat -> NormLayer (F := F) -> M Rng (Encoder F Rest))
  (dim capacity : nat) (c t : F) (mlp : bool) (bands : String.string)
  (g g' : Rng) (st : MoCo F Rest) :
  MoCo_init randn factory replace_conv1 add_mlp normalize dim capacity c t mlp bands g
    = (inr st, g') ->
  exists raw g1 g2,
    randn [dim; capacity] g1 = (inr raw, g2) /\
    normalize raw 0 = inr (queue st) /\
    queue_ptr st = 0 /\ K st = capacity /\ m st = c /\ T st = t.
Proof.
  unfold MoCo_init, bind, lift, ret. intros H.
  repeat match type of H with
         | context [match ?x with _ => _ end] => destruct x eqn:?; try discriminate
         end.
  inversion H; subst; simpl.
  eexists _, _, _. repeat split; eassumption.
Qed.

End ConstructionProperties.

(** ** Unit norms in the queue *)

Section QueueColumns.
Context {F : Type} {SF : Scalar F} {AF : Analytic F}.
Variable Rest : Type.
Implicit Types (st : MoCo F Rest) (keys : Tensor F).

(** After [queue[:, lo:hi] = keys.T], whatever the bounds, a column of
    the queue is as before or is one of the keys. *)
Lemma setitem_cols_columns (q keys q' : Tensor F) (D Kq B lo hi : nat) :
  shape q = [D; Kq] -> shape keys = [B; D] ->
  setitem_cols q lo hi (transpose keys) = inr q' ->
  shape q' = [D; Kq] /\
  forall c, (forall d, d < D -> at2 q' d c = at2 q d c) \/
            (exists j, j < B /\ forall d, d < D -> at2 q' d c = at2 keys j d).
Proof.
  intros Hq Hk. unfold setitem_cols. rewrite Hq.
  assert (Hs : shape (transpose keys) = [D; B]) by (simpl; now rewrite Hk).
  rewrite Hs.
  set (lo' := Nat.min lo Kq). set (hi' := Nat.max lo' (Nat.min hi Kq)).
  destruct (expandable [D; B] [D; hi' - lo']) eqn:Hexp; [|discriminate].
  intros H; inversion H; subst q'; clear H. split; [reflexivity|].
  intros c. unfold at2; cbn [data].
  destruct ((lo' <=? c) && (c <? hi')) eqn:Hin; [right|now left].
  apply andb_prop in Hin. destruct Hin as [H1 H2].
  apply Nat.leb_le in H1. apply Nat.ltb_lt in H2.
  unfold expandable in Hexp. simpl in Hexp.
  apply andb_prop in Hexp. destruct Hexp as [_ Hexp].
  rewrite andb_true_r in Hexp. apply orb_prop in Hexp.
  exists (if B =? 1 then 0 else c - lo'). split.
  - destruct (Nat.eqb_spec B 1); [lia|].
    destruct Hexp as [E|E]; [apply Nat.eqb_eq in E; lia|discriminate].
  - intros d Hd. unfold expand_index, transpose; simpl.
    destruct (Nat.eqb_spec D 1); [|reflexivity].
    now replace d with 0 by lia.
Qed.

(** After an enqueue, returned from or not, a column of the queue is
    as before or is one of the keys. *)
Lemma enqueue_columns st keys (B D : nat) (r : result unit) st' :
  shape keys = [B; D] -> shape (queue st) = [D; K st] ->
  _dequeue_and_enqueue_single_gpu keys st = (r, st') ->
  K st' = K st /\ shape (queue st') = [D; K st] /\
  forall c, (forall d, d < D -> at2 (queue st') d c = at2 (queue st) d c) \/
            (exists j, j < B /\ forall d, d < D -> at2 (queue st') d c = at2 keys j d).
Proof.
  intros Hk Hq.
  unfold _dequeue_and_enqueue_single_gpu, bind, lift, gets, modify, shape0.
  rewrite Hk.
  destruct (py_mod (K st) B) as [e|r0];
    [intros H; inversion H; subst; repeat split; auto|].
  unfold py_assert. destruct (r0 =? 0); unfold ret, raise;
    [|intros H; inversion H; subst; repeat split; auto].
  destruct (setitem_cols _ _ _ _) as [e|q'] eqn:Hset;
    [intros H; inversion H; subst; repeat split; auto|].
  destruct (setitem_cols_columns _ _ _ _ Hq Hk Hset) as [Hs' Hcols].
  simpl. destruct (py_mod _ _) as [e|p]; intros H; inversion H; subst; simpl;
    repeat split; auto.
Qed.

End QueueColumns.

Section UnitNorm.
Variable Rest : Type.
Variable Rng : Type.
Variable randn : list nat -> M Rng (Tensor R).
Variable factory : nat -> NormLayer (F := R) -> M Rng (Encoder R Rest).
Variable replace_conv1 : nat -> Encoder R Rest -> M Rng (Encoder R Rest).
Variable add_mlp : Encoder R Rest -> M Rng (Encoder R Rest).
Local Open Scope R_scope.

Lemma normalize_eps_pos : 0 < normalize_eps.
Proof.
  unfold normalize_eps, lit, R_Scalar, Q2R. simpl.
  apply Rmult_lt_0_compat; [lra|]. apply Rinv_0_lt_compat.
  apply IZR_lt. reflexivity.
Qed.

Lemma fold_left_scaled (f : nat -> R) (k : R) (l : list nat) (a : R) :
  fold_left (fun acc d => acc + f d * k) l (a * k) =
  fold_left (fun acc d => acc + f d) l a * k.
Proof.
  revert a; induction l as [|x l IH]; intros a; simpl; [reflexivity|].
  rewrite <- IH. f_equal. ring.
Qed.

Lemma sum_upto_scaled (n : nat) (f : nat -> R) (k : R) :
  sum_upto n (fun d => f d * k) = sum_upto n f * k.
Proof.
  unfold sum_upto. simpl.
  replace 0 with (0 * k) at 1 by ring. apply fold_left_scaled.
Qed.

(** A column of norm [s >= eps], divided by [max(s, eps)], has norm 1. *)
Lemma normalized_column (raw : Tensor R) (D j : nat) :
  normalize_eps <= col_norm raw D j ->
  sqrt (sum_upto D (fun d =>
          (at2 raw d j / Rmax (col_norm raw D j) normalize_eps) *
          (at2 raw d j / Rmax (col_norm raw D j) normalize_eps))) = 1.
Proof.
  intros Hs. pose proof normalize_eps_pos as Heps.
  rewrite Rmax_left by exact Hs.
  set (s := col_norm raw D j) in *.
  assert (Hpos : 0 < s) by lra.
  set (total := sum_upto D (fun d => mul (at2 raw d j) (at2 raw d j))).
  assert (Hsq : s * s = total).
  { unfold s, col_norm, sqrt_, R_Analytic. fold total. apply sqrt_sqrt.
    destruct (Rle_or_lt 0 total) as [H|H]; [exact H|].
    exfalso. assert (E : s = 0).
    { unfold s, col_norm, sqrt_, R_Analytic. fold total. apply sqrt_neg_0. lra. }
    lra. }
  rewrite (@sum_upto_ext R R_Scalar D _
             (fun d => (at2 raw d j * at2 raw d j) * / (s * s))).
  - rewrite sum_upto_scaled.
    change (sum_upto D (fun d => at2 raw d j * at2 raw d j)) with total.
    rewrite <- Hsq. rewrite Rinv_r by nra. apply sqrt_1.
  - intros d _. field. lra.
Qed.

(** The queue that [normalize(raw, dim=0)] makes of a draw, column by
    column. *)
Lemma normalize_ref_column (raw q : Tensor R) (D Kq j : nat) :
  shape raw = [D; Kq] ->
  normalize_ref raw 0 = inr q ->
  normalize_eps <= col_norm raw D j ->
  col_norm q D j = 1.
Proof.
  intros Hs Hn Hdraw. unfold normalize_ref in Hn. rewrite Hs in Hn. simpl in Hn.
  inversion Hn; subst q; clear Hn.
  unfold col_norm at 1. unfold at2 at 1 2. cbn [data].
  unfold norm_along. rewrite Hs. cbn [nth set_nth firstn skipn app].
  apply (normalized_column raw D j Hdraw).
Qed.

Lemma normalize_ref_keeps_shape (x : Tensor R) (d : nat) (y : Tensor R) :
  normalize_ref x d = inr y -> shape y = shape x.
Proof.
  unfold normalize_ref. destruct (d <? length (shape x)); intros H; inversion H.
  reflexivity.
Qed.

(** An enqueue of unit-norm keys, returned from or not, keeps a
    column of unit norm at unit norm. *)
Lemma enqueue_keeps_unit_column (st st' : MoCo R Rest) (keys : Tensor R)
  (B D : nat) (r : result unit) :
  shape (queue st) = [D; K st] ->
  shape keys = [B; D] ->
  (forall i, (i < B)%nat -> row_norm keys D i = 1) ->
  _dequeue_and_enqueue_single_gpu keys st = (r, st') ->
  shape (queue st') = [D; K st'] /\
  forall j, col_norm (queue st) D j = 1 -> col_norm (queue st') D j = 1.
Proof.
  intros Hq Hk Hkeys He.
  destruct (enqueue_columns st keys Hk Hq He) as (EK & Hs' & Hcols).
  rewrite EK. split; [exact Hs'|]. intros j Hunit.
  destruct (Hcols j) as [Hsame|(i & Hi & Hkey)].
  - rewrite <- Hunit. unfold col_norm. f_equal.
    apply sum_upto_ext. intros d Hd. now rewrite (Hsame d Hd).
  - rewrite <- (Hkeys i Hi). unfold col_norm, row_norm. f_equal.
    apply sum_upto_ext. intros d Hd. now rewrite (Hkey d Hd).
Qed.

(** C10, as amended: construction fills the queue with the draw of
    [randn] normalized column by column; each column whose draw has a
    norm of at least the [eps] of [normalize] (1e-12) has unit norm
    before any key is enqueued, whatever the other columns are; and an
    enqueue of unit-norm keys, whether it returns or raises, leaves
    each column of unit norm at unit norm.  Real arithmetic. *)
Theorem queue_columns_unit_norm (dim capacity : nat) (c t : R) (mlp : bool)
  (bands : String.string) (g g' : Rng) (st : MoCo R Rest) :
  (forall g1 g2 raw, randn [dim; capacity] g1 = (inr raw, g2) ->
     shape raw = [dim; capacity]) ->
  MoCo_init randn factory replace_conv1 add_mlp normalize_ref
            dim capacity c t mlp bands g = (inr st, g') ->
  exists raw g1 g2,
    randn [dim; capacity] g1 = (inr raw, g2) /\
    normalize_ref raw 0 = inr (queue st) /\
    K st = capacity /\ queue_ptr st = 0%nat /\
    shape (queue st) = [dim; capacity] /\
    (forall j, normalize_eps <= col_norm raw dim j -> col_norm (queue st) dim j = 1) /\
    (forall (s0 s1 : MoCo R Rest) (keys : Tensor R) (B : nat) (r : result unit),
       shape (queue s0) = [dim; K s0] ->
       shape keys = [B; dim] ->
       (forall i, (i < B)%nat -> row_norm keys dim i = 1) ->
       _dequeue_and_enqueue_single_gpu keys s0 = (r, s1) ->
       shape (queue s1) = [dim; K s1] /\
       forall j, col_norm (queue s0) dim j = 1 -> col_norm (queue s1) dim j = 1).
Proof.
  intros Hdraw Hinit.
  destruct (init_fields _ _ _ _ _ _ _ _ _ _ _ _ Hinit)
    as (raw & g1 & g2 & Hraw & Hnorm & Hptr & HK & _ & _).
  pose proof (Hdraw g1 g2 raw Hraw) as Hshape.
  exists raw, g1, g2.
  split; [exact Hraw|]. split; [exact Hnorm|]. split; [exact HK|]. split; [exact Hptr|].
  split; [now rewrite (normalize_ref_keeps_shape _ _ Hnorm)|]. split.
  - intros j Hj. exact (normalize_ref_column raw j Hshape Hnorm Hj).
  - intros s0 s1 keys B r Hq Hk Hkeys He.
    exact (enqueue_keeps_unit_column s0 keys Hq Hk Hkeys He).
Qed.

End UnitNorm.

(** * Concrete runs *)

Lemma R_exact : ExactScalar R_Scalar.
Proof. constructor; intros; simpl; ring. Qed.

(** C3, the claim as stated fails: [K = 4], [B = 2] divides [K],
    [0 <= ptr = 3 < K]; the slice [3:5] is clamped to one column, the
    two keys do not fit it, and the assignment raises. *)
Lemma enqueue_misaligned_raises :
  Nat.divide 2 (K (small_moco 4 3 1%R)) /\
  queue_ptr (small_moco 4 3 1%R) < K (small_moco 4 3 1%R) /\
  shape (ones [2; 1]) = [2; 1] /\
  shape (queue (small_moco 4 3 1%R)) = [1; 4] /\
  _dequeue_and_enqueue_single_gpu (ones [2; 1]) (small_moco 4 3 1%R) =
    (inl RuntimeError, small_moco 4 3 1%R).
Proof.
  split; [exists 2; reflexivity|]. split; [simpl; lia|].
  repeat split.
Qed.

(** C3 at [K = 4], [ptr = 2], two keys: the enqueue returns and [ptr]
    wraps to 0. *)
Lemma enqueue_writes_columns_witness :
  shape (ones [2; 1]) = [2; 1] /\
  shape (queue (small_moco 4 2 1%R)) = [1; K (small_moco 4 2 1%R)] /\
  Nat.divide 2 (K (small_moco 4 2 1%R)) /\
  queue_ptr (small_moco 4 2 1%R) < K (small_moco 4 2 1%R) /\
  queue_ptr (small_moco 4 2 1%R) + 2 <= K (small_moco 4 2 1%R) /\
  exists st',
    _dequeue_and_enqueue_single_gpu (ones [2; 1]) (small_moco 4 2 1%R) = (inr tt, st') /\
    queue_ptr st' = 0.
Proof.
  assert (H1 : shape (ones [2; 1]) = [2; 1]) by reflexivity.
  assert (H2 : shape (queue (small_moco 4 2 1%R)) = [1; K (small_moco 4 2 1%R)])
    by reflexivity.
  assert (H3 : Nat.divide 2 (K (small_moco 4 2 1%R))) by (exists 2; reflexivity).
  assert (H4 : queue_ptr (small_moco 4 2 1%R) < K (small_moco 4 2 1%R)) by (simpl; lia).
  assert (H5 : queue_ptr (small_moco 4 2 1%R) + 2 <= K (small_moco 4 2 1%R))
    by (simpl; lia).
  repeat (split; [assumption|]).
  destruct (enqueue_writes_columns (small_moco 4 2 1%R) (ones [2; 1]) H1 H2 H3 H4 H5)
    as (st' & Hrun & _ & _ & _ & Hptr & _).
  exists st'. split; [exact Hrun|]. rewrite Hptr. reflexivity.
Defined.

(** C7 at [K = 100] and a batch of 32: the [assert] fails. *)
Lemma enqueue_rejects_indivisible_witness :
  shape (ones [32; 1]) = [32; 1] /\
  ~ Nat.divide 32 (K (small_moco 100 0 1%R)) /\
  _dequeue_and_enqueue_single_gpu (ones [32; 1]) (small_moco 100 0 1%R) =
    (inl AssertionError, small_moco 100 0 1%R).
Proof.
  assert (H1 : shape (ones [32; 1]) = [32; 1]) by reflexivity.
  assert (H2 : ~ Nat.divide 32 (K (small_moco 100 0 1%R))).
  { simpl. intros [c Hc]. lia. }
  repeat (split; [assumption|]).
  exact (enqueue_rejects_indivisible (small_moco 100 0 1%R) (ones [32; 1]) H1 H2).
Defined.

(** C4 over the reals with [m = 0]: the key parameter (7, 9) becomes
    the query parameter (3, 5). *)
Lemma momentum_update_rule_witness :
  ExactScalar R_Scalar /\
  Forall2 (fun q k : Tensor R => shape q = shape k)
          (parameters (encoder_q (one_param_moco 0%R)))
          (parameters (encoder_k (one_param_moco 0%R))) /\
  exists k',
    fst (_momentum_update_key_encoder (one_param_moco 0%R)) = inr tt /\
    parameters (encoder_k (snd (_momentum_update_key_encoder (one_param_moco 0%R)))) = [k'] /\
    at2 k' 0 1 = 5%R.
Proof.
  assert (H1 : Forall2 (fun q k : Tensor R => shape q = shape k)
                 (parameters (encoder_q (one_param_moco 0%R)))
                 (parameters (encoder_k (one_param_moco 0%R))))
    by (repeat constructor).
  split; [exact R_exact|]. split; [exact H1|].
  destruct (momentum_update_rule (one_param_moco 0%R) R_exact H1)
    as (ps & Hrun & _ & Hall).
  rewrite Hrun. simpl in Hall.
  inversion Hall as [|qk k' l l' Hk Hrest]; subst. inversion Hrest; subst.
  exists k'. split; [reflexivity|]. split; [reflexivity|].
  destruct Hk as [_ Hk]. simpl in Hk.
  destruct (Hk [0; 1] (in_range_2 (i := 0) (j := 1) (n := 1) (c := 2)
                          (Nat.lt_0_succ 0) (Nat.lt_succ_diag_r 1))) as [_ H0].
  unfold at2. now rewrite (H0 eq_refl).
Defined.

(** C5 on a batch of three samples shuffled into reverse order. *)
Lemma unshuffle_shuffle_witness :
  shape (of_rows [[1]; [2]; [3]]%R) = [3; 1] /\
  Permutation (reversing 3) (seq 0 3) /\
  exists x' idx_unshuffle x'',
    _batch_shuffle_single_gpu reversing (of_rows [[1]; [2]; [3]]%R) = inr (x', idx_unshuffle) /\
    _batch_unshuffle_single_gpu x' idx_unshuffle = inr x'' /\
    tensor_eq x'' (of_rows [[1]; [2]; [3]]%R).
Proof.
  assert (H1 : shape (of_rows [[1]; [2]; [3]]%R) = [3; 1]) by reflexivity.
  assert (H2 : Permutation (reversing 3) (seq 0 3)).
  { unfold reversing. apply Permutation_sym, Permutation_rev. }
  split; [exact H1|]. split; [exact H2|].
  exact (unshuffle_shuffle reversing (of_rows [[1]; [2]; [3]]%R) H1 H2).
Defined.

(** C9, the claim as stated fails: the split factor can be
    configured from outside.  A factory that builds its layer with
    [norm_layer(1, num_splits=4)] gets a layer of 4 splits, and
    construction returns with both encoders built that way. *)
Lemma overriding_factory_gets_4_splits :
  (exists l, norm_layer (F := R) 1 (mkNormCall 0 (Some 4) no_kw) = inr l /\
             num_splits l = 4) /\
  exists st g,
    MoCo_init randn_ones overriding_factory keep_conv1 keep_fc normalize_ref
              1 2 (lit (999 # 1000)) (lit (7 # 100)) false "all"%string tt = (inr st, g) /\
    modules (encoder_q st) = 4 /\ modules (encoder_k st) = 4 /\ 4 <> 16.
Proof.
  split; [eexists; split; reflexivity|].
  eexists _, _. split; [reflexivity|]. split; [reflexivity|]. split; [reflexivity|lia].
Qed.

(** C9, as amended: with the factory that builds its layer with
    [norm_layer(1)] and records the split factor, both encoders of
    the object record 16. *)
Lemma init_split_factor_is_16_witness :
  exists st g',
    MoCo_init randn_ones probing_factory keep_conv1 keep_fc normalize_ref
              1 2 (lit (999 # 1000)) (lit (7 # 100)) false "all"%string tt = (inr st, g') /\
    modules (encoder_q st) = 16 /\ modules (encoder_k st) = 16.
Proof.
  eexists _, _. split; [reflexivity|].
  destruct (init_split_factor_is_16 randn_ones keep_conv1 keep_fc normalize_ref
              probing_factory 1 2 (lit (999 # 1000)) (lit (7 # 100)) false "all"%string
              tt eq_refl)
    as (_ & _ & (e0 & k0 & q1 & k1 & q2 & k2 & g1 & g2 & g3 & g4
                 & Hq & Hk & Hb & Hm & Eq & Ek) & _).
  cbn in Hb. destruct Hb as (Hq1 & Hk1 & _). destruct Hm as (Hq2 & Hk2 & _).
  rewrite Eq, Ek, Hq2, Hk2, Hq1, Hk1.
  inversion Hq; inversion Hk. split; reflexivity.
Defined.

(** *** Forward calls on one pair of one-component images *)

Lemma normalize_eps_le_1 : (normalize_eps <= 1)%R.
Proof.
  unfold normalize_eps, lit, R_Scalar, Q2R. simpl. lra.
Qed.

(** [1 / max(sqrt(0 + 1 * 1), eps) = 1]: the vector [(1)] normalized. *)
Lemma unit_over_max :
  div 1%R (max_ (sqrt_ (add zero (mul 1%R 1%R))) (lit (1 # 1000000000000))) = 1%R.
Proof.
  change (1 / Rmax (sqrt (0 + 1 * 1)) normalize_eps = 1)%R.
  replace (0 + 1 * 1)%R with 1%R by ring.
  rewrite sqrt_1, Rmax_left by apply normalize_eps_le_1.
  field.
Qed.

(** The features of the pair: [q = k = (1)]. *)
Lemma small_features (t : R) :
  exists q st1 k st2,
    query_features identity_call normalize_ref (ones [1; 1]) (small_moco 2 0 t)
      = (inr q, st1) /\
    key_features identity_call normalize_ref reversing (ones [1; 1]) st1
      = (inr k, st2) /\
    shape q = [1; 1] /\ shape k = [1; 1] /\
    at2 q 0 0 = 1%R /\ at2 k 0 0 = 1%R.
Proof.
  eexists _, _, _, _.
  split; [reflexivity|]. split; [reflexivity|].
  split; [reflexivity|]. split; [reflexivity|].
  split; exact unit_over_max.
Qed.

Lemma small_preconditions (t : R) :
  shape (queue (small_moco 2 0 t)) = [1; K (small_moco 2 0 t)] /\
  Nat.divide 1 (K (small_moco 2 0 t)) /\
  queue_ptr (small_moco 2 0 t) < K (small_moco 2 0 t) /\
  queue_ptr (small_moco 2 0 t) + 1 <= K (small_moco 2 0 t).
Proof.
  split; [reflexivity|]. split; [exists 2; reflexivity|]. simpl. lia.
Qed.

(** The forward call on that pair with temperature [t]: it returns,
    and the positive logit is [1 / t]. *)
Lemma small_forward (t : R) :
  exists q st1 k st2 logits st',
    query_features identity_call normalize_ref (ones [1; 1]) (small_moco 2 0 t)
      = (inr q, st1) /\
    key_features identity_call normalize_ref reversing (ones [1; 1]) st1
      = (inr k, st2) /\
    forward identity_call normalize_ref reversing (ones [1; 1]) (ones [1; 1])
            (small_moco 2 0 t) = (inr (logits, [0%Z]), st') /\
    dot_rows q k 1 0 = 1%R /\
    at2 logits 0 0 = (1 / t)%R.
Proof.
  destruct (small_features t) as (q & st1 & k & st2 & HQF & HKF & Hq & Hk & Hq0 & Hk0).
  destruct (small_preconditions t) as (HQ & Hdiv & Hptr & Hfit).
  destruct (forward_run identity_call normalize_ref reversing (ones [1; 1]) (ones [1; 1])
              (small_moco 2 0 t) HQF HKF Hq Hk HQ Hdiv Hptr Hfit)
    as (logits & st' & Hrun & _ & Hpos & _).
  assert (Hdot : dot_rows q k 1 0 = 1%R).
  { unfold dot_rows, sum_upto. cbn [seq fold_left]. rewrite Hq0, Hk0. simpl. ring. }
  exists q, st1, k, st2, logits, st'.
  repeat split; try assumption.
  rewrite (Hpos 0 (Nat.lt_0_succ 0)), Hdot. reflexivity.
Qed.

(** C1, the claim as stated fails: with [T = 2] the positive-pair
    similarity [dot(q_0, k_0)] is 1 and [logits[0, 0]] is [1 / 2]. *)
Lemma forward_positive_logit_is_divided :
  exists q st1 k st2 logits st',
    query_features identity_call normalize_ref (ones [1; 1]) (small_moco 2 0 2%R)
      = (inr q, st1) /\
    key_features identity_call normalize_ref reversing (ones [1; 1]) st1
      = (inr k, st2) /\
    forward identity_call normalize_ref reversing (ones [1; 1]) (ones [1; 1])
            (small_moco 2 0 2%R) = (inr (logits, [0%Z]), st') /\
    dot_rows q k 1 0 = 1%R /\
    at2 logits 0 0 = (1 / 2)%R /\
    at2 logits 0 0 <> dot_rows q k 1 0.
Proof.
  destruct (small_forward 2%R) as (q & st1 & k & st2 & logits & st' & H1 & H2 & H3 & H4 & H5).
  exists q, st1, k, st2, logits, st'.
  repeat (split; [assumption|]). rewrite H4, H5. lra.
Qed.

(** C1, as amended, on one pair with [T = 0.07]. *)
Lemma forward_logits_and_labels_witness :
  exists q st1 k st2,
    query_features identity_call normalize_ref (ones [1; 1])
                   (small_moco 2 0 (lit (7 # 100))) = (inr q, st1) /\
    key_features identity_call normalize_ref reversing (ones [1; 1]) st1
      = (inr k, st2) /\
    shape q = [1; 1] /\ shape k = [1; 1] /\
    shape (queue (small_moco 2 0 (lit (7 # 100))))
      = [1; K (small_moco 2 0 (lit (7 # 100)))] /\
    Nat.divide 1 (K (small_moco 2 0 (lit (7 # 100)))) /\
    queue_ptr (small_moco 2 0 (lit (7 # 100))) < K (small_moco 2 0 (lit (7 # 100))) /\
    queue_ptr (small_moco 2 0 (lit (7 # 100))) + 1 <= K (small_moco 2 0 (lit (7 # 100))) /\
    exists logits labels st',
      forward identity_call normalize_ref reversing (ones [1; 1]) (ones [1; 1])
              (small_moco 2 0 (lit (7 # 100))) = (inr (logits, labels), st') /\
      labels = [0%Z] /\ shape logits = [1; 3].
Proof.
  destruct (small_features (lit (7 # 100)))
    as (q & st1 & k & st2 & HQF & HKF & Hq & Hk & _ & _).
  destruct (small_preconditions (lit (7 # 100))) as (HQ & Hdiv & Hptr & Hfit).
  exists q, st1, k, st2.
  repeat (split; [assumption|]).
  destruct (forward_logits_and_labels identity_call normalize_ref reversing
              (ones [1; 1]) (ones [1; 1]) (small_moco 2 0 (lit (7 # 100)))
              HQF HKF Hq Hk HQ Hdiv Hptr Hfit)
    as (logits & labels & st' & Hrun & Hlab & Hshape & _).
  exists logits, labels, st'. repeat split; assumption.
Defined.

(** C2 on one pair: the negative logit comes from the queue as it
    was, and the key is in column 0 afterwards. *)
Lemma forward_scores_before_enqueue_witness :
  exists q st1 k st2,
    query_features identity_call normalize_ref (ones [1; 1])
                   (small_moco 2 0 1%R) = (inr q, st1) /\
    key_features identity_call normalize_ref reversing (ones [1; 1]) st1
      = (inr k, st2) /\
    shape q = [1; 1] /\ shape k = [1; 1] /\
    shape (queue (small_moco 2 0 1%R)) = [1; K (small_moco 2 0 1%R)] /\
    Nat.divide 1 (K (small_moco 2 0 1%R)) /\
    queue_ptr (small_moco 2 0 1%R) < K (small_moco 2 0 1%R) /\
    queue_ptr (small_moco 2 0 1%R) + 1 <= K (small_moco 2 0 1%R) /\
    exists logits labels st',
      forward identity_call normalize_ref reversing (ones [1; 1]) (ones [1; 1])
              (small_moco 2 0 1%R) = (inr (logits, labels), st') /\
      at2 logits 0 1 = div (dot_row_col q (queue (small_moco 2 0 1%R)) 1 0 0) 1%R /\
      at2 (queue st') 0 0 = at2 k 0 0.
Proof.
  destruct (small_features 1%R)
    as (q & st1 & k & st2 & HQF & HKF & Hq & Hk & _ & _).
  destruct (small_preconditions 1%R) as (HQ & Hdiv & Hptr & Hfit).
  exists q, st1, k, st2.
  repeat (split; [assumption|]).
  destruct (forward_scores_before_enqueue identity_call normalize_ref reversing
              (ones [1; 1]) (ones [1; 1]) (small_moco 2 0 1%R)
              HQF HKF Hq Hk HQ Hdiv Hptr Hfit)
    as (logits & labels & st' & Hrun & Hneg & Hnew & _).
  exists logits, labels, st'. split; [exact Hrun|]. split.
  - exact (Hneg 0 0 (Nat.lt_0_succ 0) (Nat.lt_0_succ 1)).
  - exact (Hnew 0 0 (Nat.lt_0_succ 0) (Nat.lt_0_succ 0)).
Defined.

(** C8, the claim as stated fails: with [T = -1] and with [T = 0]
    construction returns an object holding that [T], and a forward
    call on it returns logits (with [T = -1], the positive logit
    [1 / -1]). *)
Lemma nonpositive_temperature_accepted :
  (-1 <= 0)%R /\
  (exists st g,
     MoCo_init randn_ones constant_factory keep_conv1 keep_fc normalize_ref
               1 2 (lit (999 # 1000)) (-1)%R false "all"%string tt = (inr st, g) /\
     T st = (-1)%R) /\
  (exists logits st',
     forward identity_call normalize_ref reversing (ones [1; 1]) (ones [1; 1])
             (small_moco 2 0 (-1)%R) = (inr (logits, [0%Z]), st') /\
     at2 logits 0 0 = (1 / -1)%R) /\
  (exists logits st',
     forward identity_call normalize_ref reversing (ones [1; 1]) (ones [1; 1])
             (small_moco 2 0 0%R) = (inr (logits, [0%Z]), st')).
Proof.
  split; [lra|]. split; [|split].
  - eexists _, _. split; reflexivity.
  - destruct (small_forward (-1)%R) as (q & st1 & k & st2 & logits & st' & _ & _ & H & _ & H').
    exists logits, st'. split; assumption.
  - destruct (small_forward 0%R) as (q & st1 & k & st2 & logits & st' & _ & _ & H & _).
    exists logits, st'. exact H.
Qed.

(** *** Construction and the norms of the queue *)

(** C10, the claim as stated fails: when the draw of [randn] has a
    zero column, [normalize] leaves it zero, and the queue holds a
    column of norm 0 before any key is enqueued.  So it does with
    [dim = 0], whatever the draw. *)
Lemma zero_draw_is_not_unit :
  (exists st g,
     MoCo_init randn_zeros constant_factory keep_conv1 keep_fc normalize_ref
               1 1 (lit (999 # 1000)) (lit (7 # 100)) false "all"%string tt = (inr st, g) /\
     shape (queue st) = [1; 1] /\
     col_norm (queue st) 1 0 = 0%R) /\
  (exists st g,
     MoCo_init randn_ones constant_factory keep_conv1 keep_fc normalize_ref
               0 1 (lit (999 # 1000)) (lit (7 # 100)) false "all"%string tt = (inr st, g) /\
     shape (queue st) = [0; 1] /\
     col_norm (queue st) 0 0 = 0%R).
Proof.
  split.
  - eexists _, _. split; [reflexivity|]. split; [reflexivity|].
    unfold col_norm, at2, sum_upto. cbn [seq fold_left queue data].
    set (d := max_ _ _).
    change (sqrt (0 + 0 / d * (0 / d)) = 0)%R.
    replace (0 + 0 / d * (0 / d))%R with 0%R by (unfold Rdiv; ring).
    apply sqrt_0.
  - eexists _, _. split; [reflexivity|]. split; [reflexivity|].
    exact sqrt_0.
Qed.

Lemma first_column_norm : col_norm (first_column [1; 2]) 1 0 = 1%R.
Proof.
  unfold col_norm, at2, sum_upto. cbn [seq fold_left first_column data hd tl Nat.eqb].
  change (sqrt (0 + 1 * 1) = 1)%R.
  replace (0 + 1 * 1)%R with 1%R by ring. apply sqrt_1.
Qed.

(** C10, as amended, for a draw whose column 0 is (1) and whose
    column 1 is (0): column 0 of the queue has unit norm, whatever
    column 1 is (its norm is 0). *)
Lemma queue_columns_unit_norm_witness :
  (forall g1 g2 raw, randn_first_column [1; 2] g1 = (inr raw, g2) -> shape raw = [1; 2]) /\
  exists st g',
    MoCo_init randn_first_column constant_factory keep_conv1 keep_fc normalize_ref
              1 2 (lit (999 # 1000)) (lit (7 # 100)) false "all"%string tt = (inr st, g') /\
    queue_ptr st = 0 /\
    col_norm (queue st) 1 0 = 1%R /\
    col_norm (queue st) 1 1 = 0%R.
Proof.
  assert (H1 : forall g1 g2 raw, randn_first_column [1; 2] g1 = (inr raw, g2) ->
                 shape raw = [1; 2]).
  { intros g1 g2 raw H. inversion H; subst. reflexivity. }
  split; [exact H1|].
  eexists _, _. split; [reflexivity|].
  destruct (queue_columns_unit_norm randn_first_column constant_factory keep_conv1 keep_fc
              (lit (999 # 1000)) (lit (7 # 100)) false "all"%string tt H1 eq_refl)
    as (raw & g1 & g2 & Hraw & _ & _ & Hptr & _ & Hcol & _).
  split; [exact Hptr|]. split.
  - apply Hcol. inversion Hraw; subst raw.
    rewrite first_column_norm. apply normalize_eps_le_1.
  - unfold col_norm, at2, sum_upto. cbn [seq fold_left queue data].
    set (d := max_ _ _).
    change (sqrt (0 + 0 / d * (0 / d)) = 0)%R.
    replace (0 + 0 / d * (0 / d))%R with 0%R by (unfold Rdiv; ring).
    apply sqrt_0.
Defined.

(** *** [SplitBatchNorm] with the reference [batch_norm] *)

Lemma batch_norm_ref_eval_reads_only : eval_reads_only (batch_norm_ref (F := R)).
Proof.
  intros input rm rv w b mom e r H. unfold batch_norm_ref in H.
  repeat match type of H with
         | context [match ?x with _ => _ end] => destruct x; try discriminate
         end.
  inversion H; subst. split; reflexivity.
Qed.

(** C6, as amended, on a fresh layer in inference mode: the call
    returns and the layer is as before. *)
Lemma eval_is_plain_batch_norm_witness :
  eval_reads_only (batch_norm_ref (F := R)) /\
  shape two_samples = [2; 1; 1; 1] /\
  training (eval_layer 16) = false /\
  track_running_stats (eval_layer 16) = true /\
  snd (SplitBatchNorm_forward batch_norm_ref two_samples (eval_layer 16)) = eval_layer 16 /\
  is_ok (fst (SplitBatchNorm_forward batch_norm_ref two_samples (eval_layer 16))) = true.
Proof.
  repeat (split; [first [exact batch_norm_ref_eval_reads_only | reflexivity]|]).
  rewrite (eval_is_plain_batch_norm two_samples (eval_layer 16)
             batch_norm_ref_eval_reads_only eq_refl eq_refl eq_refl).
  reflexivity.
Defined.

(** C6, the claim as stated fails: a layer in inference mode whose
    [track_running_stats] is [False] takes the split branch.  On the
    batch (1, 3) it calls [batch_norm] in training mode and then
    overwrites its running mean: 0 before the call, 1/5 after. *)
Lemma untracked_eval_layer_is_mutated :
  training (untracked_eval_layer 1) = false /\
  track_running_stats (untracked_eval_layer 1) = false /\
  exists out l' rm rm',
    SplitBatchNorm_forward batch_norm_ref two_samples (untracked_eval_layer 1)
      = (inr out, l') /\
    running_mean (untracked_eval_layer 1) = Some rm /\
    running_mean l' = Some rm' /\
    at1 rm 0 = 0%R /\ at1 rm' 0 = (1 / 5)%R.
Proof.
  split; [reflexivity|]. split; [reflexivity|].
  eexists _, _, _, _. split; [reflexivity|]. split; [reflexivity|].
  split; [reflexivity|]. split; [reflexivity|].
  unfold at1. cbn -[Rplus Rmult Rminus Rdiv Rinv sqrt Rmax Q2R IZR].
  unfold Q2R, inject_Z. cbn [Qnum Qden Z.of_nat Pos.of_succ_nat Pos.succ].
  lra.
Qed.

(** A layer built with [track_running_stats=False] has no running
    statistics at all: in inference mode too, [forward] reaches
    [self.running_mean.repeat] and raises. *)
Lemma untracked_layer_raises :
  SplitBatchNorm_forward batch_norm_ref two_samples
    (set_training false
       (SplitBatchNorm_init 1 16 (mkBNKw None None None (Some false)))) =
  (inl AttributeError,
   set_training false (SplitBatchNorm_init 1 16 (mkBNKw None None None (Some false)))).
Proof. reflexivity. Qed.

(** *** Runs over the rationals *)

(** Scoring [q = (1, 2)] against [k = (3, 4)] and the identity queue
    at temperature 1/2: [11 / (1/2)], [1 / (1/2)], [2 / (1/2)]. *)
Example contrast_over_Q :
  match contrast (of_rows [[1; 2]%Q]) (of_rows [[3; 4]%Q]) rational_moco with
  | (inr logits, _) => (shape logits, rows_of logits)
  | (inl _, _) => ([], [])
  end = ([1; 3], [[22; 2; 4]%Q]).
Proof. vm_compute. reflexivity. Qed.

(** Two enqueues of one key each: the columns are overwritten in
    turn and [ptr] goes 0, 1, 0. *)
Example two_enqueues_over_Q :
  match _dequeue_and_enqueue_single_gpu (of_rows [[3; 4]%Q]) rational_moco with
  | (inr _, st1) =>
      match _dequeue_and_enqueue_single_gpu (of_rows [[5; 6]%Q]) st1 with
      | (inr _, st2) =>
          (queue_ptr st1, rows_of (queue st1), queue_ptr st2, rows_of (queue st2))
      | (inl _, _) => (0, [], 0, [])
      end
  | (inl _, _) => (0, [], 0, [])
  end = (1, [[3; 0]; [4; 1]]%Q, 0, [[3; 5]; [4; 6]]%Q).
Proof. vm_compute. reflexivity. Qed.

(** One momentum update with [m = 1/2]: the key parameter (7, 9)
    moves half way to the query parameter (3, 5). *)
Example momentum_over_Q :
  match _momentum_update_key_encoder rational_moco with
  | (inr _, st') => map rows_of (parameters (encoder_k st'))
  | (inl _, _) => []
  end = [[[5; 7]%Q]].
Proof. vm_compute. reflexivity. Qed.

(** * Further properties *)

(** ** The queue as a ring of blocks *)

Section RingProperties.
Context {F : Type} {SF : Scalar F}.
Variable Rest : Type.
Implicit Types (st : MoCo F Rest) (keys : Tensor F).

(** X1: when [B] divides [K] and [0 <= ptr < K] but the [B] columns
    from [ptr] run past the end of the queue, the enqueue raises
    [RuntimeError] and leaves the object as it was. *)
Theorem enqueue_overrun_raises st keys (B D : nat) :
  shape keys = [B; D] ->
  shape (queue st) = [D; K st] ->
  Nat.divide B (K st) ->
  queue_ptr st < K st ->
  K st < queue_ptr st + B ->
  _dequeue_and_enqueue_single_gpu keys st = (inl RuntimeError, st).
Proof.
  intros Hk Hq [c Hdiv] Hptr Hover.
  assert (HB : 0 < B) by (destruct B; lia).
  unfold _dequeue_and_enqueue_single_gpu, bind, lift, gets, modify, shape0.
  rewrite Hk, (py_mod_pos _ HB).
  assert (E : (K st mod B =? 0) = true).
  { apply Nat.eqb_eq. rewrite Hdiv. apply Nat.Div0.mod_mul. }
  rewrite E; simpl.
  erewrite setitem_cols_overrun; [reflexivity|eassumption..].
Qed.

(** One enqueue from an aligned object. *)
Lemma enqueue_aligned st keys (B D : nat) :
  aligned B D st -> shape keys = [B; D] ->
  exists st',
    _dequeue_and_enqueue_single_gpu keys st = (inr tt, st') /\
    aligned B D st' /\ K st' = K st /\
    queue_ptr st' = (queue_ptr st + B) mod K st /\
    (forall d j, d < D -> j < B ->
       at2 (queue st') d (queue_ptr st + j) = at2 keys j d) /\
    (forall d c, c < queue_ptr st \/ queue_ptr st + B <= c ->
       at2 (queue st') d c = at2 (queue st) d c).
Proof.
  intros (Hq & Hdiv & Hal & Hptr) Hk.
  destruct (aligned_ptr_fits Hdiv Hal Hptr) as [Hfit Hal'].
  destruct (enqueue_fits st keys Hk Hq Hdiv Hptr Hfit)
    as (st' & Hrun & Hs & Hnew & Hold & Hp & Hlt & HK & _).
  exists st'. split; [exact Hrun|].
  split; [|repeat split; assumption].
  unfold aligned. rewrite HK, Hp. repeat split; try assumption.
  now rewrite <- Hp.
Qed.

(** X2: alignment is an invariant of the enqueue, and an aligned
    object accepts every batch of its size: the call returns, [K] and
    the shape of the queue are as before, and [ptr] is again a multiple
    of [B] below [K]. *)
Theorem enqueue_keeps_alignment st keys (B D : nat) :
  aligned B D st -> shape keys = [B; D] ->
  exists st',
    _dequeue_and_enqueue_single_gpu keys st = (inr tt, st') /\
    aligned B D st' /\ K st' = K st.
Proof.
  intros Hal Hk.
  destruct (enqueue_aligned keys Hal Hk) as (st' & Hrun & Hal' & HK & _).
  exists st'. split; [|split]; assumption.
Qed.

(** The column where the [i]-th batch after [ptr] begins. *)
Lemma block_start (a c B i : nat) :
  (a * B + i * B) mod (c * B) = ((a + i) mod c) * B.
Proof.
  rewrite <- Nat.mul_add_distr_r. apply Nat.Div0.mul_mod_distr_r.
Qed.

Lemma other_block (a c i : nat) : a < c -> 0 < i -> i < c -> (a + i) mod c <> a.
Proof.
  intros Ha Hi Hic.
  destruct (Nat.lt_ge_cases (a + i) c) as [Hlt|Hge].
  - rewrite Nat.mod_small by exact Hlt. lia.
  - replace (a + i) with ((a + i - c) + 1 * c) by lia.
    rewrite Nat.Div0.mod_add, Nat.mod_small by lia. lia.
Qed.

(** Several enqueues from an aligned object, no more than fill the
    queue once. *)
Lemma enqueue_all_run (batches : list (Tensor F)) (B D : nat) : forall st,
  aligned B D st ->
  Forall (fun keys => shape keys = [B; D]) batches ->
  length batches * B <= K st ->
  exists st',
    enqueue_all batches st = (inr tt, st') /\
    aligned B D st' /\ K st' = K st /\
    queue_ptr st' = (queue_ptr st + length batches * B) mod K st /\
    (forall i keys, nth_error batches i = Some keys ->
       forall d j, d < D -> j < B ->
         at2 (queue st') d ((queue_ptr st + i * B) mod K st + j) = at2 keys j d) /\
    (forall d c,
       (forall i, i < length batches ->
          c < (queue_ptr st + i * B) mod K st \/
          (queue_ptr st + i * B) mod K st + B <= c) ->
       at2 (queue st') d c = at2 (queue st) d c).
Proof.
  induction batches as [|keys rest IH]; intros st Hal Hall Hlen.
  - exists st. simpl. rewrite Nat.add_0_r.
    destruct Hal as (Hq & Hdiv & Ha & Hptr).
    split; [reflexivity|]. split; [repeat split; assumption|].
    split; [reflexivity|]. split; [now rewrite Nat.mod_small|]. split.
    + intros i k Hi. destruct i; discriminate.
    + reflexivity.
  - inversion Hall as [|? ? Hk Hrest]; subst.
    destruct (enqueue_aligned keys Hal Hk) as (st1 & Hrun & Hal1 & HK1 & Hp1 & Hnew & Hold).
    simpl in Hlen.
    edestruct (IH st1) as (st' & Hrun' & Hal' & HK' & Hp' & Hnew' & Hold').
    { exact Hal1. } { exact Hrest. } { rewrite HK1. lia. }
    destruct Hal as (Hq & [c Hc] & [a Ha] & Hptr).
    assert (HB : 0 < B) by (destruct B; lia).
    assert (Hac : a < c) by nia.
    assert (Hn : length rest < c) by nia.
    assert (Hshift : forall i, (queue_ptr st1 + i * B) mod K st
                               = (queue_ptr st + S i * B) mod K st).
    { intros i. rewrite Hp1, Nat.Div0.add_mod_idemp_l. f_equal. simpl. lia. }
    exists st'. simpl. unfold bind. rewrite Hrun.
    split; [exact Hrun'|]. split; [exact Hal'|].
    split; [congruence|]. split; [|split].
    + rewrite Hp', HK1, Hshift. reflexivity.
    + intros i k Hi d j Hd Hj. destruct i as [|i].
      * simpl in Hi. inversion Hi; subst k.
        rewrite Nat.add_0_r, Nat.mod_small by exact Hptr.
        rewrite <- (Hnew d j Hd Hj). apply Hold'.
        intros i Hi'. rewrite HK1, Hshift, Ha, Hc, block_start.
        pose proof (@other_block a c (S i) Hac (Nat.lt_0_succ i)) as Hne.
        assert (Hlt : (a + S i) mod c < c) by (apply Nat.mod_upper_bound; lia).
        specialize (Hne ltac:(lia)). nia.
      * simpl in Hi. rewrite <- Hshift, <- HK1. now apply Hnew'.
    + intros d col Hout. rewrite Hold'.
      * apply Hold. specialize (Hout 0 (Nat.lt_0_succ _)).
        rewrite Nat.add_0_r, Nat.mod_small in Hout by exact Hptr. exact Hout.
      * intros i Hi. rewrite HK1, Hshift. apply Hout. simpl. lia.
Qed.

(** X3: from an aligned object, [n] successive enqueues of batches of
    [B] keys with [n * B <= K] all return; the [i]-th batch sits in the
    [B] columns from [(ptr + i * B) mod K], every column outside those
    blocks is as before, and [ptr] ends at [(ptr + n * B) mod K]. *)
Theorem enqueue_all_fills_blocks (batches : list (Tensor F)) (B D : nat) st :
  aligned B D st ->
  Forall (fun keys => shape keys = [B; D]) batches ->
  length batches * B <= K st ->
  exists st',
    enqueue_all batches st = (inr tt, st') /\
    queue_ptr st' = (queue_ptr st + length batches * B) mod K st /\
    (forall i keys, nth_error batches i = Some keys ->
       forall d j, d < D -> j < B ->
         at2 (queue st') d ((queue_ptr st + i * B) mod K st + j) = at2 keys j d) /\
    (forall d c,
       (forall i, i < length batches ->
          c < (queue_ptr st + i * B) mod K st \/
          (queue_ptr st + i * B) mod K st + B <= c) ->
       at2 (queue st') d c = at2 (queue st) d c).
Proof.
  intros Hal Hall Hlen.
  destruct (enqueue_all_run Hal Hall Hlen) as (st' & Hrun & _ & _ & Hp & Hnew & Hold).
  exists st'. repeat split; assumption.
Qed.

(** X4: [K / B] successive enqueues from an aligned object replace the
    whole queue: the pointer is back where it started, and every column
    of the queue holds a key of one of these batches. *)
Theorem enqueue_all_full_cycle (batches : list (Tensor F)) (B D : nat) st :
  aligned B D st ->
  Forall (fun keys => shape keys = [B; D]) batches ->
  length batches * B = K st ->
  exists st',
    enqueue_all batches st = (inr tt, st') /\
    queue_ptr st' = queue_ptr st /\
    (forall c, c < K st ->
       exists i j keys,
         nth_error batches i = Some keys /\ j < B /\
         forall d, d < D -> at2 (queue st') d c = at2 keys j d).
Proof.
  intros Hal Hall Hlen.
  destruct (enqueue_all_run Hal Hall) as (st' & Hrun & _ & _ & Hp & Hnew & _);
    [lia|].
  destruct Hal as (Hq & _ & [a Ha] & Hptr).
  exists st'. split; [exact Hrun|]. split.
  - rewrite Hp, Hlen.
    replace (queue_ptr st + K st) with (queue_ptr st + 1 * K st) by lia.
    rewrite Nat.Div0.mod_add. now apply Nat.mod_small.
  - intros c Hc.
    assert (HB : 0 < B) by (destruct B; lia).
    set (n := length batches) in *.
    assert (Hn : 0 < n) by (destruct n; lia).
    assert (Hcb : c / B < n).
    { apply Nat.Div0.div_lt_upper_bound. lia. }
    set (i := (c / B + n - a mod n) mod n).
    assert (Hi : i < n) by (apply Nat.mod_upper_bound; lia).
    destruct (nth_error batches i) as [keys|] eqn:Hnth.
    2:{ apply nth_error_None in Hnth. fold n in Hnth. lia. }
    exists i, (c mod B), keys. split; [exact Hnth|].
    split; [apply Nat.mod_upper_bound; lia|].
    intros d Hd.
    rewrite <- (Hnew i keys Hnth d (c mod B) Hd) by (apply Nat.mod_upper_bound; lia).
    f_equal.
    rewrite Ha, <- Hlen, block_start.
    assert (E : (a + i) mod n = c / B).
    { unfold i. rewrite Nat.Div0.add_mod_idemp_r.
      rewrite <- Nat.Div0.add_mod_idemp_l.
      assert (Ham : a mod n < n) by (apply Nat.mod_upper_bound; lia).
      replace (a mod n + (c / B + n - a mod n)) with (c / B + 1 * n) by lia.
      rewrite Nat.Div0.mod_add. now apply Nat.mod_small. }
    rewrite E. rewrite (Nat.div_mod_eq c B) at 1. lia.
Qed.

(** Any number of enqueues from an aligned object. *)
Lemma enqueue_all_aligned (batches : list (Tensor F)) (B D : nat) : forall st,
  aligned B D st ->
  Forall (fun keys => shape keys = [B; D]) batches ->
  exists st',
    enqueue_all batches st = (inr tt, st') /\
    aligned B D st' /\ K st' = K st /\
    queue_ptr st' = (queue_ptr st + length batches * B) mod K st.
Proof.
  induction batches as [|keys rest IH]; intros st Hal Hall.
  - exists st. simpl. rewrite Nat.add_0_r.
    split; [reflexivity|]. split; [exact Hal|]. split; [reflexivity|].
    destruct Hal as (_ & _ & _ & Hptr). now rewrite Nat.mod_small.
  - inversion Hall as [|? ? Hk Hrest]; subst.
    destruct (enqueue_aligned keys Hal Hk) as (st1 & Hrun & Hal1 & HK1 & Hp1 & _).
    destruct (IH st1 Hal1 Hrest) as (st' & Hrun' & Hal' & HK' & Hp').
    exists st'. simpl. unfold bind. rewrite Hrun.
    split; [exact Hrun'|]. split; [exact Hal'|]. split; [congruence|].
    rewrite Hp', HK1, Hp1, Nat.Div0.add_mod_idemp_l. f_equal. lia.
Qed.

End RingProperties.

(** ** What a call writes, and when *)

Section FrameProperties.
Context {F : Type} {SF : Scalar F}.
Variable Rest : Type.
Variable encoder_call : Tensor F -> M (Encoder F Rest) (Tensor F).
Variable normalize : Tensor F -> nat -> result (Tensor F).
Implicit Types (st : MoCo F Rest) (q k keys : Tensor F).

(** With [K > 0] the only statement of the enqueue that can raise
    after the queue is written, [(ptr + batch_size) % self.K], does
    not. *)
Lemma enqueue_atomic st keys (e : exn) st' :
  0 < K st ->
  _dequeue_and_enqueue_single_gpu keys st = (inl e, st') -> st' = st.
Proof.
  intros HK.
  unfold _dequeue_and_enqueue_single_gpu, bind, lift, gets, modify, py_assert, ret, raise.
  destruct (shape0 keys) as [e0|B]; [now inversion 1|].
  destruct (py_mod (K st) B) as [e0|r]; [now inversion 1|].
  destruct (r =? 0); [|now inversion 1].
  destruct (setitem_cols _ _ _ _) as [e0|q']; [now inversion 1|].
  cbn [queue_ptr K set_queue]. rewrite (py_mod_pos _ HK). discriminate.
Qed.

(** X5: an enqueue that raises on an object with [K > 0] has written
    nothing: the object is as the call found it. *)
Theorem enqueue_raise_writes_nothing st keys (e : exn) st' :
  0 < K st ->
  _dequeue_and_enqueue_single_gpu keys st = (inl e, st') -> st' = st.
Proof. apply enqueue_atomic. Qed.

(** X6: on an object with [K = 0] every enqueue raises: the batch size
    is 0 and [K % 0] raises, or the [assert] passes ([0 % B = 0]) and
    the slice assignment or [(ptr + B) % 0] raises. *)
Theorem enqueue_zero_capacity_raises st keys :
  K st = 0 ->
  exists e st', _dequeue_and_enqueue_single_gpu keys st = (inl e, st').
Proof.
  intros HK.
  unfold _dequeue_and_enqueue_single_gpu, bind, lift, gets, modify, py_assert, ret, raise.
  destruct (shape0 keys) as [e0|B]; [now eexists; eexists|].
  destruct (py_mod (K st) B) as [e0|r]; [now eexists; eexists|].
  destruct (r =? 0); [|now eexists; eexists].
  destruct (setitem_cols _ _ _ _) as [e0|q']; [now eexists; eexists|].
  cbn [queue_ptr K set_queue]. rewrite HK. unfold py_mod. cbn [Nat.eqb].
  now eexists; eexists.
Qed.

(** Scoring, when it returns: the shape of the logits. *)
Lemma contrast_shape q k st (logits : Tensor F) st1 :
  contrast q k st = (inr logits, st1) ->
  exists n c kq, shape (queue st) = [c; kq] /\ shape logits = [n; 1 + kq].
Proof.
  unfold contrast, bind, lift, gets, ret, einsum_nc_nc_n, einsum_nc_ck_nk, cat_dim1.
  destruct (shape q) as [|na [|ca [|? ?]]]; try discriminate.
  destruct (shape k) as [|nb [|cb [|? ?]]]; try discriminate.
  destruct (einsum_dim na nb) as [e|n]; [discriminate|].
  destruct (einsum_dim ca cb) as [e|c]; [discriminate|].
  destruct (shape (queue st)) as [|c' [|kq [|? ?]]]; try discriminate.
  destruct (einsum_dim ca c') as [e|c'']; [discriminate|].
  cbn [shape unsqueeze_last app].
  destruct (n =? na); [|discriminate].
  intros H; inversion H; subst. now exists n, c', kq.
Qed.

(** X7: whatever the images and the encoders, a forward call that
    returns gives logits of [1 + k] columns, where [k] is the number of
    columns of the queue, and as many labels, all zero, as the logits
    have rows. *)
Theorem forward_result_shape (rng : nat -> list nat) (im_q im_k : Tensor F) st
  (logits : Tensor F) (labels : list Z) st' :
  forward encoder_call normalize rng im_q im_k st = (inr (logits, labels), st') ->
  exists n c kq,
    shape (queue st) = [c; kq] /\
    shape logits = [n; 1 + kq] /\
    labels = repeat 0%Z n.
Proof.
  intros H.
  destruct (forward_returns _ _ _ _ _ _ H)
    as (q & st1 & k & st2 & n & _ & _ & EQ & _ & Hc & Hn & Hl & _).
  destruct (contrast_shape _ _ _ Hc) as (n' & c & kq & Hq & Hs).
  unfold shape0 in Hn. rewrite Hs in Hn. inversion Hn; subst n'.
  exists n, c, kq. rewrite <- EQ. repeat split; assumption.
Qed.

(** The enqueue writes the queue and [ptr], nothing else. *)
Lemma enqueue_frame st keys (r : result unit) st' :
  _dequeue_and_enqueue_single_gpu keys st = (r, st') ->
  K st' = K st /\ m st' = m st /\ T st' = T st /\
  encoder_q st' = encoder_q st /\ encoder_k st' = encoder_k st.
Proof.
  unfold _dequeue_and_enqueue_single_gpu, bind, lift, gets, modify, py_assert, ret, raise.
  destruct (shape0 keys) as [e0|B]; [inversion 1; subst; tauto|].
  destruct (py_mod (K st) B) as [e0|r0]; [inversion 1; subst; tauto|].
  destruct (r0 =? 0); [|inversion 1; subst; tauto].
  destruct (setitem_cols _ _ _ _) as [e0|q']; [inversion 1; subst; tauto|].
  destruct (py_mod _ _); inversion 1; subst; cbn; tauto.
Qed.

(** The object a forward call leaves is the one the query encoder's
    pass left, or the key encoder's, or the enqueue's. *)
Lemma forward_steps (rng : nat -> list nat) (im_q im_k : Tensor F) st
  (out : result (Tensor F * list Z) * MoCo F Rest) :
  forward encoder_call normalize rng im_q im_k st = out ->
  exists e2,
    let st1 := set_encoder_q (snd (encoder_call im_q (encoder_q st))) st in
    let st2 := set_encoder_k e2 st1 in
    snd out = st1 \/ snd out = st2 \/
    exists k r, _dequeue_and_enqueue_single_gpu k st2 = (r, snd out) /\
                is_ok r = is_ok (fst out).
Proof.
  unfold forward, bind at 1.
  destruct (query_features _ _ _ st) as [r1 st1] eqn:HQF.
  assert (E1 : st1 = set_encoder_q (snd (encoder_call im_q (encoder_q st))) st).
  { revert HQF. unfold query_features, bind, on_encoder_q, lift.
    destruct (encoder_call im_q (encoder_q st)) as [[e|q] enc]; intros H;
      inversion H; reflexivity. }
  destruct r1 as [e|q]; [intros <-; exists (encoder_k st); cbn; tauto|].
  unfold bind at 1.
  destruct (key_features _ _ _ _ st1) as [[e|k] st2] eqn:HKF;
    (edestruct key_features_frame as [e2 E2]; [exact HKF|]);
    [intros <-; exists e2; rewrite <- E1, <- E2; cbn; tauto|].
  unfold bind at 1. pose proof (contrast_state q k st2) as Hst.
  destruct (contrast q k st2) as [[e|lg] s3]; simpl in Hst; subst s3;
    [intros <-; exists e2; rewrite <- E1, <- E2; cbn; tauto|].
  unfold bind at 1, lift.
  destruct (shape0 lg) as [e|n];
    [intros <-; exists e2; rewrite <- E1, <- E2; cbn; tauto|].
  unfold bind, ret. intros <-. exists e2; rewrite <- E1, <- E2.
  right; right. exists k.
  destruct (_dequeue_and_enqueue_single_gpu k st2) as [[e|[]] s4] eqn:He;
    eexists; split; reflexivity.
Qed.

(** X8: a forward call, whether it returns or raises, never writes
    [K], [m] or [T], and leaves the query encoder as the pass of
    [encoder_q] over [im_q] left it: the momentum update and the key
    pass write the key encoder only. *)
Theorem forward_keeps_settings (rng : nat -> list nat) (im_q im_k : Tensor F) st :
  K (snd (forward encoder_call normalize rng im_q im_k st)) = K st /\
  m (snd (forward encoder_call normalize rng im_q im_k st)) = m st /\
  T (snd (forward encoder_call normalize rng im_q im_k st)) = T st /\
  encoder_q (snd (forward encoder_call normalize rng im_q im_k st))
    = snd (encoder_call im_q (encoder_q st)).
Proof.
  destruct (forward_steps rng im_q im_k st eq_refl) as [e2 [H|[H|(k & r & H & _)]]].
  - rewrite H. repeat split.
  - rewrite H. repeat split.
  - apply enqueue_frame in H. destruct H as (HK & Hm & HT & Hq & _).
    rewrite HK, Hm, HT, Hq. repeat split.
Qed.

(** X9: a forward call that raises on an object with [K > 0] leaves
    the queue and [ptr] as they were, wherever it raised. *)
Theorem forward_raise_keeps_queue (rng : nat -> list nat) (im_q im_k : Tensor F) st
  (e : exn) st' :
  0 < K st ->
  forward encoder_call normalize rng im_q im_k st = (inl e, st') ->
  queue st' = queue st /\ queue_ptr st' = queue_ptr st.
Proof.
  intros HK Hrun.
  destruct (forward_steps rng im_q im_k st Hrun) as [e2 H].
  cbn [snd fst is_ok] in H.
  destruct H as [H|[H|(k & r & H & Hr)]]; try (subst st'; split; reflexivity).
  destruct r as [e'|[]]; [|discriminate].
  apply enqueue_atomic in H; [|exact HK]. subst st'. split; reflexivity.
Qed.

End FrameProperties.

(** ** More on the momentum update *)

Section MomentumLoop.
Context {F : Type} {SF : Scalar F}.
Variable Rest : Type.
Implicit Types (st : MoCo F Rest) (q k : Tensor F).

Lemma momentum_zip_length (c : F) (ps_q ps_k : list (Tensor F)) :
  length (snd (momentum_zip c ps_q ps_k)) = length ps_k.
Proof.
  revert ps_k; induction ps_q as [|q qs IH]; intros [|k ks]; simpl; try reflexivity.
  destruct (tensor_add _ _) as [e|new_k]; [reflexivity|].
  specialize (IH ks). destruct (momentum_zip c qs ks) as [r ks']. simpl in *.
  now rewrite IH.
Qed.

Lemma momentum_zip_tail (c : F) (ps_q ps_k : list (Tensor F)) (i : nat) :
  length ps_q <= i ->
  nth_error (snd (momentum_zip c ps_q ps_k)) i = nth_error ps_k i.
Proof.
  revert ps_k i; induction ps_q as [|q qs IH]; intros [|k ks] i Hi; simpl; try reflexivity.
  destruct (tensor_add _ _) as [e|new_k]; [reflexivity|].
  specialize (IH ks). destruct (momentum_zip c qs ks) as [r ks']. simpl in *.
  destruct i as [|i]; [lia|]. simpl. apply IH. lia.
Qed.

(** X10: the momentum update, whether it returns or raises, writes the
    parameters of the key encoder and nothing else; the key encoder
    keeps its number of parameters, and those beyond the number of
    query parameters are untouched ([zip] stops at the shorter list). *)
Theorem momentum_update_frame st :
  exists ps,
    snd (_momentum_update_key_encoder st)
      = set_encoder_k (set_parameters ps (encoder_k st)) st /\
    length ps = length (parameters (encoder_k st)) /\
    forall i, length (parameters (encoder_q st)) <= i ->
      nth_error ps i = nth_error (parameters (encoder_k st)) i.
Proof.
  unfold _momentum_update_key_encoder.
  pose proof (momentum_zip_length (m st) (parameters (encoder_q st))
                (parameters (encoder_k st))) as Hlen.
  pose proof (momentum_zip_tail (m st) (parameters (encoder_q st))
                (parameters (encoder_k st))) as Htail.
  destruct (momentum_zip _ _ _) as [r ps]. simpl in *.
  exists ps. split; [reflexivity|]. split; assumption.
Qed.

(** X11: the loop is not all-or-nothing.  When the first pair of
    parameters whose shapes do not broadcast comes after pairs of equal
    shapes, the update raises with those earlier key parameters already
    replaced by [k * m + q * (1 - m)], and the rest as they were. *)
Theorem momentum_update_stops_midway (c : F) (qs1 ks1 qs2 ks2 : list (Tensor F)) q k
  (e : exn) :
  Forall2 (fun q k => shape q = shape k) qs1 ks1 ->
  broadcast_shapes (shape k) (shape q) = inl e ->
  exists ks1',
    momentum_zip c (qs1 ++ q :: qs2) (ks1 ++ k :: ks2) = (inl e, ks1' ++ k :: ks2) /\
    Forall2 (fun qk k' => momentum_rule c (fst qk) (snd qk) k') (combine qs1 ks1) ks1'.
Proof.
  intros H Hbad. induction H as [|q0 k0 qs ks Hqk _ (ks' & Hz & IH)]; simpl.
  - exists []. split; [|constructor].
    unfold tensor_add. cbn [shape scale]. now rewrite Hbad.
  - destruct (@momentum_step _ _ c q0 k0 Hqk) as (k' & Hadd & Hrule).
    rewrite Hadd, Hz. exists (k' :: ks'). split; [reflexivity|].
    constructor; assumption.
Qed.

(** X12: line 98 assigns [param_k.data], it does not copy into it: a
    key parameter of one element paired with a query parameter of [n]
    elements comes out of the update with [n] elements,
    [k[0] * m + q[i] * (1 - m)]. *)
Theorem momentum_update_can_reshape (c : F) q k (n : nat) :
  shape k = [1] -> shape q = [n] ->
  exists k',
    momentum_zip c [q] [k] = (inr tt, [k']) /\
    shape k' = [n] /\
    forall i, i < n ->
      at1 k' i = add (mul (at1 k 0) c) (mul (at1 q i) (sub one c)).
Proof.
  intros Hk Hq.
  assert (Hb : broadcast_shapes [1] [n] = inr [n]).
  { unfold broadcast_shapes; simpl. destruct n as [|[|n']]; reflexivity. }
  unfold momentum_zip, tensor_add. cbn [shape scale]. rewrite Hk, Hq, Hb.
  eexists; split; [reflexivity|]. split; [reflexivity|].
  intros i Hi. unfold at1. cbn [data scale]. unfold expand_index.
  cbn [length Nat.sub repeat skipn map2 app Nat.eqb].
  destruct (Nat.eqb_spec n 1) as [E|_]; [|reflexivity].
  assert (i = 0) by lia. subst i. reflexivity.
Qed.

End MomentumLoop.

(** ** More on construction *)

Section ConstructionLoop.
Context {F : Type} {SF : Scalar F}.
Variable Rest : Type.
Variable Rng : Type.
Variable randn : list nat -> M Rng (Tensor F).
Variable factory : nat -> NormLayer (F := F) -> M Rng (Encoder F Rest).
Variable replace_conv1 : nat -> Encoder F Rest -> M Rng (Encoder F Rest).
Variable add_mlp : Encoder F Rest -> M Rng (Encoder F Rest).
Variable normalize : Tensor F -> nat -> result (Tensor F).

Lemma copy_zip_copies (ps_q ps_k ps_k' : list (Tensor F)) :
  copy_zip ps_q ps_k = inr ps_k' ->
  forall i q k', nth_error ps_q i = Some q -> nth_error ps_k' i = Some k' ->
    shape q = shape k' ->
    forall idx, in_range idx (shape q) -> data k' idx = data q idx.
Proof.
  revert ps_k ps_k'; induction ps_q as [|q0 qs IH]; intros [|k0 ks] ps_k' H i q k' Hq Hk' Hs;
    simpl in H.
  - destruct i; discriminate.
  - destruct i; discriminate.
  - inversion H; subst. destruct i; discriminate.
  - unfold copy_ in H.
    destruct (_ && _); [|discriminate].
    destruct (copy_zip qs ks) as [e|ks'] eqn:Hz; [discriminate|].
    inversion H; subst ps_k'. destruct i as [|i]; simpl in Hq, Hk'.
    + inversion Hq; inversion Hk'; subst. intros idx Hidx. cbn [data].
      now rewrite expand_index_in_range.
    + eapply IH; eassumption.
Qed.

(** The parameter lists of the object construction returns. *)
Lemma init_parameters (dim capacity : nat) (c t : F) (mlp : bool) (bands : String.string)
  (g g' : Rng) (st : MoCo F Rest) :
  MoCo_init randn factory replace_conv1 add_mlp normalize dim capacity c t mlp bands g
    = (inr st, g') ->
  exists ps_k0,
    copy_zip (parameters (encoder_q st)) ps_k0 = inr (parameters (encoder_k st)).
Proof.
  unfold MoCo_init, bind, lift, ret. intros H.
  repeat match type of H with
         | context [match ?x with _ => _ end] => destruct x eqn:?; try discriminate
         end.
  inversion H; subst; simpl.
  eexists; eassumption.
Qed.

(** X13: in the object construction returns, every key parameter that
    has the shape of the query parameter at its position holds the
    same elements: lines 82-84 copied them. *)
Theorem init_copies_query_parameters (dim capacity : nat) (c t : F) (mlp : bool)
  (bands : String.string) (g g' : Rng) (st : MoCo F Rest) :
  MoCo_init randn factory replace_conv1 add_mlp normalize dim capacity c t mlp bands g
    = (inr st, g') ->
  forall i q k, nth_error (parameters (encoder_q st)) i = Some q ->
    nth_error (parameters (encoder_k st)) i = Some k ->
    shape q = shape k ->
    forall idx, in_range idx (shape q) -> data k idx = data q idx.
Proof.
  intros Hinit. destruct (init_parameters _ _ _ _ _ _ _ Hinit) as [ps_k0 Hz].
  exact (copy_zip_copies _ _ Hz).
Qed.

(** X14: construction and the enqueue fit together.  With a [randn]
    that draws the size asked for and a [normalize] that keeps the
    shape, the object built with [K > 0] takes any number of batches of
    [B] keys of [dim] components, [B] a divisor of [K], one after the
    other: no enqueue raises, and [ptr] ends at [n * B mod K]. *)
Theorem fresh_object_takes_batches (dim capacity : nat) (c t : F) (mlp : bool)
  (bands : String.string) (g g' : Rng) (st : MoCo F Rest)
  (B : nat) (batches : list (Tensor F)) :
  (forall s g1 raw g2, randn s g1 = (inr raw, g2) -> shape raw = s) ->
  (forall x d y, normalize x d = inr y -> shape y = shape x) ->
  MoCo_init randn factory replace_conv1 add_mlp normalize dim capacity c t mlp bands g
    = (inr st, g') ->
  0 < capacity -> Nat.divide B capacity ->
  Forall (fun keys => shape keys = [B; dim]) batches ->
  exists st',
    enqueue_all batches st = (inr tt, st') /\
    queue_ptr st' = (length batches * B) mod capacity.
Proof.
  intros Hrandn Hnorm Hinit Hcap Hdiv Hall.
  destruct (init_fields _ _ _ _ _ _ _ _ _ _ _ _ Hinit)
    as (raw & g1 & g2 & Hraw & Hn & Hptr & HK & _ & _).
  assert (Hal : aligned B dim st).
  { unfold aligned. rewrite HK, Hptr, (Hnorm _ _ _ Hn), (Hrandn _ _ _ _ Hraw).
    repeat split; try assumption. exists 0; reflexivity. }
  destruct (enqueue_all_aligned Hal Hall) as (st' & Hrun & _ & _ & Hp).
  exists st'. split; [exact Hrun|]. now rewrite Hp, Hptr, HK.
Qed.

End ConstructionLoop.

(** ** More on the shuffle *)

Section ShuffleIndex.
Context {F : Type}.
Implicit Types (x : Tensor F).

Lemma argsort_permutation (p : list nat) (n : nat) :
  Permutation p (seq 0 n) -> Permutation (argsort p) (seq 0 n).
Proof.
  intros Hp.
  assert (Hlen : length p = n).
  { rewrite (Permutation_length Hp). apply length_seq. }
  apply NoDup_Permutation_bis.
  - apply (proj2 (NoDup_nth (argsort p) 0)).
    rewrite argsort_length, Hlen. intros i j Hi Hj E.
    rewrite <- (argsort_inverse Hp Hi), <- (argsort_inverse Hp Hj). now rewrite E.
  - now rewrite length_seq, argsort_length, Hlen.
  - intros i Hi. apply argsort_in_bounds in Hi. apply in_seq. lia.
Qed.

Lemma argsort_left_inverse (p : list nat) (n i : nat) :
  Permutation p (seq 0 n) -> i < n -> nth (nth i p 0) (argsort p) 0 = i.
Proof.
  intros Hp Hi.
  assert (Hlen : length p = n).
  { rewrite (Permutation_length Hp). apply length_seq. }
  assert (Hpi : nth i p 0 < n).
  { assert (H : In (nth i p 0) p) by (apply nth_In; lia).
    apply (Permutation_in _ Hp) in H. apply in_seq in H. lia. }
  assert (Hnd : NoDup p).
  { apply (Permutation_NoDup (Permutation_sym Hp)), seq_NoDup. }
  apply (proj1 (NoDup_nth p 0) Hnd); try lia.
  - assert (H : In (nth (nth i p 0) (argsort p) 0) (argsort p)).
    { apply nth_In. rewrite argsort_length. lia. }
    apply argsort_in_bounds in H. exact H.
  - now apply argsort_inverse with (n := n).
Qed.

(** X18: for a draw that is a permutation of [0 .. n-1], the index
    [idx_unshuffle] that the shuffle returns is again a permutation of
    [0 .. n-1] (unshuffling drops no row and repeats none), it sends
    [idx_shuffle[i]] back to [i], and row [i] of the shuffled batch is
    row [idx_shuffle[i]] of the batch. *)
Theorem shuffle_returns_inverse_permutation (randperm : nat -> list nat) x
  (n : nat) (rest : list nat) :
  shape x = n :: rest ->
  Permutation (randperm n) (seq 0 n) ->
  exists x' idx_unshuffle,
    _batch_shuffle_single_gpu randperm x = inr (x', idx_unshuffle) /\
    shape x' = n :: rest /\
    Permutation idx_unshuffle (seq 0 n) /\
    (forall i, i < n -> nth (nth i (randperm n) 0) idx_unshuffle 0 = i) /\
    (forall i r, data x' (i :: r) = data x (nth i (randperm n) 0 :: r)).
Proof.
  intros Hs Hp.
  assert (Hlen : length (randperm n) = n).
  { rewrite (Permutation_length Hp). apply length_seq. }
  assert (Hb : forall i, In i (randperm n) -> i < n).
  { intros i Hi. apply (Permutation_in _ Hp) in Hi. apply in_seq in Hi. lia. }
  unfold _batch_shuffle_single_gpu, shape0.
  rewrite Hs. rewrite (index_select0_ok x (randperm n) Hs Hb).
  eexists _, _. split; [reflexivity|]. cbn [shape data].
  split; [now rewrite Hlen|]. split; [now apply argsort_permutation|].
  split; [|reflexivity].
  intros i Hi. now apply argsort_left_inverse with (n := n).
Qed.

End ShuffleIndex.

(** ** The split of the batch in [SplitBatchNorm.forward] *)

Section SplitLayout.
Context {F : Type} {SF : Scalar F}.
Implicit Types (input t : Tensor F).

Lemma ravel_lt (s idx : list nat) : in_range idx s -> ravel s idx < numel s.
Proof.
  intros H; induction H as [|i d idx s Hi _ IH]; simpl; [lia|].
  unfold numel in *. nia.
Qed.

Lemma unravel_ravel (s idx : list nat) : in_range idx s -> unravel s (ravel s idx) = idx.
Proof.
  intros H; induction H as [|i d idx s Hi Hrest IH]; [reflexivity|].
  pose proof (ravel_lt Hrest) as Hlt. unfold numel in Hlt.
  cbn [ravel unravel].
  set (P := fold_right Nat.mul 1 s) in *.
  rewrite Nat.div_add_l by lia.
  rewrite (Nat.div_small _ _ Hlt), Nat.add_0_r.
  rewrite Nat.add_comm, Nat.Div0.mod_add, (Nat.mod_small _ _ Hlt).
  now rewrite IH.
Qed.

(** [input.view(-1, C * S, H, W)] of a batch of [a * S] samples. *)
Lemma view_infer_split input (a S_ C H W : nat) :
  shape input = [a * S_; C; H; W] ->
  0 < S_ -> 0 < C -> 0 < H -> 0 < W ->
  exists x,
    view_infer input [C * S_; H; W] = inr x /\
    shape x = [a; C * S_; H; W] /\
    forall n j c h w, n < a -> j < S_ -> c < C -> h < H -> w < W ->
      data x [n; j * C + c; h; w] = data input [n * S_ + j; c; h; w].
Proof.
  intros Hs HS HC HH HW.
  assert (Hnum : numel [a * S_; C; H; W] = a * numel [C * S_; H; W]).
  { unfold numel; simpl. ring. }
  assert (Hpos : 0 < numel [C * S_; H; W]).
  { unfold numel; simpl. rewrite !Nat.mul_1_r.
    repeat apply Nat.mul_pos_pos; assumption. }
  unfold view_infer. rewrite Hs, Hnum.
  destruct (Nat.eqb_spec (numel [C * S_; H; W]) 0) as [E|_]; [lia|].
  rewrite Nat.Div0.mod_mul, Nat.eqb_refl, Nat.div_mul by lia.
  unfold view. rewrite Hs.
  assert (E : numel (a :: [C * S_; H; W]) = numel [a * S_; C; H; W]).
  { rewrite Hnum. reflexivity. }
  rewrite E, Nat.eqb_refl.
  eexists; split; [reflexivity|]. split; [reflexivity|].
  intros n j c h w Hn Hj Hc Hh Hw. cbn [data].
  assert (Hin : in_range [n * S_ + j; c; h; w] [a * S_; C; H; W]).
  { repeat constructor; try assumption. nia. }
  f_equal. rewrite <- (unravel_ravel Hin). f_equal.
  simpl. ring.
Qed.

(** [t.repeat(S)] of a vector of [C] elements tiles it. *)
Lemma repeat1_tiles t (C S_ : nat) :
  shape t = [C] ->
  exists r,
    repeat1 t S_ = inr r /\ shape r = [C * S_] /\
    forall j c, c < C -> at1 r (j * C + c) = at1 t c.
Proof.
  intros Hs. unfold repeat1. rewrite Hs.
  eexists; split; [reflexivity|]. split; [reflexivity|].
  intros j c Hc. unfold at1. cbn [data hd].
  now rewrite Nat.add_comm, Nat.Div0.mod_add, Nat.mod_small.
Qed.

End SplitLayout.

Section SplitForward.
Context {F : Type} {SF : Scalar F}.
Variable batch_norm :
  Tensor F -> option (Tensor F) -> option (Tensor F) ->
  option (Tensor F) -> option (Tensor F) -> bool -> option F -> F ->
  result (Tensor F * option (Tensor F) * option (Tensor F)).
Implicit Types (l : SplitBatchNorm F) (input : Tensor F).

(** Lines 22-23: the statistics of the [S] splits, averaged into the
    buffer of [C] elements. *)
Lemma averaged_over_splits (old stats : Tensor F) (C S_ : nat) :
  shape old = [C] -> shape stats = [C * S_] ->
  exists v mn new,
    view stats [S_; C] = inr v /\ mean_dim0 v = inr mn /\ copy_ old mn = inr new /\
    shape new = [C] /\
    forall c, c < C ->
      at1 new c = div (fold_left (fun acc j => add acc (at1 stats (j * C + c)))
                                 (seq 0 S_) zero)
                      (of_nat S_).
Proof.
  intros Ho Hs. unfold view. rewrite Hs.
  assert (E : numel [S_; C] = numel [C * S_]) by (unfold numel; simpl; ring).
  rewrite E, Nat.eqb_refl.
  eexists _, _, _. split; [reflexivity|].
  unfold mean_dim0. cbn [shape]. split; [reflexivity|].
  unfold copy_. cbn [shape]. rewrite Ho, expandable_refl, Nat.leb_refl. cbn [andb].
  split; [reflexivity|]. split; [reflexivity|].
  intros c Hc. unfold at1 at 1. cbn [data].
  rewrite expand_index_in_range by (repeat constructor; exact Hc).
  cbn [hd]. f_equal. apply fold_left_add_ext. intros j _.
  unfold at2, at1. cbn [data unravel ravel fold_right].
  rewrite Nat.div_1_r. f_equal. f_equal. lia.
Qed.

(** X19: how lines 16-21 split the batch.  For a layer in training
    mode with buffers and affine parameters of [C] elements and a batch
    of [a * S] samples, when [input.view(-1, C * S, H, W)] returns, it
    is a batch of [a] samples of [C * S] channels, and channel
    [j * C + c] of its sample [n] is channel [c] of sample [n * S + j]:
    split [j] is made of the samples whose index is [j] modulo [S], not
    of a contiguous block.  The repeated statistics and affine
    parameters put those of channel [c] at every [j * C + c].  These
    are what [batch_norm] is called on: an exception it raises is the
    exception of [forward], and the layer is left as it was. *)
Theorem split_is_strided input l (a S_ C H W : nat)
  (rm rv w b x rm_s rv_s w_s b_s : Tensor F) :
  shape input = [a * S_; C; H; W] ->
  training l = true -> num_splits l = S_ ->
  running_mean l = Some rm -> running_var l = Some rv ->
  weight l = Some w -> bias l = Some b ->
  shape rm = [C] -> shape rv = [C] -> shape w = [C] -> shape b = [C] ->
  0 < S_ -> 0 < C -> 0 < H -> 0 < W ->
  view_infer input [C * S_; H; W] = inr x ->
  repeat1 rm S_ = inr rm_s -> repeat1 rv S_ = inr rv_s ->
  repeat1 w S_ = inr w_s -> repeat1 b S_ = inr b_s ->
  shape x = [a; C * S_; H; W] /\
  (forall n j c h w0, n < a -> j < S_ -> c < C -> h < H -> w0 < W ->
     data x [n; j * C + c; h; w0] = data input [n * S_ + j; c; h; w0]) /\
  (forall j c, c < C ->
     at1 rm_s (j * C + c) = at1 rm c /\ at1 rv_s (j * C + c) = at1 rv c /\
     at1 w_s (j * C + c) = at1 w c /\ at1 b_s (j * C + c) = at1 b c) /\
  (forall e,
     batch_norm x (Some rm_s) (Some rv_s) (Some w_s) (Some b_s) true (momentum l) (eps l)
       = inl e ->
     SplitBatchNorm_forward batch_norm input l = (inl e, l)).
Proof.
  intros Hs Htr HS Hrm Hrv Hw Hb Srm Srv Sw Sb PS PC PH PW Hx Erm Erv Ew Eb.
  destruct (view_infer_split input a Hs PS PC PH PW) as (x' & Hx' & Hsx & Hdx).
  rewrite Hx in Hx'. inversion Hx'; subst x'.
  destruct (repeat1_tiles rm S_ Srm) as (r1 & E1 & _ & T1).
  destruct (repeat1_tiles rv S_ Srv) as (r2 & E2 & _ & T2).
  destruct (repeat1_tiles w S_ Sw) as (r3 & E3 & _ & T3).
  destruct (repeat1_tiles b S_ Sb) as (r4 & E4 & _ & T4).
  rewrite Erm in E1. rewrite Erv in E2. rewrite Ew in E3. rewrite Eb in E4.
  inversion E1; inversion E2; inversion E3; inversion E4; subst r1 r2 r3 r4.
  split; [exact Hsx|]. split; [exact Hdx|]. split.
  - intros j c Hc. repeat split; auto.
  - intros e Hbn.
    rewrite (forward_branch batch_norm input l Hs), Htr. cbn [orb].
    unfold forward_split, bind, gets, lift, attr, ret, modify.
    rewrite Hrm, Hrv, Hw, Hb, HS. cbn [ret].
    now rewrite Erm, Erv, Hx, Ew, Eb, Hbn.
Qed.

(** X20: the split branch, relative to [batch_norm].  For a layer in
    training mode with buffers and affine parameters of [C] elements
    and a batch of [a * S] samples, whenever [batch_norm] returns on
    the split batch ([a] samples of [C * S] channels, with the repeated
    statistics), [forward] returns; sample [n * S + j], channel [c] of
    its output is sample [n], channel [j * C + c] of [batch_norm]'s;
    and each running statistic is left as the mean, over the [S]
    splits, of what [batch_norm] left at [j * C + c]. *)
Theorem split_forward_averages input l (a S_ C H W : nat)
  (rm rv w b x rm_s rv_s w_s b_s y rms' rvs' : Tensor F) :
  shape input = [a * S_; C; H; W] ->
  training l = true -> num_splits l = S_ ->
  running_mean l = Some rm -> running_var l = Some rv ->
  weight l = Some w -> bias l = Some b ->
  shape rm = [C] -> shape rv = [C] -> shape w = [C] -> shape b = [C] ->
  0 < S_ -> 0 < C -> 0 < H -> 0 < W ->
  view_infer input [C * S_; H; W] = inr x ->
  repeat1 rm S_ = inr rm_s -> repeat1 rv S_ = inr rv_s ->
  repeat1 w S_ = inr w_s -> repeat1 b S_ = inr b_s ->
  batch_norm x (Some rm_s) (Some rv_s) (Some w_s) (Some b_s) true (momentum l) (eps l)
    = inr (y, Some rms', Some rvs') ->
  shape y = [a; C * S_; H; W] -> shape rms' = [C * S_] -> shape rvs' = [C * S_] ->
  exists out new_rm new_rv,
    SplitBatchNorm_forward batch_norm input l =
      (inr out, set_running_var (Some new_rv) (set_running_mean (Some new_rm) l)) /\
    shape out = [a * S_; C; H; W] /\
    (forall n j c h w0, n < a -> j < S_ -> c < C -> h < H -> w0 < W ->
       data out [n * S_ + j; c; h; w0] = data y [n; j * C + c; h; w0]) /\
    shape new_rm = [C] /\ shape new_rv = [C] /\
    (forall c, c < C ->
       at1 new_rm c = div (fold_left (fun acc j => add acc (at1 rms' (j * C + c)))
                                     (seq 0 S_) zero) (of_nat S_)) /\
    (forall c, c < C ->
       at1 new_rv c = div (fold_left (fun acc j => add acc (at1 rvs' (j * C + c)))
                                     (seq 0 S_) zero) (of_nat S_)).
Proof.
  intros Hs Htr HS Hrm Hrv Hw Hb Srm Srv Sw Sb PS PC PH PW Hx Erm Erv Ew Eb Hbn Sy Srms Srvs.
  destruct (averaged_over_splits rm rms' S_ Srm Srms) as (v1 & mn1 & new_rm & V1 & M1 & C1 & N1 & A1).
  destruct (averaged_over_splits rv rvs' S_ Srv Srvs) as (v2 & mn2 & new_rv & V2 & M2 & C2 & N2 & A2).
  assert (Hview : exists out, view y [a * S_; C; H; W] = inr out /\
            shape out = [a * S_; C; H; W] /\
            forall n j c h w0, n < a -> j < S_ -> c < C -> h < H -> w0 < W ->
              data out [n * S_ + j; c; h; w0] = data y [n; j * C + c; h; w0]).
  { unfold view. rewrite Sy.
    assert (E : numel [a * S_; C; H; W] = numel [a; C * S_; H; W])
      by (unfold numel; simpl; ring).
    rewrite E, Nat.eqb_refl. eexists; split; [reflexivity|]. split; [reflexivity|].
    intros n j c h w0 Hn Hj Hc Hh Hw0. cbn [data].
    assert (Hin : in_range [n; j * C + c; h; w0] [a; C * S_; H; W]).
    { repeat constructor; try assumption. nia. }
    f_equal. rewrite <- (unravel_ravel Hin). f_equal. simpl. ring. }
  destruct Hview as (out & Vy & Sout & Dout).
  exists out, new_rm, new_rv.
  split; [|repeat split; assumption].
  rewrite (forward_branch batch_norm input l Hs), Htr. cbn [orb].
  unfold forward_split, bind, gets, lift, attr, ret, modify.
  rewrite Hrm, Hrv, Hw, Hb, HS. cbn [ret].
  rewrite Erm, Erv, Hx, Ew, Eb, Hbn. cbn [fst snd].
  rewrite Vy, V1, M1, C1. cbn [fst snd running_var set_running_mean].
  now rewrite V2, M2, C2.
Qed.

(** X21: a batch whose size [N] is not a multiple of [num_splits]
    cannot be split: in training mode, on a layer that has its running
    statistics, [forward] raises [RuntimeError] (from [repeat] if a
    buffer is not a vector, else from [view]) and the layer is left as
    it was. *)
Theorem split_rejects_indivisible_batch input l (N C H W : nat) (rm rv : Tensor F) :
  shape input = [N; C; H; W] ->
  training l = true ->
  running_mean l = Some rm -> running_var l = Some rv ->
  0 < C -> 0 < H -> 0 < W ->
  ~ Nat.divide (num_splits l) N ->
  SplitBatchNorm_forward batch_norm input l = (inl RuntimeError, l).
Proof.
  intros Hs Htr Hrm Hrv PC PH PW Hnd.
  rewrite (forward_branch batch_norm input l Hs), Htr. cbn [orb].
  unfold forward_split, bind, gets, lift, attr, ret, modify.
  rewrite Hrm, Hrv.
  assert (Hrep : forall t : Tensor F, repeat1 t (num_splits l) = inl RuntimeError \/
                                      exists r, repeat1 t (num_splits l) = inr r).
  { intros t. unfold repeat1. destruct (shape t) as [|? [|? ?]]; eauto. }
  destruct (Hrep rm) as [E|[r1 E]]; rewrite E; [reflexivity|].
  destruct (Hrep rv) as [E'|[r2 E']]; rewrite E'; [reflexivity|].
  assert (Hv : view_infer input [C * num_splits l; H; W] = inl RuntimeError).
  { unfold view_infer. rewrite Hs.
    destruct (Nat.eqb_spec (numel [C * num_splits l; H; W]) 0) as [|Hne]; [reflexivity|].
    destruct (Nat.eqb_spec (numel [N; C; H; W] mod numel [C * num_splits l; H; W]) 0)
      as [Hm|]; [|reflexivity].
    exfalso. apply Hnd. apply Nat.Lcm0.mod_divide in Hm. destruct Hm as [k Hk].
    exists k. unfold numel in Hk; simpl in Hk. rewrite !Nat.mul_1_r in Hk.
    apply (proj1 (Nat.mul_cancel_r N (k * num_splits l) (C * (H * W))
                    ltac:(apply Nat.neq_mul_0; split; [lia|apply Nat.neq_mul_0; lia]))).
    rewrite Hk. ring. }
  now rewrite Hv.
Qed.

(** X22: the split branch needs all four of [running_mean],
    [running_var], [weight] and [bias]: on a layer in training mode
    that lacks one of them (as a layer built with [affine=False] or
    [track_running_stats=False] does), [forward] raises on every input
    and leaves the layer as it was. *)
Theorem split_needs_buffers input l :
  training l = true ->
  running_mean l = None \/ running_var l = None \/ weight l = None \/ bias l = None ->
  exists e, SplitBatchNorm_forward batch_norm input l = (inl e, l).
Proof.
  intros Htr Hnone. unfold SplitBatchNorm_forward.
  destruct (shape input) as [|N [|C [|H [|W [|? ?]]]]];
    try (eexists; reflexivity).
  unfold bind at 1, gets at 1. unfold bind at 1, gets at 1.
  rewrite Htr. cbn [orb].
  unfold forward_split, bind, gets, lift, attr, ret, raise.
  destruct (running_mean l) as [rm|] eqn:E1; [|eexists; reflexivity].
  destruct (repeat1 rm _); [eexists; reflexivity|].
  destruct (running_var l) as [rv|] eqn:E2; [|eexists; reflexivity].
  destruct (repeat1 rv _); [eexists; reflexivity|].
  destruct (view_infer input _); [eexists; reflexivity|].
  destruct (weight l) as [w|] eqn:E3; [|eexists; reflexivity].
  destruct (repeat1 w _); [eexists; reflexivity|].
  destruct (bias l) as [b|] eqn:E4; [|eexists; reflexivity].
  destruct Hnone as [E|[E|[E|E]]]; discriminate.
Qed.

End SplitForward.

(** ** [concat_all_gather] *)

Section GatherProperties.
Context {F : Type} {SF : Scalar F}.
Variable get_world_size : result nat.
Variable all_gather : list (Tensor F) -> Tensor F -> result (list (Tensor F)).

Lemma cat_data_block (ts : list (Tensor F)) (n : nat) (s : list nat) :
  Forall (fun t => shape t = n :: s) ts ->
  forall r t i rest, nth_error ts r = Some t -> i < n ->
    cat_data ts (r * n + i) rest = data t (i :: rest).
Proof.
  intros H; induction H as [|t0 ts Ht0 _ IH]; intros r t i rest Hr Hi.
  - destruct r; discriminate.
  - cbn [cat_data]. rewrite Ht0. cbn [hd]. destruct r as [|r]; simpl in Hr.
    + inversion Hr; subst. simpl. apply Nat.ltb_lt in Hi. now rewrite Hi.
    + replace (S r * n + i <? n) with false by (symmetry; apply Nat.ltb_ge; lia).
      replace (S r * n + i - n) with (r * n + i) by lia.
      now apply IH.
Qed.

Lemma total_rows (ts : list (Tensor F)) (n : nat) (s : list nat) :
  Forall (fun t => shape t = n :: s) ts ->
  fold_right (fun t acc => hd 0 (shape t) + acc) 0 ts = length ts * n.
Proof.
  intros H; induction H as [|t0 ts Ht0 _ IH]; simpl; [reflexivity|].
  now rewrite Ht0, IH.
Qed.

Lemma filter_empty_vectors (ts : list (Tensor F)) (n : nat) (s : list nat) :
  Forall (fun t => shape t = n :: s) ts ->
  filter (fun t => negb (is_empty_vector t)) ts
    = if list_eq_dec Nat.eq_dec (n :: s) [0] then [] else ts.
Proof.
  intros H; induction H as [|t l Ht _ IH].
  - now destruct (list_eq_dec _ _ _).
  - cbn [filter]. unfold is_empty_vector at 1. rewrite Ht, IH.
    destruct (list_eq_dec Nat.eq_dec (n :: s) [0]) as [E|E].
    + now inversion E.
    + destruct n as [|n']; [|reflexivity]. destruct s; [congruence|reflexivity].
Qed.

Lemma cat_dim0_same_shapes (ts : list (Tensor F)) (n : nat) (s : list nat) :
  ts <> [] ->
  Forall (fun t => shape t = n :: s) ts ->
  exists out,
    cat_dim0 ts = inr out /\
    shape out = (length ts * n) :: s /\
    forall r t i rest, nth_error ts r = Some t -> i < n ->
      data out ((r * n + i) :: rest) = data t (i :: rest).
Proof.
  intros Hne Hall. destruct ts as [|first ts']; [congruence|].
  unfold cat_dim0. rewrite (filter_empty_vectors Hall).
  destruct (list_eq_dec Nat.eq_dec (n :: s) [0]) as [E0|E0].
  - inversion E0; subst n s.
    exists first. split; [reflexivity|]. split.
    + inversion Hall; subst. now rewrite Nat.mul_0_r.
    + intros r t i rest _ Hi. lia.
  - 
    inversion Hall as [|? ? Hfirst Hrest]; subst. rewrite Hfirst.
    assert (Hb : forallb (fun t => match shape t with
                                   | [] => false
                                   | _ :: s' => if list_eq_dec Nat.eq_dec s' s then true else false
                                   end) ts' = true).
    { apply forallb_forall. intros t Ht.
      rewrite (proj1 (Forall_forall _ _) Hrest t Ht).
      now destruct (list_eq_dec Nat.eq_dec s s). }
    rewrite Hb. eexists; split; [reflexivity|]. cbn [shape data hd tl]. split.
    + now rewrite (total_rows Hall).
    + intros r t i rest Hr Hi. now apply (cat_data_block Hall).
Qed.

(** X23: with [W] processes, when [all_gather] fills the [W] slots
    with tensors of one shape [n :: s], [concat_all_gather] returns a
    tensor of shape [(W * n) :: s] whose rows [r * n .. r * n + n - 1]
    are the rows of the tensor in slot [r]; the ones the slots were
    created with do not show. *)
Theorem concat_all_gather_stacks (tensor : Tensor F) (world : nat)
  (gathered : list (Tensor F)) (n : nat) (s : list nat) :
  get_world_size = inr world ->
  0 < world ->
  all_gather (repeat (ones_like tensor) world) tensor = inr gathered ->
  length gathered = world ->
  Forall (fun t => shape t = n :: s) gathered ->
  exists out,
    concat_all_gather get_world_size all_gather tensor = inr out /\
    shape out = (world * n) :: s /\
    forall r t i rest, nth_error gathered r = Some t -> i < n ->
      data out ((r * n + i) :: rest) = data t (i :: rest).
Proof.
  intros Hw Hpos Hg Hlen Hall.
  assert (Hne : gathered <> []) by (destruct gathered; [simpl in Hlen; lia|discriminate]).
  destruct (cat_dim0_same_shapes Hne Hall) as (out & Hcat & Hs & Hd).
  exists out. unfold concat_all_gather. rewrite Hw, Hg.
  split; [exact Hcat|]. split; [now rewrite <- Hlen|exact Hd].
Qed.

End GatherProperties.

(** * Concrete runs of the further properties *)

(** X1 at [K = 6], [ptr = 4], three keys. *)
Lemma enqueue_overrun_raises_witness :
  shape (ones [3; 1]) = [3; 1] /\
  shape (queue (small_moco 6 4 1%R)) = [1; K (small_moco 6 4 1%R)] /\
  Nat.divide 3 (K (small_moco 6 4 1%R)) /\
  queue_ptr (small_moco 6 4 1%R) < K (small_moco 6 4 1%R) /\
  K (small_moco 6 4 1%R) < queue_ptr (small_moco 6 4 1%R) + 3 /\
  _dequeue_and_enqueue_single_gpu (ones [3; 1]) (small_moco 6 4 1%R)
    = (inl RuntimeError, small_moco 6 4 1%R).
Proof.
  assert (H1 : shape (ones [3; 1]) = [3; 1]) by reflexivity.
  assert (H2 : shape (queue (small_moco 6 4 1%R)) = [1; K (small_moco 6 4 1%R)])
    by reflexivity.
  assert (H3 : Nat.divide 3 (K (small_moco 6 4 1%R))) by (exists 2; reflexivity).
  assert (H4 : queue_ptr (small_moco 6 4 1%R) < K (small_moco 6 4 1%R)) by (simpl; lia).
  assert (H5 : K (small_moco 6 4 1%R) < queue_ptr (small_moco 6 4 1%R) + 3)
    by (simpl; lia).
  repeat (split; [assumption|]).
  exact (enqueue_overrun_raises (small_moco 6 4 1%R) (ones [3; 1]) H1 H2 H3 H4 H5).
Defined.

Lemma small_aligned (ptr : nat) :
  Nat.divide 2 ptr -> ptr < 4 -> aligned 2 1 (small_moco 4 ptr 1%R).
Proof.
  intros Hd Hlt. split; [reflexivity|]. split; [exists 2; reflexivity|].
  split; assumption.
Qed.

(** X2 at [K = 4], [ptr = 2], two keys. *)
Lemma enqueue_keeps_alignment_witness :
  aligned 2 1 (small_moco 4 2 1%R) /\
  shape (ones [2; 1]) = [2; 1] /\
  exists st',
    _dequeue_and_enqueue_single_gpu (ones [2; 1]) (small_moco 4 2 1%R) = (inr tt, st') /\
    aligned 2 1 st' /\ K st' = K (small_moco 4 2 1%R).
Proof.
  assert (H1 : aligned 2 1 (small_moco 4 2 1%R)).
  { apply small_aligned; [exists 1; reflexivity|lia]. }
  split; [exact H1|]. split; [reflexivity|].
  exact (enqueue_keeps_alignment (ones [2; 1]) H1 eq_refl).
Defined.

(** X3 at [K = 4], [ptr = 2]: two batches of two keys, the second
    wraps to column 0. *)
Lemma enqueue_all_fills_blocks_witness :
  aligned 2 1 (small_moco 4 2 1%R) /\
  Forall (fun keys : Tensor R => shape keys = [2; 1]) [ones [2; 1]; ones [2; 1]] /\
  length [ones [2; 1]; ones [2; 1]] * 2 <= K (small_moco 4 2 1%R) /\
  exists st',
    enqueue_all [ones [2; 1]; ones [2; 1]] (small_moco 4 2 1%R) = (inr tt, st') /\
    queue_ptr st' = 2.
Proof.
  assert (H1 : aligned 2 1 (small_moco 4 2 1%R)).
  { apply small_aligned; [exists 1; reflexivity|lia]. }
  assert (H2 : Forall (fun keys : Tensor R => shape keys = [2; 1])
                 [ones [2; 1]; ones [2; 1]]) by (repeat constructor).
  assert (H3 : length [ones [2; 1]; ones [2; 1]] * 2 <= K (small_moco 4 2 1%R))
    by (simpl; lia).
  repeat (split; [assumption|]).
  destruct (enqueue_all_fills_blocks H1 H2 H3) as (st' & Hrun & Hp & _).
  exists st'. split; [exact Hrun|]. rewrite Hp. reflexivity.
Defined.

(** X4 at [K = 4], [ptr = 2]: after two batches of two keys the
    pointer is at 2 again. *)
Lemma enqueue_all_full_cycle_witness :
  aligned 2 1 (small_moco 4 2 1%R) /\
  Forall (fun keys : Tensor R => shape keys = [2; 1]) [ones [2; 1]; ones [2; 1]] /\
  length [ones [2; 1]; ones [2; 1]] * 2 = K (small_moco 4 2 1%R) /\
  exists st',
    enqueue_all [ones [2; 1]; ones [2; 1]] (small_moco 4 2 1%R) = (inr tt, st') /\
    queue_ptr st' = queue_ptr (small_moco 4 2 1%R).
Proof.
  assert (H1 : aligned 2 1 (small_moco 4 2 1%R)).
  { apply small_aligned; [exists 1; reflexivity|lia]. }
  assert (H2 : Forall (fun keys : Tensor R => shape keys = [2; 1])
                 [ones [2; 1]; ones [2; 1]]) by (repeat constructor).
  assert (H3 : length [ones [2; 1]; ones [2; 1]] * 2 = K (small_moco 4 2 1%R))
    by reflexivity.
  repeat (split; [assumption|]).
  destruct (enqueue_all_full_cycle H1 H2 H3) as (st' & Hrun & Hp & _).
  exists st'. split; assumption.
Defined.

(** X5 at [K = 100] and a batch of 32: the [assert] fails, nothing is
    written. *)
Lemma enqueue_raise_writes_nothing_witness :
  0 < K (small_moco 100 0 1%R) /\
  exists e st',
    _dequeue_and_enqueue_single_gpu (ones [32; 1]) (small_moco 100 0 1%R) = (inl e, st') /\
    st' = small_moco 100 0 1%R.
Proof.
  assert (H1 : 0 < K (small_moco 100 0 1%R)) by (simpl; lia).
  split; [exact H1|].
  eexists _, _. split; [reflexivity|].
  exact (enqueue_raise_writes_nothing (small_moco 100 0 1%R) (ones [32; 1]) H1 eq_refl).
Defined.

(** X6 on a queue of no column. *)
Lemma enqueue_zero_capacity_raises_witness :
  K (small_moco 0 0 1%R) = 0 /\
  exists e st',
    _dequeue_and_enqueue_single_gpu (ones [1; 1]) (small_moco 0 0 1%R) = (inl e, st').
Proof.
  split; [reflexivity|].
  exact (enqueue_zero_capacity_raises (small_moco 0 0 1%R) (ones [1; 1]) eq_refl).
Defined.

(** X7 on one pair of one-component images and a queue of two
    columns: one row of three logits, one label. *)
Lemma forward_result_shape_witness :
  exists logits labels st',
    forward identity_call normalize_ref reversing (ones [1; 1]) (ones [1; 1])
            (small_moco 2 0 1%R) = (inr (logits, labels), st') /\
    exists n c kq,
      shape (queue (small_moco 2 0 1%R)) = [c; kq] /\
      shape logits = [n; 1 + kq] /\
      labels = repeat 0%Z n.
Proof.
  destruct (small_forward 1%R) as (q & st1 & k & st2 & logits & st' & _ & _ & Hrun & _).
  exists logits, [0%Z], st'. split; [exact Hrun|].
  exact (forward_result_shape identity_call normalize_ref reversing
           (ones [1; 1]) (ones [1; 1]) (small_moco 2 0 1%R) Hrun).
Defined.

(** X9 at [K = 3] and a batch of two pairs: the [assert] of the
    enqueue fails. *)
Lemma forward_raise_keeps_queue_witness :
  0 < K (small_moco 3 0 1%R) /\
  exists e st',
    forward identity_call normalize_ref reversing (ones [2; 1]) (ones [2; 1])
            (small_moco 3 0 1%R) = (inl e, st') /\
    queue st' = queue (small_moco 3 0 1%R) /\
    queue_ptr st' = queue_ptr (small_moco 3 0 1%R).
Proof.
  assert (H1 : 0 < K (small_moco 3 0 1%R)) by (simpl; lia).
  split; [exact H1|].
  eexists _, _. split; [reflexivity|].
  exact (forward_raise_keeps_queue identity_call normalize_ref reversing
           (ones [2; 1]) (ones [2; 1]) (small_moco 3 0 1%R) H1 eq_refl).
Defined.

(** X11: the second pair, of 3 and 2 elements, stops the loop after
    the first key parameter is replaced. *)
Lemma momentum_update_stops_midway_witness :
  Forall2 (fun q k : Tensor R => shape q = shape k)
          [of_rows [[3; 5]%R]] [of_rows [[7; 9]%R]] /\
  broadcast_shapes (shape (ones [3])) (shape (ones [2])) = inl RuntimeError /\
  exists ks1',
    momentum_zip (1 / 2)%R ([of_rows [[3; 5]%R]] ++ ones [2] :: [])
                 ([of_rows [[7; 9]%R]] ++ ones [3] :: [])
      = (inl RuntimeError, ks1' ++ ones [3] :: []) /\
    length ks1' = 1.
Proof.
  assert (H1 : Forall2 (fun q k : Tensor R => shape q = shape k)
                 [of_rows [[3; 5]%R]] [of_rows [[7; 9]%R]]) by (repeat constructor).
  split; [exact H1|]. split; [reflexivity|].
  destruct (momentum_update_stops_midway (1 / 2)%R [] [] (ones [2]) (ones [3]) H1 eq_refl)
    as (ks1' & Hrun & Hall).
  exists ks1'. split; [exact Hrun|].
  apply Forall2_length in Hall. now rewrite <- Hall.
Defined.

(** X12: a key parameter of one element and a query parameter of
    three. *)
Lemma momentum_update_can_reshape_witness :
  shape (ones [1]) = [1] /\ shape (ones [3]) = [3] /\
  exists k',
    momentum_zip (1 / 2)%R [ones [3]] [ones [1]] = (inr tt, [k']) /\
    shape k' = [3].
Proof.
  split; [reflexivity|]. split; [reflexivity|].
  destruct (momentum_update_can_reshape (1 / 2)%R (ones [3]) (ones [1]) eq_refl eq_refl)
    as (k' & Hrun & Hs & _).
  exists k'. split; assumption.
Defined.

(** X13 with encoders of one parameter of two elements. *)
Lemma init_copies_query_parameters_witness :
  exists st g',
    MoCo_init randn_ones one_param_factory keep_conv1 keep_fc normalize_ref
              2 2 (lit (999 # 1000)) (lit (7 # 100)) false "all"%string tt = (inr st, g') /\
    forall i q k, nth_error (parameters (encoder_q st)) i = Some q ->
      nth_error (parameters (encoder_k st)) i = Some k ->
      shape q = shape k ->
      forall idx, in_range idx (shape q) -> data k idx = data q idx.
Proof.
  eexists _, _. split; [reflexivity|].
  exact (init_copies_query_parameters randn_ones one_param_factory keep_conv1 keep_fc
           normalize_ref 2 2 (lit (999 # 1000)) (lit (7 # 100)) false "all"%string
           tt eq_refl).
Defined.

Lemma randn_ones_shape (s : list nat) (g1 : unit) (raw : Tensor R) (g2 : unit) :
  randn_ones s g1 = (inr raw, g2) -> shape raw = s.
Proof. intros H; inversion H; reflexivity. Qed.

(** X14: a queue of four columns takes three batches of two keys;
    [ptr] ends at [6 mod 4]. *)
Lemma fresh_object_takes_batches_witness :
  (forall s g1 raw g2, randn_ones s g1 = (inr raw, g2) -> shape raw = s) /\
  (forall x d y, normalize_ref x d = inr y -> shape y = shape x) /\
  0 < 4 /\ Nat.divide 2 4 /\
  Forall (fun keys : Tensor R => shape keys = [2; 1])
         [ones [2; 1]; ones [2; 1]; ones [2; 1]] /\
  exists st g' st',
    MoCo_init randn_ones constant_factory keep_conv1 keep_fc normalize_ref
              1 4 (lit (999 # 1000)) (lit (7 # 100)) false "all"%string tt = (inr st, g') /\
    enqueue_all [ones [2; 1]; ones [2; 1]; ones [2; 1]] st = (inr tt, st') /\
    queue_ptr st' = 2.
Proof.
  assert (H3 : 0 < 4) by lia.
  assert (H4 : Nat.divide 2 4) by (exists 2; reflexivity).
  assert (H5 : Forall (fun keys : Tensor R => shape keys = [2; 1])
                 [ones [2; 1]; ones [2; 1]; ones [2; 1]]) by (repeat constructor).
  split; [exact randn_ones_shape|]. split; [exact normalize_ref_keeps_shape|].
  repeat (split; [assumption|]).
  eexists _, _.
  destruct (fresh_object_takes_batches randn_ones constant_factory keep_conv1 keep_fc
              normalize_ref (lit (999 # 1000)) (lit (7 # 100)) false "all"%string tt
              randn_ones_shape normalize_ref_keeps_shape eq_refl H3 H4 H5)
    as (st' & Hrun & Hp).
  exists st'. split; [reflexivity|]. split; [exact Hrun|]. rewrite Hp. reflexivity.
Defined.

(** X18 on a batch of three samples shuffled into reverse order. *)
Lemma shuffle_returns_inverse_permutation_witness :
  shape (of_rows [[1]; [2]; [3]]%R) = [3; 1] /\
  Permutation (reversing 3) (seq 0 3) /\
  exists x' idx_unshuffle,
    _batch_shuffle_single_gpu reversing (of_rows [[1]; [2]; [3]]%R)
      = inr (x', idx_unshuffle) /\
    Permutation idx_unshuffle (seq 0 3).
Proof.
  assert (H1 : shape (of_rows [[1]; [2]; [3]]%R) = [3; 1]) by reflexivity.
  assert (H2 : Permutation (reversing 3) (seq 0 3)).
  { unfold reversing. apply Permutation_sym, Permutation_rev. }
  split; [exact H1|]. split; [exact H2|].
  destruct (shuffle_returns_inverse_permutation reversing (of_rows [[1]; [2]; [3]]%R) H1 H2)
    as (x' & idx & Hrun & _ & Hperm & _).
  exists x', idx. split; assumption.
Defined.

(** X19 on four samples and a fresh layer of one channel and two
    splits: sample 3 is sample 1 of split 1. *)
Lemma split_is_strided_witness :
  exists x rm_s rv_s w_s b_s,
    view_infer (samples 4) [1 * 2; 1; 1] = inr x /\
    repeat1 (full 1 0%R) 2 = inr rm_s /\ repeat1 (full 1 1%R) 2 = inr rv_s /\
    repeat1 (full 1 1%R) 2 = inr w_s /\ repeat1 (full 1 0%R) 2 = inr b_s /\
    shape x = [2; 1 * 2; 1; 1] /\
    data x [1; 1 * 1 + 0; 0; 0] = data (samples 4) [1 * 2 + 1; 0; 0; 0].
Proof.
  eexists _, _, _, _, _.
  repeat (split; [reflexivity|]).
  assert (H2 : 0 < 2) by lia. assert (H1 : 0 < 1) by lia.
  destruct (split_is_strided batch_norm_ref (samples 4)
              (SplitBatchNorm_init 1 2 no_kw) 2 (S_ := 2) (C := 1) (H := 1) (W := 1)
              eq_refl eq_refl eq_refl eq_refl eq_refl eq_refl eq_refl
              eq_refl eq_refl eq_refl eq_refl H2 H1 H1 H1
              eq_refl eq_refl eq_refl eq_refl eq_refl)
    as (_ & Hd & _).
  apply Hd; lia.
Defined.

(** X20 on four samples, a fresh layer of one channel and two splits,
    and the reference [batch_norm]. *)
Lemma split_forward_averages_witness :
  exists x rm_s rv_s w_s b_s y rms' rvs',
    view_infer (samples 4) [1 * 2; 1; 1] = inr x /\
    repeat1 (full 1 0%R) 2 = inr rm_s /\ repeat1 (full 1 1%R) 2 = inr rv_s /\
    repeat1 (full 1 1%R) 2 = inr w_s /\ repeat1 (full 1 0%R) 2 = inr b_s /\
    batch_norm_ref x (Some rm_s) (Some rv_s) (Some w_s) (Some b_s) true
                   (momentum (SplitBatchNorm_init 1 2 no_kw))
                   (eps (SplitBatchNorm_init 1 2 no_kw))
      = inr (y, Some rms', Some rvs') /\
    exists out l',
      SplitBatchNorm_forward batch_norm_ref (samples 4) (SplitBatchNorm_init 1 2 no_kw)
        = (inr out, l') /\
      shape out = [2 * 2; 1; 1; 1].
Proof.
  eexists _, _, _, _, _, _, _, _.
  repeat (split; [reflexivity|]).
  assert (H2 : 0 < 2) by lia. assert (H1 : 0 < 1) by lia.
  edestruct (split_forward_averages batch_norm_ref (samples 4)
               (SplitBatchNorm_init 1 2 no_kw) (a := 2) (S_ := 2) (C := 1) (H := 1) (W := 1))
    as (out & new_rm & new_rv & Hrun & Hs & _);
    [first [reflexivity | exact H2 | exact H1]..|].
  eexists _, _. split; [exact Hrun|exact Hs].
Defined.

(** X21 on three samples and two splits. *)
Lemma split_rejects_indivisible_batch_witness :
  shape (samples 3) = [3; 1; 1; 1] /\
  training (SplitBatchNorm_init 1 2 no_kw) = true /\
  running_mean (SplitBatchNorm_init 1 2 no_kw) = Some (full 1 0%R) /\
  running_var (SplitBatchNorm_init 1 2 no_kw) = Some (full 1 1%R) /\
  0 < 1 /\ ~ Nat.divide (num_splits (SplitBatchNorm_init (F := R) 1 2 no_kw)) 3 /\
  SplitBatchNorm_forward batch_norm_ref (samples 3) (SplitBatchNorm_init 1 2 no_kw)
    = (inl RuntimeError, SplitBatchNorm_init 1 2 no_kw).
Proof.
  assert (H1 : 0 < 1) by lia.
  assert (H2 : ~ Nat.divide (num_splits (SplitBatchNorm_init (F := R) 1 2 no_kw)) 3).
  { simpl. intros [k Hk]. lia. }
  repeat (split; [first [reflexivity | assumption]|]).
  exact (split_rejects_indivisible_batch batch_norm_ref (samples 3)
           (SplitBatchNorm_init 1 2 no_kw) (rm := full 1 0%R) (rv := full 1 1%R)
           eq_refl eq_refl eq_refl eq_refl H1 H1 H1 H2).
Defined.

(** X22 on a fresh layer built with [affine=False]. *)
Lemma split_needs_buffers_witness :
  training (SplitBatchNorm_init (F := R) 1 16 (mkBNKw None None (Some false) None)) = true /\
  weight (SplitBatchNorm_init (F := R) 1 16 (mkBNKw None None (Some false) None)) = None /\
  exists e,
    SplitBatchNorm_forward batch_norm_ref two_samples
      (SplitBatchNorm_init 1 16 (mkBNKw None None (Some false) None))
    = (inl e, SplitBatchNorm_init 1 16 (mkBNKw None None (Some false) None)).
Proof.
  split; [reflexivity|]. split; [reflexivity|].
  exact (split_needs_buffers batch_norm_ref two_samples
           (SplitBatchNorm_init 1 16 (mkBNKw None None (Some false) None))
           eq_refl (or_intror (or_intror (or_introl eq_refl)))).
Defined.

(** X23 with two processes that hold the same two rows. *)
Lemma concat_all_gather_stacks_witness :
  two_processes = inr 2 /\ 0 < 2 /\
  same_on_all_ranks (repeat (ones_like (of_rows [[1]; [2]]%R)) 2) (of_rows [[1]; [2]]%R)
    = inr [of_rows [[1]; [2]]%R; of_rows [[1]; [2]]%R] /\
  length [of_rows [[1]; [2]]%R; of_rows [[1]; [2]]%R] = 2 /\
  Forall (fun t : Tensor R => shape t = [2; 1])
         [of_rows [[1]; [2]]%R; of_rows [[1]; [2]]%R] /\
  exists out,
    concat_all_gather two_processes same_on_all_ranks (of_rows [[1]; [2]]%R) = inr out /\
    shape out = [2 * 2; 1] /\
    data out [1 * 2 + 1; 0] = data (of_rows [[1]; [2]]%R) [1; 0].
Proof.
  assert (H2 : 0 < 2) by lia.
  assert (H5 : Forall (fun t : Tensor R => shape t = [2; 1])
                 [of_rows [[1]; [2]]%R; of_rows [[1]; [2]]%R]) by (repeat constructor).
  split; [reflexivity|]. split; [exact H2|]. split; [reflexivity|].
  split; [reflexivity|]. split; [exact H5|].
  destruct (concat_all_gather_stacks (get_world_size := two_processes) same_on_all_ranks
              (of_rows [[1]; [2]]%R) (world := 2) (n := 2) (s := [1])
              eq_refl H2 eq_refl eq_refl H5) as (out & Hrun & Hs & Hd).
  exists out. split; [exact Hrun|]. split; [exact Hs|].
  apply (Hd 1 (of_rows [[1]; [2]]%R) 1 [0] eq_refl). lia.
Defined.
